(** * GarlicSim: the crunching manager and step profiles

    A shallow embedding of
    [garlicsim/asynchronous_crunching/crunching_manager.py] and
    [garlicsim/misc/step_profile.py].

    Python objects with identity that the manager mutates (jobs, crunchers)
    live in heaps and are referred to by identifier; objects the manager
    only reads (nodes, states, crunching profiles, step profiles) are
    carried by value.  Methods become functions in a state-and-exception
    monad over the record [world].  Calls made on crunchers are also
    written to a chronological log, so that "how many times was this
    cruncher retired" is a property of the final state.

    The embedding is sequential: while [sync_crunchers] runs, no cruncher
    pushes to its queue or dies.  This is the view of one pass that holds
    the tree's write lock and drains queues without blocking. *)

From stdpp Require Import base functions gmap list strings.
From Stdlib Require Import ZArith Lia.

Local Open Scope Z_scope.
Local Open Scope nat_scope.

(** ** Exceptions and results *)

(** The exceptions the two modules can raise.  [UnexpectedObject text] is
    the plain [Exception] of line 307 of the manager, whose message is
    ['Unexpected object %s in work queue'] with [text] in place of [%s];
    [GarlicSimException] is the one raised by [CrunchingManager.__init__]
    and by the argument parser; [TypeError] is what the [%] operator and a
    call with a repeated argument name raise. *)
Inductive exn :=
  | KeyError
  | ValueError
  | IndexError
  | AssertionError
  | TypeError
  | GarlicSimException
  | UnexpectedObject (text : string)
  | DanglingReference.

Inductive result (A : Type) :=
  | Ok (a : A)
  | Raise (e : exn).
Arguments Ok {A} a.
Arguments Raise {A} e.

(** ** Plain data *)

Abbreviation function_ref := string (only parsing).
Abbreviation job_id := nat (only parsing).
Abbreviation cruncher_id := nat (only parsing).
Abbreviation node_id := nat (only parsing).
Abbreviation cruncher_class := string (only parsing).

(** Modelled from the spec: a simulation state, of which the manager only
    ever reads the clock. *)
Record State := { clock : Z; world_data : nat }.

Inductive clock_target_t :=
  | Finite (z : Z)
  | Infinity.

Global Instance State_eq_dec : EqDecision State.
Proof. solve_decision. Defined.
Global Instance clock_target_eq_dec : EqDecision clock_target_t.
Proof. solve_decision. Defined.
Global Instance exn_eq_dec : EqDecision exn.
Proof. solve_decision. Defined.

Section garlicsim.

(** The universe of Python objects that may be passed as step-function
    arguments, with [==] on them. *)
Context {pyobj : Type} `{!EqDecision pyobj}.

(** ** Step profiles ([garlicsim/misc/step_profile.py]) *)

(** [step_function], [args] (without the state placeholder) and [kwargs];
    the inherited attribute [function] is the same as [step_function]. *)
Record StepProfile := {
  step_function : function_ref;
  args : list pyobj;
  kwargs : gmap string pyobj
}.

Global Instance StepProfile_eq_dec : EqDecision StepProfile.
Proof. solve_decision. Defined.

(** [isinstance(candidate, StepProfile)], together with the view of such an
    object as a profile; the class object [StatePlaceholder]. *)
Variable isinstance_StepProfile : pyobj → option StepProfile.
Variable StatePlaceholder : pyobj.

(** Modelled from the spec: [ArgumentsProfile] is not among the sources.
    The spec describes a value object holding a function reference, an
    ordered sequence of positional arguments and a mapping of keyword
    arguments, two of them equal iff function and arguments are equal. *)
Record ArgumentsProfile := {
  ap_function : function_ref;
  ap_args : list pyobj;
  ap_kwargs : gmap string pyobj
}.

(** Modelled from the spec: [ArgumentsProfile.__init__] stores what it is
    given. *)
Definition ArgumentsProfile__init__
    (function : function_ref) (args : list pyobj) (kwargs : gmap string pyobj)
    : ArgumentsProfile :=
  {| ap_function := function; ap_args := args; ap_kwargs := kwargs |}.

(** Modelled from the spec: "two step profiles are equal iff function and
    arguments are equal". *)
Definition ArgumentsProfile__eq__ (self other : StepProfile) : bool :=
  bool_decide (step_function self = step_function other)
  && bool_decide (args self = args other)
  && bool_decide (kwargs self = kwargs other).

(** Keyword arguments a call of the constructor can carry: none named
    after one of the two named parameters of [__init__]. *)
Definition acceptable_keywords (kwargs_ : gmap string pyobj) : Prop :=
  kwargs_ !! "self"%string = None ∧ kwargs_ !! "step_function"%string = None.

(** The first half of [StepProfile.__init__]: were we passed a step profile
    instead of arguments? *)
Definition candidate (args : list pyobj) (kwargs : gmap string pyobj)
    : option pyobj :=
  let candidate := None in
  let candidate :=
    if bool_decide (length args = 1) && bool_decide (size kwargs = 0)
    then args !! 0 else candidate in
  let candidate :=
    if bool_decide (length args = 0) && bool_decide (size kwargs = 1)
       && bool_decide (is_Some (kwargs !! "step_profile"%string))
    then kwargs !! "step_profile"%string else candidate in
  candidate.

Definition StepProfile__init__
    (step_function_ : function_ref) (args_ : list pyobj)
    (kwargs_ : gmap string pyobj) : result StepProfile :=
  (* def __init__(self, step_function, *args, **kwargs): a keyword with the
     name of one of the two named parameters gives that parameter a second
     value *)
  if bool_decide (is_Some (kwargs_ !! "self"%string))
     || bool_decide (is_Some (kwargs_ !! "step_function"%string))
  then Raise TypeError else
  let self :=
    match candidate args_ kwargs_ ≫= isinstance_StepProfile with
    | Some cand =>
        ArgumentsProfile__init__ (step_function cand)
          (StatePlaceholder :: args cand) (kwargs cand)
    | None =>
        ArgumentsProfile__init__ step_function_
          (StatePlaceholder :: args_) kwargs_
    end in
  match ap_args self with
  | a0 :: rest =>
      (* assert self.args[0] is StatePlaceholder *)
      if bool_decide (a0 = StatePlaceholder)
      then Ok {| step_function := ap_function self;
                 args := rest;
                 kwargs := ap_kwargs self |}
      else Raise AssertionError
  | [] => Raise IndexError
  end.

(** [other] is typed as a step profile, so [isinstance(other, StepProfile)]
    holds. *)
Definition StepProfile__eq__ (self other : StepProfile) : bool :=
  true && ArgumentsProfile__eq__ self other.

Definition StepProfile__ne__ (self other : StepProfile) : bool :=
  negb (StepProfile__eq__ self other).

(** ** The collaborators of the manager *)

(** Modelled from the spec: a crunching profile holds a clock target and a
    step profile.  It is a mutable object of the job's owner; the manager
    reads it and tells profiles apart by identity ([profile_ident]). *)
Record CrunchingProfile := {
  profile_ident : nat;
  clock_target : clock_target_t;
  step_profile : StepProfile
}.

(** Modelled from the spec: a node of the tree, as the manager sees it
    ([.state], [.still_in_editing], the clock of its state), with the parent
    and the step profile it was added under. *)
Record Node := {
  node_ident : node_id;
  state : State;
  parent : option node_id;
  node_step_profile : option StepProfile;
  still_in_editing : bool
}.

(** Modelled from the spec: the tree, reduced to what the manager does to
    it: nodes in the order they were added and the ends made. *)
Record Tree := {
  nodes : list Node;
  ends : list (node_id * StepProfile)
}.

(** Modelled from the spec: a job pairs a node with a crunching profile and
    the flag [resulted_in_end]. *)
Record Job := {
  node : Node;
  crunching_profile : CrunchingProfile;
  resulted_in_end : bool
}.

(** Modelled from the spec: "true iff [resulted_in_end] is true or the
    job's node's clock has reached or passed [clock_target]". *)
Definition state_satisfies (cp : CrunchingProfile) (st : State) : bool :=
  match clock_target cp with
  | Finite target => bool_decide (target ≤ clock st)%Z
  | Infinity => false
  end.

Definition is_done (job : Job) : bool :=
  resulted_in_end job || state_satisfies (crunching_profile job) (state (node job)).

(** An object that is not a [State], an [EndMarker] or a [StepProfile],
    as far as the message of line 307 tells such objects apart: a tuple,
    with the text of each of its items, or any other object, with its
    text. *)
Inductive foreign :=
  | Plain (text : string)
  | Tuple (items : list string).

(** What a cruncher can put in its work queue. *)
Inductive thing :=
  | ThingState (st : State)
  | ThingEndMarker
  | ThingStepProfile (sp : StepProfile)
  | ThingOther (o : foreign).

(** ['Unexpected object %s in work queue' % thing], as the text that takes
    the place of [%s]: the [%] operator reads a tuple on its right as the
    tuple of all arguments, so a tuple of one item gives that item's text
    and any other tuple is a [TypeError]. *)
Definition percent_s (o : foreign) : result string :=
  match o with
  | Plain text => Ok text
  | Tuple [item] => Ok item
  | Tuple _ => Raise TypeError
  end.

(** Modelled from the spec: a cruncher is a worker of some implementation
    class, bound to a state and a crunching profile, that can be started and
    asked to retire, and has a work queue.  Retiring is cooperative: it
    records the order and leaves [alive] alone. *)
Record Cruncher := {
  cruncher_class_of : cruncher_class;
  initial_state : State;
  cruncher_profile : CrunchingProfile;
  alive : bool;
  retire_ordered : bool;
  work_queue : list thing
}.

(** Calls the manager makes on crunchers, in the order made. *)
Inductive call :=
  | CallStart (c : cruncher_id)
  | CallRetire (c : cruncher_id)
  | CallUpdateCrunchingProfile (c : cruncher_id) (cp : CrunchingProfile).

Global Instance CrunchingProfile_eq_dec : EqDecision CrunchingProfile.
Proof. solve_decision. Defined.
Global Instance Node_eq_dec : EqDecision Node.
Proof. solve_decision. Defined.
Global Instance call_eq_dec : EqDecision call.
Proof. solve_decision. Defined.

(** ** The manager and its surroundings *)

(** The first five fields are the attributes of [CrunchingManager]; [tree]
    is [self.project.tree]; the heaps hold the job and cruncher objects. *)
Record world := World {
  jobs : list job_id;
  crunchers : gmap job_id cruncher_id;
  step_profiles : gmap cruncher_id StepProfile;
  crunching_profiles_change_tracker : gmap nat (clock_target_t * StepProfile);
  cruncher_type : cruncher_class;
  tree : Tree;
  job_heap : job_id → Job;
  cruncher_heap : list Cruncher;
  calls : list call
}.

Definition set_jobs (v : list job_id) (w : world) : world :=
  World v (crunchers w) (step_profiles w)
    (crunching_profiles_change_tracker w) (cruncher_type w) (tree w)
    (job_heap w) (cruncher_heap w) (calls w).
Definition set_crunchers (v : gmap job_id cruncher_id) (w : world) : world :=
  World (jobs w) v (step_profiles w)
    (crunching_profiles_change_tracker w) (cruncher_type w) (tree w)
    (job_heap w) (cruncher_heap w) (calls w).
Definition set_step_profiles (v : gmap cruncher_id StepProfile) (w : world)
    : world :=
  World (jobs w) (crunchers w) v
    (crunching_profiles_change_tracker w) (cruncher_type w) (tree w)
    (job_heap w) (cruncher_heap w) (calls w).
Definition set_change_tracker (v : gmap nat (clock_target_t * StepProfile))
    (w : world) : world :=
  World (jobs w) (crunchers w) (step_profiles w) v (cruncher_type w) (tree w)
    (job_heap w) (cruncher_heap w) (calls w).
Definition set_tree (v : Tree) (w : world) : world :=
  World (jobs w) (crunchers w) (step_profiles w)
    (crunching_profiles_change_tracker w) (cruncher_type w) v
    (job_heap w) (cruncher_heap w) (calls w).
Definition set_job_heap (v : job_id → Job) (w : world) : world :=
  World (jobs w) (crunchers w) (step_profiles w)
    (crunching_profiles_change_tracker w) (cruncher_type w) (tree w)
    v (cruncher_heap w) (calls w).
Definition set_cruncher_heap (v : list Cruncher) (w : world) : world :=
  World (jobs w) (crunchers w) (step_profiles w)
    (crunching_profiles_change_tracker w) (cruncher_type w) (tree w)
    (job_heap w) v (calls w).
Definition set_calls (v : list call) (w : world) : world :=
  World (jobs w) (crunchers w) (step_profiles w)
    (crunching_profiles_change_tracker w) (cruncher_type w) (tree w)
    (job_heap w) (cruncher_heap w) v.

(** ** The monad *)

Definition M (A : Type) : Type := world → result (A * world).

Definition ret {A} (a : A) : M A := λ w, Ok (a, w).
Definition raise {A} (e : exn) : M A := λ _, Raise e.
Definition bind {A B} (m : M A) (k : A → M B) : M B :=
  λ w, match m w with
       | Ok (a, w') => k a w'
       | Raise e => Raise e
       end.

Notation "x <- m ;; k" := (bind m (λ x, k))
  (at level 100, m at next level, right associativity).
Notation "'( a , b ) <- m ;; k" := (bind m (λ ab, let '(a, b) := ab in k))
  (at level 100, a name, b name, m at next level, right associativity).
Notation "m ;;; k" := (bind m (λ _, k))
  (at level 100, k at level 200, right associativity).

Definition get : M world := λ w, Ok (w, w).
Definition modify (f : world → world) : M unit := λ w, Ok (tt, f w).

(** *** Jobs *)

Definition get_job (job : job_id) : M Job :=
  w <- get ;; ret (job_heap w job).

Definition set_job (job : job_id) (j : Job) : M unit :=
  modify (λ w, set_job_heap (<[job := j]> (job_heap w)) w).

(** [job.node = new_leaf] *)
Definition job_set_node (job : job_id) (new_leaf : Node) : M unit :=
  j <- get_job job ;;
  set_job job {| node := new_leaf;
                 crunching_profile := crunching_profile j;
                 resulted_in_end := resulted_in_end j |}.

(** [job.resulted_in_end = True] *)
Definition job_set_resulted_in_end (job : job_id) : M unit :=
  j <- get_job job ;;
  set_job job {| node := node j;
                 crunching_profile := crunching_profile j;
                 resulted_in_end := true |}.

(** *** Crunchers *)

Definition get_cruncher (cruncher : cruncher_id) : M Cruncher :=
  w <- get ;;
  match cruncher_heap w !! cruncher with
  | Some cr => ret cr
  | None => raise DanglingReference
  end.

Definition set_cruncher (cruncher : cruncher_id) (cr : Cruncher) : M unit :=
  modify (λ w, set_cruncher_heap (<[cruncher := cr]> (cruncher_heap w)) w).

Definition log (c : call) : M unit :=
  modify (λ w, set_calls (calls w ++ [c]) w).

(** Modelled from the spec: [cruncher.retire()] signals the worker to stop;
    on a dead worker it does nothing more. *)
Definition cruncher_retire (cruncher : cruncher_id) : M unit :=
  cr <- get_cruncher cruncher ;;
  set_cruncher cruncher
    {| cruncher_class_of := cruncher_class_of cr;
       initial_state := initial_state cr;
       cruncher_profile := cruncher_profile cr;
       alive := alive cr;
       retire_ordered := true;
       work_queue := work_queue cr |} ;;;
  log (CallRetire cruncher).

(** Modelled from the spec: [cruncher.is_alive()]. *)
Definition cruncher_is_alive (cruncher : cruncher_id) : M bool :=
  cr <- get_cruncher cruncher ;; ret (alive cr).

(** [type(cruncher)] *)
Definition cruncher_get_type (cruncher : cruncher_id) : M cruncher_class :=
  cr <- get_cruncher cruncher ;; ret (cruncher_class_of cr).

(** Modelled from the spec: [cruncher.update_crunching_profile(profile)]
    pushes the updated profile to the live cruncher. *)
Definition cruncher_update_crunching_profile
    (cruncher : cruncher_id) (cp : CrunchingProfile) : M unit :=
  cr <- get_cruncher cruncher ;;
  set_cruncher cruncher
    {| cruncher_class_of := cruncher_class_of cr;
       initial_state := initial_state cr;
       cruncher_profile := cp;
       alive := alive cr;
       retire_ordered := retire_ordered cr;
       work_queue := work_queue cr |} ;;;
  log (CallUpdateCrunchingProfile cruncher cp).

(** Modelled from the spec: [queue_tools.iterate(cruncher.work_queue)]
    takes every item already produced, oldest first, without waiting for
    more; the queue is left empty. *)
Definition queue_iterate (cruncher : cruncher_id) : M (list thing) :=
  cr <- get_cruncher cruncher ;;
  set_cruncher cruncher
    {| cruncher_class_of := cruncher_class_of cr;
       initial_state := initial_state cr;
       cruncher_profile := cruncher_profile cr;
       alive := alive cr;
       retire_ordered := retire_ordered cr;
       work_queue := [] |} ;;;
  ret (work_queue cr).

(** Modelled from the spec: [self.cruncher_type(self, node.state,
    crunching_profile)] makes a new cruncher object, not yet running, with
    an empty work queue.  Its identifier is the next free heap slot. *)
Definition cruncher_new (cls : cruncher_class) (st : State)
    (cp : CrunchingProfile) : M cruncher_id :=
  w <- get ;;
  modify (set_cruncher_heap
    (cruncher_heap w ++
      [{| cruncher_class_of := cls;
          initial_state := st;
          cruncher_profile := cp;
          alive := false;
          retire_ordered := false;
          work_queue := [] |}])) ;;;
  ret (length (cruncher_heap w)).

(** Modelled from the spec: [cruncher.start()] sets the worker running. *)
Definition cruncher_start (cruncher : cruncher_id) : M unit :=
  cr <- get_cruncher cruncher ;;
  set_cruncher cruncher
    {| cruncher_class_of := cruncher_class_of cr;
       initial_state := initial_state cr;
       cruncher_profile := cruncher_profile cr;
       alive := true;
       retire_ordered := retire_ordered cr;
       work_queue := work_queue cr |} ;;;
  log (CallStart cruncher).

(** *** The tree *)

(** Modelled from the spec: [tree.add_state(state, parent, step_profile)]
    appends a node under [parent] and returns it.  A node produced by
    crunching is not in editing. *)
Definition tree_add_state (st : State) (parent_ : Node) (sp : StepProfile)
    : M Node :=
  w <- get ;;
  let new_node :=
    {| node_ident := length (nodes (tree w));
       state := st;
       parent := Some (node_ident parent_);
       node_step_profile := Some sp;
       still_in_editing := false |} in
  modify (set_tree {| nodes := nodes (tree w) ++ [new_node];
                      ends := ends (tree w) |}) ;;;
  ret new_node.

(** Modelled from the spec: [tree.make_end(node, step_profile)] marks the
    node as a terminal end of its branch. *)
Definition tree_make_end (node_ : Node) (sp : StepProfile) : M unit :=
  modify (λ w, set_tree {| nodes := nodes (tree w);
                           ends := ends (tree w) ++ [(node_ident node_, sp)] |} w).

(** *** The manager's dictionaries and list *)

(** [self.step_profiles[cruncher]] *)
Definition step_profiles_getitem (cruncher : cruncher_id) : M StepProfile :=
  w <- get ;;
  match step_profiles w !! cruncher with
  | Some sp => ret sp
  | None => raise KeyError
  end.

(** [self.step_profiles[cruncher] = sp] *)
Definition step_profiles_setitem (cruncher : cruncher_id) (sp : StepProfile)
    : M unit :=
  modify (λ w, set_step_profiles (<[cruncher := sp]> (step_profiles w)) w).

(** [self.crunchers[job] = cruncher] *)
Definition crunchers_setitem (job : job_id) (cruncher : cruncher_id) : M unit :=
  modify (λ w, set_crunchers (<[job := cruncher]> (crunchers w)) w).

(** [del self.crunchers[job]] *)
Definition crunchers_delitem (job : job_id) : M unit :=
  w <- get ;;
  match crunchers w !! job with
  | Some _ => modify (set_crunchers (delete job (crunchers w)))
  | None => raise KeyError
  end.

(** [list.remove]: drops the first occurrence. *)
Fixpoint list_remove (job : job_id) (l : list job_id) : option (list job_id) :=
  match l with
  | [] => None
  | x :: l' =>
      if bool_decide (x = job) then Some l'
      else cons x <$> list_remove job l'
  end.

(** [self.jobs.remove(job)] *)
Definition jobs_remove (job : job_id) : M unit :=
  w <- get ;;
  match list_remove job (jobs w) with
  | Some l => modify (set_jobs l)
  | None => raise ValueError
  end.

(** Modelled from the spec: [ChangeTracker.check_in] "reports whether the
    object has mutated since the last check-in by this tracker instance, and
    resets the tracked version".  An object never checked in before counts
    as changed. *)
Definition change_tracker_check_in (cp : CrunchingProfile) : M bool :=
  w <- get ;;
  let version := (clock_target cp, step_profile cp) in
  let previous := crunching_profiles_change_tracker w !! profile_ident cp in
  modify (set_change_tracker
    (<[profile_ident cp := version]> (crunching_profiles_change_tracker w))) ;;;
  ret (negb (bool_decide (previous = Some version))).

(** ** [CrunchingManager] *)

(** Modelled from the spec: the project handle, as far as [__init__] reads
    it: the tree and [simpack_grokker.available_cruncher_types]. *)
Record Project := {
  project_tree : Tree;
  available_cruncher_types : list cruncher_class
}.

(** [CrunchingManager.__init__]: [available_cruncher_types[0]], with
    [IndexError] turned into [GarlicSimException].  [jobs_] and [workers]
    are the objects that exist when the manager is built. *)
Definition CrunchingManager__init__ (project : Project)
    (jobs_ : job_id → Job) (workers : list Cruncher) : result world :=
  match available_cruncher_types project !! 0 with
  | Some first =>
      Ok {| jobs := [];
            crunchers := ∅;
            step_profiles := ∅;
            crunching_profiles_change_tracker := ∅;
            cruncher_type := first;
            tree := project_tree project;
            job_heap := jobs_;
            cruncher_heap := workers;
            calls := [] |}
  | None => Raise GarlicSimException
  end.

(** The [for thing in queue_tools.iterate(cruncher.work_queue)] loop of
    [__add_work_to_tree], over the items taken from the queue. *)
Fixpoint add_work_loop (cruncher : cruncher_id) (job : job_id)
    (things : list thing) (current : Node) (counter : nat) : M (nat * Node) :=
  match things with
  | [] => ret (counter, current)
  | ThingState st :: rest =>
      sp <- step_profiles_getitem cruncher ;;
      new_node <- tree_add_state st current sp ;;
      add_work_loop cruncher job rest new_node (counter + 1)
  | ThingEndMarker :: rest =>
      sp <- step_profiles_getitem cruncher ;;
      tree_make_end current sp ;;;
      job_set_resulted_in_end job ;;;
      add_work_loop cruncher job rest current counter
  | ThingStepProfile sp :: rest =>
      step_profiles_setitem cruncher sp ;;;
      add_work_loop cruncher job rest current counter
  | ThingOther thing_ :: _ =>
      match percent_s thing_ with
      | Ok text => raise (UnexpectedObject text)
      | Raise e => raise e
      end
  end.

Definition __add_work_to_tree (cruncher : cruncher_id) (job : job_id)
    (retire : bool) : M (nat * Node) :=
  j <- get_job job ;;
  let current := node j in
  _ <- step_profiles_getitem cruncher ;;
  things <- queue_iterate cruncher ;;
  '(counter, current) <- add_work_loop cruncher job things current 0 ;;
  j <- get_job job ;;
  (if retire || resulted_in_end j
   then cruncher_retire cruncher
   else ret tt) ;;;
  ret (counter, current).

Definition __conditional_create_cruncher (job : job_id) : M unit :=
  j <- get_job job ;;
  let node_ := node j in
  let crunching_profile_ := crunching_profile j in
  if negb (still_in_editing node_) then
    w <- get ;;
    cruncher <- cruncher_new (cruncher_type w) (state node_)
                  crunching_profile_ ;;
    cruncher_start cruncher ;;;
    crunchers_setitem job cruncher ;;;
    _ <- change_tracker_check_in crunching_profile_ ;;
    step_profiles_setitem cruncher (step_profile crunching_profile_)
  else
    ret tt.

(** The body of the first loop of [sync_crunchers], for one pair of
    [self.crunchers.copy().items()]. *)
Definition reap (job : job_id) (cruncher : cruncher_id)
    (total_added_nodes : nat) : M nat :=
  w <- get ;;
  if negb (bool_decide (job ∈ jobs w)) then
    '(added_nodes, new_leaf) <- __add_work_to_tree cruncher job true ;;
    crunchers_delitem job ;;;
    ret (total_added_nodes + added_nodes)
  else
    ret total_added_nodes.

Fixpoint reap_loop (items : list (job_id * cruncher_id))
    (total_added_nodes : nat) : M nat :=
  match items with
  | [] => ret total_added_nodes
  | (job, cruncher) :: rest =>
      total_added_nodes <- reap job cruncher total_added_nodes ;;
      reap_loop rest total_added_nodes
  end.

(** The body of the second loop of [sync_crunchers], for one job of
    [self.jobs[:]]. *)
Definition sync_job (job : job_id) (total_added_nodes : nat) : M nat :=
  w <- get ;;
  match crunchers w !! job with
  | None =>
      j <- get_job job ;;
      (if negb (is_done j)
       then __conditional_create_cruncher job
       else jobs_remove job) ;;;
      ret total_added_nodes
  | Some cruncher =>
      '(added_nodes, new_leaf) <- __add_work_to_tree cruncher job false ;;
      let total_added_nodes := total_added_nodes + added_nodes in
      job_set_node job new_leaf ;;;
      j <- get_job job ;;
      if negb (is_done j) then
        let crunching_profile_ := crunching_profile j in
        is_alive <- cruncher_is_alive cruncher ;;
        type_ <- cruncher_get_type cruncher ;;
        w <- get ;;
        if is_alive && bool_decide (type_ = cruncher_type w) then
          recorded <- step_profiles_getitem cruncher ;;
          if StepProfile__ne__ (step_profile crunching_profile_) recorded then
            is_alive <- cruncher_is_alive cruncher ;;
            (if is_alive then cruncher_retire cruncher else ret tt) ;;;
            __conditional_create_cruncher job ;;;
            ret total_added_nodes
          else
            changed <- change_tracker_check_in crunching_profile_ ;;
            if changed then
              cruncher_update_crunching_profile cruncher crunching_profile_ ;;;
              ret total_added_nodes
            else
              ret total_added_nodes
        else
          cruncher_retire cruncher ;;;
          __conditional_create_cruncher job ;;;
          ret total_added_nodes
      else
        jobs_remove job ;;;
        is_alive <- cruncher_is_alive cruncher ;;
        (if is_alive then cruncher_retire cruncher else ret tt) ;;;
        crunchers_delitem job ;;;
        ret total_added_nodes
  end.

Fixpoint sync_loop (todo : list job_id) (total_added_nodes : nat) : M nat :=
  match todo with
  | [] => ret total_added_nodes
  | job :: rest =>
      total_added_nodes <- sync_job job total_added_nodes ;;
      sync_loop rest total_added_nodes
  end.

Definition sync_crunchers : M nat :=
  let total_added_nodes := 0 in
  w <- get ;;
  total_added_nodes <- reap_loop (map_to_list (crunchers w)) total_added_nodes ;;
  w <- get ;;
  total_added_nodes <- sync_loop (jobs w) total_added_nodes ;;
  ret total_added_nodes.

(** ** Vocabulary for the statements *)

(** The three kinds of item the drain accepts. *)
Definition expected (th : thing) : bool :=
  match th with ThingOther _ => false | _ => true end.

(** What line 307 raises for a foreign item: the exception whose message
    holds the item's text, or what formatting the message raised. *)
Definition unexpected (o : foreign) : exn :=
  match percent_s o with
  | Ok text => UnexpectedObject text
  | Raise e => e
  end.

Definition is_end_marker (th : thing) : bool :=
  match th with ThingEndMarker => true | _ => false end.

(** A cruncher whose queue has been taken, and one ordered to retire. *)
Definition emptied (cr : Cruncher) : Cruncher :=
  {| cruncher_class_of := cruncher_class_of cr;
     initial_state := initial_state cr;
     cruncher_profile := cruncher_profile cr;
     alive := alive cr;
     retire_ordered := retire_ordered cr;
     work_queue := [] |}.

Definition ordered_to_retire (cr : Cruncher) : Cruncher :=
  {| cruncher_class_of := cruncher_class_of cr;
     initial_state := initial_state cr;
     cruncher_profile := cruncher_profile cr;
     alive := alive cr;
     retire_ordered := true;
     work_queue := work_queue cr |}.

(** The world after [cruncher.retire()] on a cruncher that exists. *)
Definition after_retire (c : cruncher_id) (cr : Cruncher) (w : world) : world :=
  set_calls (calls w ++ [CallRetire c])
    (set_cruncher_heap (<[c := ordered_to_retire cr]> (cruncher_heap w)) w).

(** The world after the items of [cr]'s queue have been taken. *)
Definition after_iterate (c : cruncher_id) (cr : Cruncher) (w : world) : world :=
  set_cruncher_heap (<[c := emptied cr]> (cruncher_heap w)) w.

(** The nodes that appending the states [sts] one under the other makes,
    the first under the node [parent_], when the tree already has [base]
    nodes and every state is tagged [sp]. *)
Fixpoint chain (sp : StepProfile) (base : nat) (parent_ : node_id)
    (sts : list State) : list Node :=
  match sts with
  | [] => []
  | st :: rest =>
      {| node_ident := base;
         state := st;
         parent := Some parent_;
         node_step_profile := Some sp;
         still_in_editing := false |} :: chain sp (S base) base rest
  end.

(** The cruncher that [__conditional_create_cruncher] makes for [job] and
    starts, and the world it leaves: the new cruncher in the next heap
    slot, recorded for the job, the crunching profile checked in, and its
    step profile recorded for the new cruncher. *)
Definition started_cruncher (job : job_id) (w : world) : Cruncher :=
  {| cruncher_class_of := cruncher_type w;
     initial_state := state (node (job_heap w job));
     cruncher_profile := crunching_profile (job_heap w job);
     alive := true;
     retire_ordered := false;
     work_queue := [] |}.

Definition after_create (job : job_id) (w : world) : world :=
  let cruncher := length (cruncher_heap w) in
  let cp := crunching_profile (job_heap w job) in
  {| jobs := jobs w;
     crunchers := <[job := cruncher]> (crunchers w);
     step_profiles := <[cruncher := step_profile cp]> (step_profiles w);
     crunching_profiles_change_tracker :=
       <[profile_ident cp := (clock_target cp, step_profile cp)]>
         (crunching_profiles_change_tracker w);
     cruncher_type := cruncher_type w;
     tree := tree w;
     job_heap := job_heap w;
     cruncher_heap := cruncher_heap w ++ [started_cruncher job w];
     calls := calls w ++ [CallStart cruncher] |}.

(** [job] with its node moved to [new_leaf]: the effect of
    [job.node = new_leaf]. *)
Definition with_node (new_leaf : Node) (j : Job) : Job :=
  {| node := new_leaf;
     crunching_profile := crunching_profile j;
     resulted_in_end := resulted_in_end j |}.

Definition after_set_node (job : job_id) (new_leaf : Node) (w : world) : world :=
  set_job_heap (<[job := with_node new_leaf (job_heap w job)]> (job_heap w)) w.

(** The world after [cruncher.update_crunching_profile(cp)] on a cruncher
    that exists. *)
Definition with_profile (cp : CrunchingProfile) (cr : Cruncher) : Cruncher :=
  {| cruncher_class_of := cruncher_class_of cr;
     initial_state := initial_state cr;
     cruncher_profile := cp;
     alive := alive cr;
     retire_ordered := retire_ordered cr;
     work_queue := work_queue cr |}.

Definition after_update (c : cruncher_id) (cr : Cruncher)
    (cp : CrunchingProfile) (w : world) : world :=
  set_calls (calls w ++ [CallUpdateCrunchingProfile c cp])
    (set_cruncher_heap (<[c := with_profile cp cr]> (cruncher_heap w)) w).

(** The world after [check_in(cp)]. *)
Definition after_check_in (cp : CrunchingProfile) (w : world) : world :=
  set_change_tracker
    (<[profile_ident cp := (clock_target cp, step_profile cp)]>
       (crunching_profiles_change_tracker w)) w.

(** What the manager may change while it deals with job [j], whose
    cruncher is [c]: other jobs and their entry in [crunchers] stay, the job
    object [j] stays, no recorded step profile is forgotten, other
    crunchers stay as they are, and no work queue is touched. *)
Definition job_frame (j : job_id) (c : cruncher_id) (w w' : world) : Prop :=
  (∀ j', j' ≠ j → crunchers w' !! j' = crunchers w !! j')
  ∧ (∀ j', j' ≠ j → job_heap w' j' = job_heap w j')
  ∧ job_heap w' j = job_heap w j
  ∧ (∀ c', is_Some (step_profiles w !! c') → is_Some (step_profiles w' !! c'))
  ∧ (∀ c' cr, cruncher_heap w !! c' = Some cr → c' ≠ c →
       cruncher_heap w' !! c' = Some cr)
  ∧ (∀ c' cr, cruncher_heap w !! c' = Some cr →
       ∃ cr', cruncher_heap w' !! c' = Some cr'
              ∧ work_queue cr' = work_queue cr).

(** Job [j] has nothing waiting: no cruncher, or one whose queue is empty. *)
Definition settled (j : job_id) (w : world) : Prop :=
  crunchers w !! j = None
  ∨ ∃ c cr, crunchers w !! j = Some c ∧ cruncher_heap w !! c = Some cr
            ∧ work_queue cr = [].

(** [get_jobs_by_node]: [[job for job in self.jobs if job.node == node]].
    Nodes are carried by value; two node values are equal exactly when they
    stand for the same node object. *)
Definition get_jobs_by_node (node_ : Node) : M (list job_id) :=
  w <- get ;;
  ret (filter (λ job, node (job_heap w job) = node_) (jobs w)).

(** ** Vocabulary for properties of whole runs *)

(** A computation that, whenever it returns, has established [Q] between
    the world before, the value returned and the world after. *)
Definition ensures {A} (m : M A) (Q : world → A → world → Prop) : Prop :=
  ∀ w a w', m w = Ok (a, w') → Q w a w'.

(** A cruncher as the manager may have left it: same class, liveness and
    starting state, an order to retire that was not withdrawn, a queue that
    was at most emptied. *)
Definition cruncher_kept (cr cr' : Cruncher) : Prop :=
  cruncher_class_of cr' = cruncher_class_of cr
  ∧ alive cr' = alive cr
  ∧ initial_state cr' = initial_state cr
  ∧ (retire_ordered cr = true → retire_ordered cr' = true)
  ∧ (work_queue cr' = work_queue cr ∨ work_queue cr' = []).

(** What the manager never undoes.  Between [w] and a later [w']: the
    cruncher type is the same; jobs have only been removed from the list;
    nodes, ends and calls have only been appended; every job has the
    crunching profile it had and a [resulted_in_end] flag that was not
    cleared; every cruncher is still there with its class, liveness and
    starting state, an order to retire that was not withdrawn and a queue
    that was at most emptied; no recorded step profile and no checked-in
    crunching profile was forgotten. *)
Definition grows (w w' : world) : Prop :=
  cruncher_type w' = cruncher_type w
  ∧ jobs w' `sublist_of` jobs w
  ∧ nodes (tree w) `prefix_of` nodes (tree w')
  ∧ ends (tree w) `prefix_of` ends (tree w')
  ∧ calls w `prefix_of` calls w'
  ∧ (∀ j, crunching_profile (job_heap w' j) = crunching_profile (job_heap w j)
          ∧ (resulted_in_end (job_heap w j) = true →
             resulted_in_end (job_heap w' j) = true))
  ∧ (∀ c cr, cruncher_heap w !! c = Some cr →
       ∃ cr', cruncher_heap w' !! c = Some cr' ∧ cruncher_kept cr cr')
  ∧ dom (step_profiles w) ⊆ dom (step_profiles w')
  ∧ dom (crunching_profiles_change_tracker w)
    ⊆ dom (crunching_profiles_change_tracker w').

(** The states and the end markers among queued items. *)
Definition states_of (things : list thing) : list State :=
  omap (λ th, match th with ThingState st => Some st | _ => None end) things.

Definition count_end_markers (things : list thing) : nat :=
  length (filter (λ th, is_end_marker th = true) things).

(** The step profile in effect after the items [things], starting from
    [sp]: the last step-profile item, if any. *)
Definition profile_after (sp : StepProfile) (things : list thing) : StepProfile :=
  foldl (λ acc th, match th with ThingStepProfile sp' => sp' | _ => acc end)
    sp things.

(** The version of a crunching profile that [check_in] compares. *)
Definition version_of (cp : CrunchingProfile) : clock_target_t * StepProfile :=
  (clock_target cp, step_profile cp).

(** What [__conditional_create_cruncher] leaves behind. *)
Definition after_cond_create (job : job_id) (w : world) : world :=
  if still_in_editing (node (job_heap w job)) then w else after_create job w.

(** Cruncher [c] has been dealt with for good: ordered to retire, with
    nothing left in its queue. *)
Definition reaped (c : cruncher_id) (w : world) : Prop :=
  (∃ cr, cruncher_heap w !! c = Some cr
         ∧ retire_ordered cr = true ∧ work_queue cr = [])
  ∧ CallRetire c ∈ calls w.

(** Two worlds that hold the same things (job objects compared one by
    one). *)
Definition same_world (w w' : world) : Prop :=
  jobs w' = jobs w
  ∧ crunchers w' = crunchers w
  ∧ step_profiles w' = step_profiles w
  ∧ crunching_profiles_change_tracker w' = crunching_profiles_change_tracker w
  ∧ cruncher_type w' = cruncher_type w
  ∧ tree w' = tree w
  ∧ (∀ j, job_heap w' j = job_heap w j)
  ∧ cruncher_heap w' = cruncher_heap w
  ∧ calls w' = calls w.

(** A job the manager has nothing to do for: it is not done, and either it
    has no cruncher and its node is still in editing, or its cruncher is
    running, of the current type, has produced nothing, works with the
    job's step profile, and the job's crunching profile is as it was last
    checked in. *)
Definition idle (j : job_id) (w : world) : Prop :=
  is_done (job_heap w j) = false
  ∧ ((crunchers w !! j = None
      ∧ still_in_editing (node (job_heap w j)) = true)
     ∨ ∃ c cr,
         crunchers w !! j = Some c
         ∧ cruncher_heap w !! c = Some cr
         ∧ work_queue cr = []
         ∧ alive cr = true
         ∧ cruncher_class_of cr = cruncher_type w
         ∧ step_profiles w !! c
           = Some (step_profile (crunching_profile (job_heap w j)))
         ∧ crunching_profiles_change_tracker w
             !! profile_ident (crunching_profile (job_heap w j))
           = Some (version_of (crunching_profile (job_heap w j)))).

(** ** The rest of [garlicsim/misc/step_profile.py] *)

(** [None]; [isinstance(thing, tuple)], with [len(thing)];
    [get_step_type(thing)] of [garlicsim.misc.simpack_grokker], which
    raises unless [thing] is a step function (its result is not used here:
    what is kept of a successful call is the reference to the function that
    was passed); [cute_inspect.getargspec(f).args]. *)
Variable PyNone : pyobj.
Variable isinstance_tuple : pyobj → option nat.
Variable get_step_type : pyobj → result function_ref.
Variable getargspec_args : function_ref → list string.

(** [StepProfile.build_parser(default_step_function)]: the function
    [parse_arguments_to_step_profile] it returns, applied to positional
    and keyword arguments. *)
Definition parse_arguments_to_step_profile
    (default_step_function : function_ref)
    (args_ : list pyobj) (kwargs_ : gmap string pyobj) : result StepProfile :=
  match kwargs_ !! "step_function"%string with
  | Some step_function_ =>
      let kwargs_copy := delete "step_function"%string kwargs_ in
      match get_step_type step_function_ with
      | Raise e => Raise e
      | Ok f => StepProfile__init__ f args_ kwargs_copy
      end
  | None =>
      match kwargs_ !! "step_profile"%string with
      | Some step_profile_ =>
          if bool_decide (step_profile_ = PyNone)
          then StepProfile__init__ default_step_function [] ∅
          else match isinstance_StepProfile step_profile_ with
               | None =>
                   (* raise GarlicSimException("You passed in %s ..."
                        % step_profile): a tuple on the right of [%] is
                      the tuple of all arguments *)
                   match isinstance_tuple step_profile_ with
                   | Some len =>
                       if bool_decide (len = 1)
                       then Raise GarlicSimException
                       else Raise TypeError
                   | None => Raise GarlicSimException
                   end
               | Some sp => Ok sp
               end
      | None =>
          match args_ with
          | candidate :: args_copy =>
              match isinstance_StepProfile candidate with
              | Some sp => Ok sp
              | None =>
                  match get_step_type candidate with
                  | Raise _ =>
                      StepProfile__init__ default_step_function args_ kwargs_
                  | Ok _ =>
                      StepProfile__init__ default_step_function args_copy
                        kwargs_
                  end
              end
          | [] => StepProfile__init__ default_step_function args_ kwargs_
          end
      end
  end.

Definition build_parser (default_step_function : function_ref)
    : list pyobj → gmap string pyobj → result StepProfile :=
  parse_arguments_to_step_profile default_step_function.

(** [StepProfile.create_from_dld_format]: the values of the declared
    arguments after the first are looked up by name, in the declared
    order; a missing name is a [KeyError]. *)
Definition create_from_dld_format
    (step_function_ : function_ref) (args_dict : gmap string pyobj)
    (star_args_list : list pyobj) (star_kwargs_dict : gmap string pyobj)
    : result StepProfile :=
  let args_spec := getargspec_args step_function_ in
  match mapM (λ name, args_dict !! name) (drop 1 args_spec) with
  | None => Raise KeyError
  | Some values =>
      let new_args := values ++ star_args_list in
      StepProfile__init__ step_function_ new_args star_kwargs_dict
  end.

(** The crunchers that [start] was called on, in the order of the calls. *)
Definition started (cs : list call) : list cruncher_id :=
  omap (λ x, match x with CallStart c => Some c | _ => None end) cs.

(** From [w] to [w'], calls were only added, and [start] was called on
    exactly the cruncher objects made in between, once each, in the order
    they were made. *)
Definition starts_the_new (w w' : world) : Prop :=
  ∃ made,
    calls w' = calls w ++ made
    ∧ started made
      = seq (length (cruncher_heap w))
            (length (cruncher_heap w') - length (cruncher_heap w))
    ∧ length (cruncher_heap w) ≤ length (cruncher_heap w').

(** Cruncher [c] can be drained: a step profile is recorded for it and its
    queue holds only states, end markers and step profiles. *)
Definition drainable (c : cruncher_id) (w : world) : Prop :=
  is_Some (step_profiles w !! c)
  ∧ ∃ cr, cruncher_heap w !! c = Some cr
          ∧ Forall (λ th, expected th = true) (work_queue cr).

(** Every cruncher the manager keeps for a job can be drained. *)
Definition well_formed (w : world) : Prop :=
  ∀ j c, crunchers w !! j = Some c → drainable c w.

(** Cruncher [c], which is [cr], is the only tracked cruncher that cannot
    be drained for what its queue holds: it has a recorded step profile,
    and every other tracked cruncher can be drained. *)
Definition only_obstacle (c : cruncher_id) (cr : Cruncher) (w : world) : Prop :=
  cruncher_heap w !! c = Some cr
  ∧ is_Some (step_profiles w !! c)
  ∧ ∀ j' c', crunchers w !! j' = Some c' → c' ≠ c → drainable c' w.

End garlicsim.

(** * A concrete universe of objects

    Used for the examples: atoms, the placeholder class, and step-profile
    objects whose own arguments are atoms. *)

Inductive atom :=
  | AInt (z : Z)
  | AStr (s : string).

Inductive obj :=
  | PyAtom (a : atom)
  | PyStatePlaceholder
  | PyStepProfile (f : function_ref) (a : list atom) (k : gmap string atom).

Global Instance atom_eq_dec : EqDecision atom.
Proof. solve_decision. Defined.
Global Instance obj_eq_dec : EqDecision obj.
Proof. solve_decision. Defined.

Definition obj_isinstance_StepProfile (o : obj) : option (@StepProfile obj) :=
  match o with
  | PyStepProfile f a k =>
      Some {| step_function := f; args := PyAtom <$> a; kwargs := PyAtom <$> k |}
  | _ => None
  end.

(** ** Sample objects and worlds *)

Definition sp_plain : @StepProfile obj :=
  {| step_function := "step"; args := []; kwargs := ∅ |}.

Definition sp_fast : @StepProfile obj :=
  {| step_function := "step"; args := [PyAtom (AInt 2)]; kwargs := ∅ |}.

Definition state_at (t : Z) : State := {| clock := t; world_data := 0 |}.

Definition root_node (editing : bool) : @Node obj :=
  {| node_ident := 0;
     state := state_at 0;
     parent := None;
     node_step_profile := None;
     still_in_editing := editing |}.

Definition sample_profile (target : clock_target_t) (sp : @StepProfile obj)
    : @CrunchingProfile obj :=
  {| profile_ident := 0; clock_target := target; step_profile := sp |}.

Definition sample_job (editing ended : bool) (target : clock_target_t)
    (sp : @StepProfile obj) : @Job obj :=
  {| node := root_node editing;
     crunching_profile := sample_profile target sp;
     resulted_in_end := ended |}.

Definition sample_cruncher (queue : list (@thing obj)) : @Cruncher obj :=
  {| cruncher_class_of := "ThreadCruncher";
     initial_state := state_at 0;
     cruncher_profile := sample_profile Infinity sp_plain;
     alive := true;
     retire_ordered := false;
     work_queue := queue |}.

(** One job (number 0) on the root node, one running thread cruncher
    (number 0) with [sp_plain] recorded for it; [assigned] says whether the
    cruncher is the job's. *)
Definition sample_world (assigned : bool) (job : @Job obj)
    (queue : list (@thing obj)) : @world obj :=
  {| jobs := [0];
     crunchers := if assigned then {[0 := 0]} else ∅;
     step_profiles := {[0 := sp_plain]};
     crunching_profiles_change_tracker := ∅;
     cruncher_type := "ThreadCruncher";
     tree := {| nodes := [node job]; ends := [] |};
     job_heap := λ _, job;
     cruncher_heap := [sample_cruncher queue];
     calls := [] |}.

(** A running job that produced two states. *)
Definition world_two_states : @world obj :=
  sample_world true (sample_job false false Infinity sp_plain)
    [ThingState (state_at 1); ThingState (state_at 2)].

(** A running job whose cruncher reached the end of the simulation. *)
Definition world_end_marker : @world obj :=
  sample_world true (sample_job false false Infinity sp_plain)
    [ThingState (state_at 1); ThingEndMarker].

(** A job that had resulted in an end before, with nothing queued. *)
Definition world_ended_before : @world obj :=
  sample_world true (sample_job false true Infinity sp_plain) [].

(** The owner changed the job's step profile to [sp_fast]. *)
Definition world_profile_changed : @world obj :=
  sample_world true (sample_job false false Infinity sp_fast) [].



(** A job that has reached its clock target. *)
Definition world_target_reached : @world obj :=
  sample_world true (sample_job false false (Finite 0) sp_plain) [].

(** A job without a cruncher whose node is still in editing. *)
Definition world_waiting_for_edit : @world obj :=
  sample_world false (sample_job true false Infinity sp_plain) [].

(** A cruncher that put something foreign in its queue. *)
Definition world_foreign_item : @world obj :=
  sample_world true (sample_job false false Infinity sp_plain)
    [ThingState (state_at 1); ThingOther (Plain "junk")].

(** A cruncher that put the tuple [(1, 2)] in its queue. *)
Definition world_tuple_item : @world obj :=
  sample_world true (sample_job false false Infinity sp_plain)
    [ThingState (state_at 1); ThingOther (Tuple ["1"; "2"]%string)].

(** Keyword arguments [step_profile=5], and [step_profile=p] for [p] the
    step profile object built from [step_profile=5]. *)
Definition kwargs_five : gmap string obj :=
  <["step_profile"%string := PyAtom (AInt 5)]> ∅.

Definition profile_object_five : obj :=
  PyStepProfile "step" [] (<["step_profile"%string := AInt 5]> ∅).

Definition kwargs_profile : gmap string obj :=
  <["step_profile"%string := profile_object_five]> ∅.

Definition kwargs_six : gmap string obj :=
  <["step_profile"%string := PyAtom (AInt 6)]> ∅.

(** A running job with nothing queued, whose crunching profile has not
    been checked in yet. *)
Definition world_running : @world obj :=
  sample_world true (sample_job false false Infinity sp_plain) [].

(** The same once the profile has been checked in: nothing is left to do. *)
Definition world_idle : @world obj :=
  set_change_tracker {[0 := (Infinity, sp_plain)]} world_running.

(** A running job whose cruncher has died. *)
Definition dead_cruncher : @Cruncher obj :=
  {| cruncher_class_of := "ThreadCruncher";
     initial_state := state_at 0;
     cruncher_profile := sample_profile Infinity sp_plain;
     alive := false;
     retire_ordered := false;
     work_queue := [] |}.

Definition world_cruncher_died : @world obj :=
  set_cruncher_heap [dead_cruncher] world_running.

(** A job that was taken off the job list while its cruncher had produced
    two states. *)
Definition world_cancelled : @world obj :=
  set_jobs [] world_two_states.

(** ** What can be passed to the argument parser

    [None], a step function, a tuple of the objects above, or one of those
    objects. *)

Inductive arg :=
  | ArgNone
  | ArgFunction (f : function_ref)
  | ArgTuple (items : list obj)
  | ArgObject (o : obj).

Global Instance arg_eq_dec : EqDecision arg.
Proof. solve_decision. Defined.

Definition arg_isinstance_StepProfile (a : arg) : option (@StepProfile arg) :=
  match a with
  | ArgObject (PyStepProfile f a k) =>
      Some {| step_function := f;
              args := (λ x, ArgObject (PyAtom x)) <$> a;
              kwargs := (λ x, ArgObject (PyAtom x)) <$> k |}
  | _ => None
  end.

Definition arg_isinstance_tuple (a : arg) : option nat :=
  match a with
  | ArgTuple items => Some (length items)
  | _ => None
  end.

(** A [get_step_type] that accepts functions and nothing else. *)
Definition arg_get_step_type (a : arg) : result function_ref :=
  match a with
  | ArgFunction f => Ok f
  | _ => Raise GarlicSimException
  end.

(** Every sample step function is declared as [step(state, t, dt)]. *)
Definition sample_getargspec_args (f : function_ref) : list string :=
  ["state"; "t"; "dt"]%string.

Definition sample_parser
    : list arg → gmap string arg → result (@StepProfile arg) :=
  build_parser arg_isinstance_StepProfile (ArgObject PyStatePlaceholder)
    ArgNone arg_isinstance_tuple arg_get_step_type "step".

(** The step profile object [StepProfile(step, 2)]. *)
Definition profile_object_fast : arg :=
  ArgObject (PyStepProfile "step" [AInt 2] ∅).

Definition sp_fast_arg : @StepProfile arg :=
  {| step_function := "step";
     args := [ArgObject (PyAtom (AInt 2))];
     kwargs := ∅ |}.

(** * Properties *)

Section properties.

Context {pyobj : Type} `{!EqDecision pyobj}.

Implicit Types (w : @world pyobj) (sp : @StepProfile pyobj).

(** ** Reasoning in the monad *)

Lemma bind_Ok_inv {A B} (m : @M pyobj A) (k : A → M B) w b w2 :
  bind m k w = Ok (b, w2) →
  ∃ a w1, m w = Ok (a, w1) ∧ k a w1 = Ok (b, w2).
Proof.
  unfold bind. destruct (m w) as [[a w1]|e]; [eauto | discriminate].
Qed.

Lemma bind_Ok {A B} (m : @M pyobj A) (k : A → M B) w a w1 :
  m w = Ok (a, w1) → bind m k w = k a w1.
Proof. unfold bind. by intros ->. Qed.

Lemma bind_Raise {A B} (m : @M pyobj A) (k : A → M B) w e :
  m w = Raise e → bind m k w = Raise e.
Proof. unfold bind. by intros ->. Qed.

(** Projections of explicitly built worlds and objects. *)
Ltac simpl_world :=
  cbv [jobs crunchers step_profiles crunching_profiles_change_tracker
       cruncher_type tree job_heap cruncher_heap calls
       set_jobs set_crunchers set_step_profiles set_change_tracker set_tree
       set_job_heap set_cruncher_heap set_calls
       cruncher_class_of initial_state cruncher_profile alive retire_ordered
       work_queue node crunching_profile resulted_in_end nodes ends
       after_retire after_iterate after_create emptied ordered_to_retire
       started_cruncher].

Ltac simpl_proj :=
  cbn [jobs crunchers step_profiles crunching_profiles_change_tracker
       cruncher_type tree job_heap cruncher_heap calls
       set_jobs set_crunchers set_step_profiles set_change_tracker set_tree
       set_job_heap set_cruncher_heap set_calls after_retire after_iterate
       after_create after_set_node after_update after_check_in].

Ltac simpl_world_in H :=
  cbn [jobs crunchers step_profiles crunching_profiles_change_tracker
       cruncher_type tree job_heap cruncher_heap calls
       set_jobs set_crunchers set_step_profiles set_change_tracker set_tree
       set_job_heap set_cruncher_heap set_calls after_retire after_iterate
       after_create after_set_node] in H.

(** ** The drain loop *)

Lemma add_work_loop_app c j xs ys (cur : @Node pyobj) n w :
  add_work_loop c j (xs ++ ys) cur n w =
  match add_work_loop c j xs cur n w with
  | Ok ((n', cur'), w') => add_work_loop c j ys cur' n' w'
  | Raise e => Raise e
  end.
Proof.
  revert cur n w. induction xs as [|x xs IH]; intros cur n w.
  - reflexivity.
  - destruct x as [st| |sp|r]; cbn [app add_work_loop].
    + destruct (step_profiles_getitem c w) as [[sp w1]|e] eqn:E1;
        [rewrite !(bind_Ok _ _ _ _ _ E1) | by rewrite !(bind_Raise _ _ _ _ E1)].
      destruct (tree_add_state st cur sp w1) as [[nn w2]|e] eqn:E2;
        [rewrite !(bind_Ok _ _ _ _ _ E2) | by rewrite !(bind_Raise _ _ _ _ E2)].
      apply IH.
    + destruct (step_profiles_getitem c w) as [[sp w1]|e] eqn:E1;
        [rewrite !(bind_Ok _ _ _ _ _ E1) | by rewrite !(bind_Raise _ _ _ _ E1)].
      destruct (tree_make_end cur sp w1) as [[[] w2]|e] eqn:E2;
        [rewrite !(bind_Ok _ _ _ _ _ E2) | by rewrite !(bind_Raise _ _ _ _ E2)].
      destruct (job_set_resulted_in_end j w2) as [[[] w3]|e] eqn:E3;
        [rewrite !(bind_Ok _ _ _ _ _ E3) | by rewrite !(bind_Raise _ _ _ _ E3)].
      apply IH.
    + destruct (step_profiles_setitem c sp w) as [[[] w1]|e] eqn:E1;
        [rewrite !(bind_Ok _ _ _ _ _ E1) | by rewrite !(bind_Raise _ _ _ _ E1)].
      apply IH.
    + by destruct (percent_s r).
Qed.

(** What a completed run of the loop may have changed: the step profile
    recorded for [c], the flag of [j], and the tree, which only grows. *)
Lemma add_work_loop_frame c j things :
  ∀ (cur : @Node pyobj) n w n' cur' w',
  add_work_loop c j things cur n w = Ok ((n', cur'), w') →
  jobs w' = jobs w ∧ crunchers w' = crunchers w
  ∧ crunching_profiles_change_tracker w' = crunching_profiles_change_tracker w
  ∧ cruncher_type w' = cruncher_type w
  ∧ cruncher_heap w' = cruncher_heap w
  ∧ calls w' = calls w
  ∧ (∀ c', c' ≠ c → step_profiles w' !! c' = step_profiles w !! c')
  ∧ (is_Some (step_profiles w !! c) → is_Some (step_profiles w' !! c))
  ∧ (∀ j', j' ≠ j → job_heap w' j' = job_heap w j')
  ∧ node (job_heap w' j) = node (job_heap w j)
  ∧ crunching_profile (job_heap w' j) = crunching_profile (job_heap w j)
  ∧ resulted_in_end (job_heap w' j)
    = resulted_in_end (job_heap w j) || existsb is_end_marker things
  ∧ (∃ added, nodes (tree w') = nodes (tree w) ++ added)
  ∧ (∃ made, ends (tree w') = ends (tree w) ++ made)
  ∧ Forall (λ th, expected th = true) things.
Proof.
  induction things as [|x things IH]; intros cur n w n' cur' w' H.
  - cbn in H. injection H as <- <- <-.
    rewrite orb_false_r. repeat split; eauto; by exists []; rewrite app_nil_r.
  - destruct x as [st| |sp|r]; cbn [add_work_loop] in H.
    + apply bind_Ok_inv in H as (sp & w1 & H1 & H).
      apply bind_Ok_inv in H as (nn & w2 & H2 & H).
      apply IH in H.
      unfold step_profiles_getitem, bind, get, ret, raise in H1.
      destruct (step_profiles w !! c) eqn:Hsp; [|done]. injection H1 as <- <-.
      cbv [tree_add_state bind get modify ret] in H2. injection H2 as <- <-.
      cbn in H. destruct H as (?&?&?&?&?&?&?&?&?&?&?&?&[added ?]&?&?).
      repeat split; eauto.
      exists (({| node_ident := length (nodes (tree w)); state := st;
                  parent := Some (node_ident cur);
                  node_step_profile := Some s;
                  still_in_editing := false |}) :: added).
      by rewrite cons_middle, app_assoc.
    + apply bind_Ok_inv in H as (sp & w1 & H1 & H).
      apply bind_Ok_inv in H as ([] & w2 & H2 & H).
      apply bind_Ok_inv in H as ([] & w3 & H3 & H).
      apply IH in H.
      unfold step_profiles_getitem, bind, get, ret, raise in H1.
      destruct (step_profiles w !! c) eqn:Hsp; [|done]. injection H1 as <- <-.
      cbv [tree_make_end modify] in H2. injection H2 as <-.
      cbv [job_set_resulted_in_end get_job set_job bind get modify ret] in H3.
      injection H3 as <-.
      cbn in H. destruct H as (?&?&?&?&?&?&?&?&Hj&Hn&Hc&Hr&?&[made ?]&?).
      rewrite fn_lookup_insert in Hn, Hc, Hr. cbn in Hn, Hc, Hr.
      repeat split; eauto.
      * intros j' Hj'. rewrite Hj by done. by rewrite fn_lookup_insert_ne.
      * rewrite Hr. cbn. by rewrite orb_true_r.
      * exists ((node_ident cur, s) :: made). by rewrite cons_middle, app_assoc.
    + apply bind_Ok_inv in H as ([] & w1 & H1 & H).
      apply IH in H.
      cbv [step_profiles_setitem modify] in H1. injection H1 as <-.
      cbn in H. destruct H as (?&?&?&?&?&?&Hc'&Hc&?&?&?&?&?&?&?).
      repeat split; eauto.
      * intros c' Hne. rewrite Hc' by done. by rewrite lookup_insert_ne.
      * intros _. apply Hc. rewrite lookup_insert_eq. eauto.
    + by destruct (percent_s r).
Qed.

(** ** [__add_work_to_tree] *)

Lemma cruncher_retire_eq c w :
  cruncher_retire c w =
  match cruncher_heap w !! c with
  | Some cr => Ok (tt, after_retire c cr w)
  | None => Raise DanglingReference
  end.
Proof.
  unfold cruncher_retire, get_cruncher, bind, get, ret.
  by destruct (cruncher_heap w !! c).
Qed.

(** The drain, unfolded: the two look-ups that can fail, the loop over the
    items taken, the conditional retirement. *)
Lemma add_work_to_tree_eq c j retire w :
  __add_work_to_tree c j retire w =
  match step_profiles w !! c with
  | None => Raise KeyError
  | Some _ =>
    match cruncher_heap w !! c with
    | None => Raise DanglingReference
    | Some cr =>
      match add_work_loop c j (work_queue cr) (node (job_heap w j)) 0
              (after_iterate c cr w) with
      | Ok ((n, cur), w1) =>
          if retire || resulted_in_end (job_heap w1 j)
          then match cruncher_heap w1 !! c with
               | Some cr1 => Ok ((n, cur), after_retire c cr1 w1)
               | None => Raise DanglingReference
               end
          else Ok ((n, cur), w1)
      | Raise e => Raise e
      end
    end
  end.
Proof.
  unfold __add_work_to_tree, get_job, queue_iterate, get_cruncher,
    step_profiles_getitem.
  unfold bind at 1. unfold bind at 1. cbn [get ret].
  unfold bind at 1. unfold bind at 1. cbn [get].
  destruct (step_profiles w !! c) as [sp0|]; [|done]. cbn [ret].
  unfold bind at 1. unfold bind at 1. unfold bind at 1. cbn [get].
  destruct (cruncher_heap w !! c) as [cr|]; [|done]. cbn [ret].
  unfold bind at 1. cbn [set_cruncher modify ret].
  fold (emptied cr). fold (after_iterate c cr w).
  unfold bind at 1.
  destruct (add_work_loop _ _ _ _ _ _) as [[[n cur] w1]|e]; [|done].
  unfold bind at 1. unfold bind at 1. cbn [get ret].
  unfold bind at 1.
  destruct (retire || resulted_in_end (job_heap w1 j)); [|done].
  rewrite cruncher_retire_eq. by destruct (cruncher_heap w1 !! c).
Qed.

Lemma chain_length sp base p sts :
  length (chain (pyobj:=pyobj) sp base p sts) = length sts.
Proof. revert base p. induction sts; intros; cbn; auto. Qed.

Lemma chain_lookup sp sts : ∀ base p i,
  chain (pyobj:=pyobj) sp base p sts !! i =
  (λ st, {| node_ident := base + i;
            state := st;
            parent := Some (match i with 0 => p | S i' => base + i' end);
            node_step_profile := Some sp;
            still_in_editing := false |}) <$> sts !! i.
Proof.
  induction sts as [|st sts IH]; intros base p i; [done|].
  destruct i as [|i]; cbn.
  - by rewrite Nat.add_0_r.
  - rewrite IH. destruct (sts !! i); cbn; [|done].
    do 2 f_equal; [lia|]. destruct i; f_equal; lia.
Qed.

Lemma default_last_cons {A} (a x : A) l :
  default a (last (x :: l)) = default x (last l).
Proof. rewrite last_cons. by destruct (last l). Qed.

Lemma add_work_loop_states c j sp sts : ∀ (cur : @Node pyobj) n w,
  step_profiles w !! c = Some sp →
  add_work_loop c j (ThingState <$> sts) cur n w =
  Ok ((n + length sts,
       default cur (last (chain sp (length (nodes (tree w))) (node_ident cur) sts))),
      set_tree {| nodes := nodes (tree w)
                    ++ chain sp (length (nodes (tree w))) (node_ident cur) sts;
                  ends := ends (tree w) |} w).
Proof.
  induction sts as [|st sts IH]; intros cur n w Hsp.
  - cbn. rewrite app_nil_r, Nat.add_0_r. do 2 f_equal.
    destruct w as [? ? ? ? ? [? ?] ? ? ?]; reflexivity.
  - cbn [fmap list_fmap add_work_loop].
    unfold step_profiles_getitem at 1. unfold bind at 1. unfold bind at 1.
    cbn [get]. rewrite Hsp. cbn [ret].
    unfold bind at 1. cbn [tree_add_state bind get modify ret].
    rewrite IH by done. cbn [tree set_tree nodes ends chain length].
    rewrite length_app. cbn [length].
    replace (length (nodes (tree w)) + 1) with (S (length (nodes (tree w)))) by lia.
    rewrite <- app_assoc. cbn [app].
    cbn [node_ident]. f_equal. f_equal. f_equal.
    + lia.
    + by rewrite default_last_cons.
Qed.

(** C1.  Draining a queue that holds exactly the states [sts], for a
    cruncher whose recorded step profile is [sp], returns
    [(length sts, new_leaf)] and appends [length sts] nodes to the tree:
    the [i]-th added node holds the [i]-th state, is tagged [sp], and is a
    child of the node added before it, the first one of the job's node;
    [new_leaf] is the last node added (the job's node when there is none). *)
Theorem add_work_to_tree_states w c j retire cr (sts : list State) sp :
  cruncher_heap w !! c = Some cr →
  work_queue cr = ThingState <$> sts →
  step_profiles w !! c = Some sp →
  ∃ new_leaf w' added,
    __add_work_to_tree c j retire w = Ok ((length sts, new_leaf), w')
    ∧ nodes (tree w') = nodes (tree w) ++ added
    ∧ length added = length sts
    ∧ new_leaf = default (node (job_heap w j)) (last added)
    ∧ (∀ i st, sts !! i = Some st →
        added !! i =
        Some {| node_ident := length (nodes (tree w)) + i;
                state := st;
                parent := Some (match i with
                                | 0 => node_ident (node (job_heap w j))
                                | S i' => length (nodes (tree w)) + i'
                                end);
                node_step_profile := Some sp;
                still_in_editing := false |})
    ∧ ends (tree w') = ends (tree w).
Proof.
  intros Hcr Hq Hsp.
  set (added := chain sp (length (nodes (tree w)))
                  (node_ident (node (job_heap w j))) sts).
  assert (Hloop := add_work_loop_states c j sp sts (node (job_heap w j)) 0
                     (after_iterate c cr w) Hsp).
  cbn [after_iterate set_cruncher_heap tree job_heap] in Hloop.
  fold added in Hloop.
  set (w1 := set_tree {| nodes := nodes (tree w) ++ added;
                         ends := ends (tree w) |} (after_iterate c cr w)).
  exists (default (node (job_heap w j)) (last added)),
    (if retire || resulted_in_end (job_heap w j)
     then after_retire c (emptied cr) w1 else w1), added.
  split; [|split; [|split; [|split; [|split]]]].
  - rewrite add_work_to_tree_eq, Hsp, Hcr, Hq, Hloop.
    replace (cruncher_heap (after_iterate c cr w) !! c) with (Some (emptied cr))
      by (symmetry; apply list_lookup_insert_eq; by eapply lookup_lt_Some).
    change (job_heap (set_tree _ (after_iterate c cr w)) j) with (job_heap w j).
    by destruct (retire || resulted_in_end (job_heap w j)).
  - by destruct (retire || resulted_in_end (job_heap w j)).
  - apply chain_length.
  - reflexivity.
  - intros i st Hi. unfold added. by rewrite chain_lookup, Hi.
  - by destruct (retire || resulted_in_end (job_heap w j)).
Qed.

(** The loop runs to its end on expected items, once a step profile is
    recorded for the cruncher. *)
Lemma add_work_loop_total c j things :
  Forall (λ th, expected (pyobj:=pyobj) th = true) things →
  ∀ cur n w, is_Some (step_profiles w !! c) →
  ∃ n' cur' w', add_work_loop c j things cur n w = Ok ((n', cur'), w').
Proof.
  induction 1 as [|x things Hx _ IH]; intros cur n w [sp Hsp].
  - cbn. eauto.
  - destruct x as [st| |sp'|r]; cbn [add_work_loop]; [| | |done].
    + unfold step_profiles_getitem at 1. unfold bind at 1. unfold bind at 1.
      cbn [get]. rewrite Hsp. cbn [ret]. unfold bind at 1.
      cbn [tree_add_state bind get modify ret]. apply IH. cbn. eauto.
    + unfold step_profiles_getitem at 1. unfold bind at 1. unfold bind at 1.
      cbn [get]. rewrite Hsp. cbn [ret]. unfold bind at 1.
      cbn [tree_make_end modify]. unfold bind at 1.
      cbn [job_set_resulted_in_end get_job set_job bind get modify ret].
      apply IH. cbn. eauto.
    + unfold bind at 1. cbn [step_profiles_setitem modify].
      apply IH. cbn. rewrite lookup_insert_eq. eauto.
Qed.

(** An item that is not expected stops the loop with what line 307 raises
    for it, whatever comes after it. *)
Lemma add_work_loop_unexpected c j pre o post :
  Forall (λ th, expected (pyobj:=pyobj) th = true) pre →
  ∀ cur n w, is_Some (step_profiles w !! c) →
  add_work_loop c j (pre ++ ThingOther o :: post) cur n w
  = Raise (unexpected o).
Proof.
  intros Hpre cur n w Hsp. rewrite add_work_loop_app.
  destruct (add_work_loop_total c j pre Hpre cur n w Hsp) as (n'&cur'&w'&->).
  cbn [add_work_loop]. unfold unexpected. by destruct (percent_s o).
Qed.

Lemma add_work_to_tree_Ok_inv c j retire w n (cur : @Node pyobj) w' :
  __add_work_to_tree c j retire w = Ok ((n, cur), w') →
  ∃ cr w1,
    is_Some (step_profiles w !! c)
    ∧ cruncher_heap w !! c = Some cr
    ∧ add_work_loop c j (work_queue cr) (node (job_heap w j)) 0
        (after_iterate c cr w) = Ok ((n, cur), w1)
    ∧ w' = if retire || resulted_in_end (job_heap w1 j)
           then after_retire c (emptied cr) w1 else w1.
Proof.
  rewrite add_work_to_tree_eq.
  destruct (step_profiles w !! c) as [sp|] eqn:Hsp; [|done].
  destruct (cruncher_heap w !! c) as [cr|] eqn:Hcr; [|done].
  destruct (add_work_loop _ _ _ _ _ _) as [[[n1 cur1] w1]|e] eqn:Hloop; [|done].
  assert (cruncher_heap w1 !! c = Some (emptied cr)) as Hcr1.
  { apply add_work_loop_frame in Hloop as (_&_&_&_&->&_).
    apply list_lookup_insert_eq. by eapply lookup_lt_Some. }
  rewrite Hcr1. intros H. exists cr, w1.
  destruct (retire || resulted_in_end (job_heap w1 j));
    injection H as <- <- <-; eauto.
Qed.

Lemma add_work_to_tree_total c j retire w cr :
  cruncher_heap w !! c = Some cr →
  is_Some (step_profiles w !! c) →
  Forall (λ th, expected (pyobj:=pyobj) th = true) (work_queue cr) →
  ∃ n cur w1,
    add_work_loop c j (work_queue cr) (node (job_heap w j)) 0
      (after_iterate c cr w) = Ok ((n, cur), w1)
    ∧ __add_work_to_tree c j retire w =
      Ok ((n, cur), if retire || resulted_in_end (job_heap w1 j)
                    then after_retire c (emptied cr) w1 else w1).
Proof.
  intros Hcr [sp Hsp] Hq.
  destruct (add_work_loop_total c j _ Hq (node (job_heap w j)) 0
              (after_iterate c cr w)) as (n&cur&w1&Hloop); [cbn; eauto|].
  exists n, cur, w1. split; [done|].
  rewrite add_work_to_tree_eq, Hsp, Hcr, Hloop.
  assert (cruncher_heap w1 !! c = Some (emptied cr)) as ->.
  { apply add_work_loop_frame in Hloop as (_&_&_&_&->&_).
    apply list_lookup_insert_eq. by eapply lookup_lt_Some. }
  by destruct (retire || resulted_in_end (job_heap w1 j)).
Qed.

(** C4.  When the queue holds an end marker (after the items [pre]), a
    drain that was not asked to retire still retires the cruncher as its
    last act, sets [resulted_in_end] on the job, and has made an end at the
    node that was current when the marker was met, tagged with the step
    profile recorded for the cruncher at that point. *)
Theorem add_work_to_tree_end_marker w c j cr pre post :
  cruncher_heap w !! c = Some cr →
  work_queue cr = pre ++ ThingEndMarker :: post →
  is_Some (step_profiles w !! c) →
  Forall (λ th, expected th = true) (work_queue cr) →
  ∃ n new_leaf w',
    __add_work_to_tree c j false w = Ok ((n, new_leaf), w')
    ∧ calls w' = calls w ++ [CallRetire c]
    ∧ (∃ cr', cruncher_heap w' !! c = Some cr' ∧ retire_ordered cr' = true)
    ∧ resulted_in_end (job_heap w' j) = true
    ∧ ∃ n1 current w1 sp1,
        add_work_loop c j pre (node (job_heap w j)) 0 (after_iterate c cr w)
          = Ok ((n1, current), w1)
        ∧ step_profiles w1 !! c = Some sp1
        ∧ (node_ident current, sp1) ∈ ends (tree w').
Proof.
  intros Hcr Hq Hsp Hexp.
  destruct (add_work_to_tree_total c j false w cr Hcr Hsp Hexp)
    as (n&leaf&w2&Hloop&Hdrain).
  pose proof (add_work_loop_frame _ _ _ _ _ _ _ _ _ Hloop)
    as (_&_&_&_&Hheap&Hcalls&_&_&_&_&_&Hend&_&_&_).
  assert (resulted_in_end (job_heap w2 j) = true) as Hflag.
  { rewrite Hend, Hq, existsb_app. cbn. by rewrite !orb_true_r. }
  rewrite Hflag in Hdrain. cbn [orb] in Hdrain.
  exists n, leaf, (after_retire c (emptied cr) w2).
  split; [done|]. split; [by cbn; rewrite Hcalls|]. split; [|split; [done|]].
  { exists (ordered_to_retire (emptied cr)). split; [|reflexivity]. cbn.
    apply list_lookup_insert_eq. rewrite Hheap. cbn.
    rewrite length_insert. by eapply lookup_lt_Some. }
  rewrite Hq, add_work_loop_app in Hloop.
  destruct (add_work_loop c j pre _ _ _) as [[[n1 cur1] w1]|e] eqn:Hpre; [|done].
  cbn [add_work_loop] in Hloop.
  apply bind_Ok_inv in Hloop as (sp1 & w1' & H1 & Hloop).
  apply bind_Ok_inv in Hloop as ([] & w3 & H2 & Hloop).
  apply bind_Ok_inv in Hloop as ([] & w4 & H3 & Hloop).
  unfold step_profiles_getitem, bind, get, ret, raise in H1.
  destruct (step_profiles w1 !! c) as [sp1'|] eqn:Hsp1; [|done].
  injection H1 as <- <-.
  cbv [tree_make_end modify] in H2. injection H2 as <-.
  cbv [job_set_resulted_in_end get_job set_job bind get modify ret] in H3.
  injection H3 as <-.
  apply add_work_loop_frame in Hloop as (_&_&_&_&_&_&_&_&_&_&_&_&_&[made Hm]&_).
  exists n1, cur1, w1, sp1'. split; [done|]. split; [done|].
  cbn in Hm |- *. rewrite Hm. set_solver.
Qed.

(** C10.  When the job's [resulted_in_end] flag is already set at entry, a
    drain that was not asked to retire still retires the cruncher as its
    last act, whether or not the queue holds an end marker. *)
Theorem add_work_to_tree_flag_already_set w c j cr :
  resulted_in_end (job_heap w j) = true →
  cruncher_heap w !! c = Some cr →
  is_Some (step_profiles w !! c) →
  Forall (λ th, expected th = true) (work_queue cr) →
  ∃ n new_leaf w',
    __add_work_to_tree c j false w = Ok ((n, new_leaf), w')
    ∧ calls w' = calls w ++ [CallRetire c]
    ∧ (∃ cr', cruncher_heap w' !! c = Some cr' ∧ retire_ordered cr' = true).
Proof.
  intros Hflag0 Hcr Hsp Hexp.
  destruct (add_work_to_tree_total c j false w cr Hcr Hsp Hexp)
    as (n&leaf&w2&Hloop&Hdrain).
  pose proof (add_work_loop_frame _ _ _ _ _ _ _ _ _ Hloop)
    as (_&_&_&_&Hheap&Hcalls&_&_&_&_&_&Hend&_&_&_).
  assert (resulted_in_end (job_heap w2 j) = true) as Hflag.
  { rewrite Hend. cbn. by rewrite Hflag0. }
  rewrite Hflag in Hdrain. cbn [orb] in Hdrain.
  exists n, leaf, (after_retire c (emptied cr) w2).
  split; [done|]. split; [by cbn; rewrite Hcalls|].
  exists (ordered_to_retire (emptied cr)). split; [|reflexivity]. cbn.
  apply list_lookup_insert_eq. rewrite Hheap. cbn.
  rewrite length_insert. by eapply lookup_lt_Some.
Qed.

(** ** [CrunchingManager.__init__] *)

(** C8.  Construction raises when the project offers no cruncher type, and
    otherwise yields a manager whose [cruncher_type] is the first type
    offered (with no jobs, crunchers or recorded step profiles). *)
Theorem CrunchingManager_init_first_type
    (project : @Project pyobj) jobs_ workers :
  match available_cruncher_types project with
  | [] => CrunchingManager__init__ project jobs_ workers
          = Raise GarlicSimException
  | first :: _ =>
      ∃ w, CrunchingManager__init__ project jobs_ workers = Ok w
           ∧ cruncher_type w = first
           ∧ jobs w = [] ∧ crunchers w = ∅ ∧ step_profiles w = ∅
  end.
Proof.
  unfold CrunchingManager__init__.
  destruct (available_cruncher_types project) as [|first rest]; cbn; eauto 10.
Qed.

(** ** Step profiles *)

Section step_profile.

Variable isinstance_StepProfile : pyobj → option (@StepProfile pyobj).
Variable StatePlaceholder : pyobj.

Lemma StepProfile_eq_spec sp1 sp2 :
  StepProfile__eq__ sp1 sp2 = true ↔ sp1 = sp2.
Proof.
  unfold StepProfile__eq__, ArgumentsProfile__eq__. cbn [andb].
  rewrite !andb_true_iff, !bool_decide_eq_true.
  destruct sp1, sp2; cbn. split; [intros [[-> ->] ->]|intros [= -> -> ->]]; done.
Qed.

Lemma StepProfile_ne_spec sp1 sp2 :
  StepProfile__ne__ sp1 sp2 = true ↔ sp1 ≠ sp2.
Proof.
  unfold StepProfile__ne__. rewrite negb_true_iff, <- not_true_iff_false.
  by rewrite StepProfile_eq_spec.
Qed.

Lemma StepProfile_ne_false sp1 sp2 :
  StepProfile__ne__ sp1 sp2 = false ↔ sp1 = sp2.
Proof.
  unfold StepProfile__ne__. by rewrite negb_false_iff, StepProfile_eq_spec.
Qed.

(** What the constructor returns when the keywords are acceptable: the
    step profile it was passed, if it was passed one, and otherwise a
    profile of the function and arguments given.  The assertion on the
    placeholder cannot fail. *)
Lemma StepProfile_init_eq f a (kw : gmap string pyobj) :
  acceptable_keywords kw →
  StepProfile__init__ isinstance_StepProfile StatePlaceholder f a kw
  = Ok (default {| step_function := f; args := a; kwargs := kw |}
          (candidate a kw ≫= isinstance_StepProfile)).
Proof.
  intros [Hself Hfun]. unfold StepProfile__init__.
  rewrite Hself, Hfun.
  rewrite !(bool_decide_eq_false_2 (is_Some None)) by (by intros [? ?]).
  cbn [orb].
  destruct (candidate a kw ≫= isinstance_StepProfile) as [p|]; cbn;
    rewrite bool_decide_eq_true_2 by done; [by destruct p|done].
Qed.

(** A keyword named after one of the two named parameters of [__init__] is
    a [TypeError]. *)
Lemma StepProfile_init_TypeError f a (kw : gmap string pyobj) :
  is_Some (kw !! "self"%string) ∨ is_Some (kw !! "step_function"%string) →
  StepProfile__init__ isinstance_StepProfile StatePlaceholder f a kw
  = Raise TypeError.
Proof.
  intros H. unfold StepProfile__init__.
  destruct H as [H|H]; rewrite (bool_decide_eq_true_2 _ H);
    by rewrite ?orb_true_r.
Qed.

Lemma acceptable_keywords_insert (kw : gmap string pyobj) k v1 v2 :
  acceptable_keywords (<[k:=v1]> kw) → acceptable_keywords (<[k:=v2]> kw).
Proof.
  intros [H1 H2]. split.
  - destruct (decide (k = "self"%string)) as [-> | Hne];
      [by rewrite lookup_insert_eq in H1|].
    rewrite lookup_insert_ne in H1 |- * by done. done.
  - destruct (decide (k = "step_function"%string)) as [-> | Hne];
      [by rewrite lookup_insert_eq in H2|].
    rewrite lookup_insert_ne in H2 |- * by done. done.
Qed.

(** With a keyword argument [k] present, the call is of the copy form
    exactly when there are no positional arguments and [k], which is
    [step_profile], is the only keyword; the object to copy is then the
    value of [k]. *)
Lemma candidate_insert a (kw : gmap string pyobj) k v :
  candidate a (<[k:=v]> kw)
  = if bool_decide (a = [] ∧ k = "step_profile"%string ∧ delete k kw = ∅)
    then Some v else None.
Proof.
  unfold candidate.
  assert (size (<[k:=v]> kw) = S (size (delete k kw))) as Hsize.
  { rewrite <- insert_delete_eq. apply map_size_insert_None, lookup_delete_eq. }
  rewrite Hsize.
  rewrite (bool_decide_eq_false_2 (S (size (delete k kw)) = 0)) by done.
  rewrite andb_false_r.
  destruct (decide (a = [] ∧ k = "step_profile"%string ∧ delete k kw = ∅))
    as [Hcopy|Hcopy];
    [rewrite (bool_decide_eq_true_2 _ Hcopy)
    |rewrite (bool_decide_eq_false_2 _ Hcopy)].
  - destruct Hcopy as (-> & -> & Hempty).
    rewrite Hempty, map_size_empty, lookup_insert_eq. cbn.
    rewrite bool_decide_eq_true_2 by eauto. done.
  - destruct (bool_decide (length a = 0)) eqn:Ha; cbn [andb]; [|done].
    destruct (bool_decide (S (size (delete k kw)) = 1)) eqn:H1;
      cbn [andb]; [|done].
    destruct (bool_decide (is_Some (<[k:=v]> kw !! "step_profile"%string)))
      eqn:H2; [exfalso|done].
    apply bool_decide_eq_true in Ha, H1, H2. apply Hcopy.
    assert (delete k kw = ∅) as Hempty.
    { apply map_size_empty_iff. lia. }
    split; [by apply length_zero_iff_nil|]. split; [|done].
    destruct (decide (k = "step_profile"%string)) as [|Hne]; [done|].
    rewrite lookup_insert_ne in H2 by done.
    rewrite <- (lookup_delete_ne kw k) in H2 by done.
    rewrite Hempty, lookup_empty in H2. by destruct H2.
Qed.

(** C9.  Profiles built from the same function and equal positional and
    keyword arguments compare equal.  Two profiles that differ only in the
    value of one keyword argument compare unequal.  For profiles built by
    two calls that differ only in the value [v1], [v2] of one keyword,
    this means: they compare unequal, except when the calls are of the
    constructor's other form, the copy of a step profile (no positional
    argument, [step_profile] the only keyword, its value a step profile),
    and one of the values is a step profile equal to the other instance;
    the two instances then hold the same arguments.  The keywords of a
    call must not repeat the name of a parameter of [__init__]. *)
Theorem StepProfile_equality :
  (∀ f a1 a2 (kw1 kw2 : gmap string pyobj),
     a1 = a2 → kw1 = kw2 → acceptable_keywords kw1 →
     ∃ sp1 sp2,
       StepProfile__init__ isinstance_StepProfile StatePlaceholder f a1 kw1
         = Ok sp1
       ∧ StepProfile__init__ isinstance_StepProfile StatePlaceholder f a2 kw2
         = Ok sp2
       ∧ StepProfile__eq__ sp1 sp2 = true
       ∧ StepProfile__ne__ sp1 sp2 = false)
  ∧ (∀ (sp1 sp2 : @StepProfile pyobj) kw k v1 v2,
       step_function sp1 = step_function sp2 →
       args sp1 = args sp2 →
       kwargs sp1 = <[k:=v1]> kw →
       kwargs sp2 = <[k:=v2]> kw →
       v1 ≠ v2 →
       StepProfile__eq__ sp1 sp2 = false
       ∧ StepProfile__ne__ sp1 sp2 = true)
  ∧ (∀ f a (kw : gmap string pyobj) k v1 v2,
       v1 ≠ v2 →
       acceptable_keywords (<[k:=v1]> kw) →
       ∃ sp1 sp2,
         StepProfile__init__ isinstance_StepProfile StatePlaceholder f a
           (<[k:=v1]> kw) = Ok sp1
         ∧ StepProfile__init__ isinstance_StepProfile StatePlaceholder f a
             (<[k:=v2]> kw) = Ok sp2
         ∧ (StepProfile__ne__ sp1 sp2 = false
            ↔ (a = [] ∧ k = "step_profile"%string ∧ delete k kw = ∅)
              ∧ (isinstance_StepProfile v1 = Some sp2
                 ∨ isinstance_StepProfile v2 = Some sp1))
         ∧ (isinstance_StepProfile v1 = None →
            isinstance_StepProfile v2 = None →
            StepProfile__eq__ sp1 sp2 = false
            ∧ StepProfile__ne__ sp1 sp2 = true)).
Proof.
  assert (∀ (sp1 sp2 : @StepProfile pyobj) kw k v1 v2,
            kwargs sp1 = <[k:=v1]> kw → kwargs sp2 = <[k:=v2]> kw →
            v1 ≠ v2 → sp1 ≠ sp2) as Hdiffer.
  { intros sp1 sp2 kw k v1 v2 H1 H2 Hv ->. rewrite H1 in H2.
    apply (f_equal (λ m : gmap string pyobj, m !! k)) in H2.
    rewrite !lookup_insert_eq in H2. congruence. }
  assert (∀ sp1 sp2, sp1 ≠ sp2 →
            StepProfile__eq__ sp1 sp2 = false
            ∧ StepProfile__ne__ sp1 sp2 = true) as Hne.
  { intros sp1 sp2 H. split; [|by apply StepProfile_ne_spec].
    apply not_true_iff_false. by rewrite StepProfile_eq_spec. }
  split; [|split].
  - intros f a1 a2 kw1 kw2 <- <- Hkw.
    eexists _, _. split; [by apply StepProfile_init_eq|].
    split; [by apply StepProfile_init_eq|].
    split; [by apply StepProfile_eq_spec|by apply StepProfile_ne_false].
  - intros sp1 sp2 kw k v1 v2 _ _ H1 H2 Hv. by eapply Hne, Hdiffer.
  - intros f a kw k v1 v2 Hv Hkw1.
    pose proof (acceptable_keywords_insert _ _ _ v2 Hkw1) as Hkw2.
    eexists _, _. split; [by apply StepProfile_init_eq|].
    split; [by apply StepProfile_init_eq|].
    rewrite !candidate_insert, StepProfile_ne_false.
    set (S1 := {| step_function := f; args := a; kwargs := <[k:=v1]> kw |}).
    set (S2 := {| step_function := f; args := a; kwargs := <[k:=v2]> kw |}).
    assert (S1 ≠ S2) as HS by (by apply (Hdiffer _ _ kw k v1 v2)).
    destruct (decide (a = [] ∧ k = "step_profile"%string ∧ delete k kw = ∅))
      as [Hcopy|Hcopy];
      [rewrite !(bool_decide_eq_true_2 _ Hcopy)
      |rewrite !(bool_decide_eq_false_2 _ Hcopy)]; cbn [mbind option_bind].
    + destruct (isinstance_StepProfile v1) as [p1|] eqn:E1,
        (isinstance_StepProfile v2) as [p2|] eqn:E2; cbn [from_option id];
        (split; [split|]).
      * intros ->. split; [done|by left].
      * by intros [_ [[= ->]|[= ->]]].
      * intros [=].
      * intros ->. split; [done|by left].
      * by intros [_ [[= ->]|[=]]].
      * intros [=].
      * intros <-. split; [done|by right].
      * by intros [_ [[=]|[= ->]]].
      * intros _ [=].
      * done.
      * by intros [_ [[=]|[=]]].
      * intros _ _. by apply Hne.
    + cbn [from_option id]. split; [split|].
      * done.
      * by intros [? _].
      * intros _ _. by apply Hne.
Qed.

End step_profile.

(** ** [__conditional_create_cruncher] *)

Lemma conditional_create_cruncher_eq j w :
  __conditional_create_cruncher j w =
  Ok (tt, if still_in_editing (node (job_heap w j)) then w
          else after_create j w).
Proof.
  cbv [__conditional_create_cruncher bind get_job get ret cruncher_new modify
       cruncher_start get_cruncher set_cruncher log crunchers_setitem
       change_tracker_check_in step_profiles_setitem].
  destruct (still_in_editing (node (job_heap w j))); cbn [negb]; [done|].
  cbn [set_cruncher_heap cruncher_heap].
  rewrite lookup_app_r, Nat.sub_diag by done. cbn [lookup list_lookup].
  simpl_world. destruct w as [? ? ? ? ? ? ? heap ?].
  by rewrite insert_app_r_alt, Nat.sub_diag.
Qed.

(** ** One job of the second loop *)

(** Computation steps of the monad that need no case analysis. *)
Ltac mstep := erewrite bind_Ok by reflexivity.

Lemma cruncher_is_alive_eq c w cr :
  cruncher_heap w !! c = Some cr → cruncher_is_alive c w = Ok (alive cr, w).
Proof. intros H. cbv [cruncher_is_alive get_cruncher bind get]. by rewrite H. Qed.

Lemma cruncher_get_type_eq c w cr :
  cruncher_heap w !! c = Some cr →
  cruncher_get_type c w = Ok (cruncher_class_of cr, w).
Proof. intros H. cbv [cruncher_get_type get_cruncher bind get]. by rewrite H. Qed.

Lemma step_profiles_getitem_eq c w sp :
  step_profiles w !! c = Some sp → step_profiles_getitem c w = Ok (sp, w).
Proof. intros H. cbv [step_profiles_getitem bind get]. by rewrite H. Qed.


(** What a completed drain may have changed, seen from outside. *)
Lemma add_work_to_tree_frame c j retire w n (leaf : @Node pyobj) w1 :
  __add_work_to_tree c j retire w = Ok ((n, leaf), w1) →
  jobs w1 = jobs w ∧ crunchers w1 = crunchers w
  ∧ crunching_profiles_change_tracker w1 = crunching_profiles_change_tracker w
  ∧ cruncher_type w1 = cruncher_type w
  ∧ is_Some (step_profiles w1 !! c)
  ∧ (∀ c', is_Some (step_profiles w !! c') → is_Some (step_profiles w1 !! c'))
  ∧ (∀ j', j' ≠ j → job_heap w1 j' = job_heap w j')
  ∧ node (job_heap w1 j) = node (job_heap w j)
  ∧ crunching_profile (job_heap w1 j) = crunching_profile (job_heap w j)
  ∧ (∃ cr cr', cruncher_heap w !! c = Some cr
       ∧ Forall (λ th, expected th = true) (work_queue cr)
       ∧ cruncher_heap w1 = <[c := cr']> (cruncher_heap w)
       ∧ work_queue cr' = []
       ∧ alive cr' = alive cr
       ∧ cruncher_class_of cr' = cruncher_class_of cr)
  ∧ (∃ made, calls w1 = calls w ++ made
       ∧ Forall (λ x, x = CallRetire c) made).
Proof.
  intros H. apply add_work_to_tree_Ok_inv in H as (cr & w0 & Hsp & Hcr & Hloop & ->).
  apply add_work_loop_frame in Hloop
    as (Hjobs&Hcrs&Htr&Hty&Hheap&Hcalls&Hsp'&Hspc&Hj'&Hnode&Hcp&_&_&_&Hexp).
  simpl_world_in Hjobs. simpl_world_in Hcrs. simpl_world_in Htr.
  simpl_world_in Hty. simpl_world_in Hheap. simpl_world_in Hcalls.
  assert (∀ c', is_Some (step_profiles w !! c') → is_Some (step_profiles w0 !! c'))
    as Hmono.
  { intros c' Hc'. destruct (decide (c' = c)) as [->|Hne]; [by apply Hspc|].
    by rewrite Hsp'. }
  destruct (retire || resulted_in_end (job_heap w0 j)).
  - repeat split; try done; try (by apply Hmono).
    + exists cr, (ordered_to_retire (emptied cr)). cbn.
      rewrite Hheap, list_insert_insert_eq. done.
    + exists [CallRetire c]. cbn. rewrite Hcalls. by repeat constructor.
  - repeat split; try done; try (by apply Hmono).
    + exists cr, (emptied cr). by rewrite Hheap.
    + exists []. rewrite app_nil_r. by repeat constructor.
Qed.

(** Inversion of the primitives that can fail. *)

Lemma cruncher_is_alive_inv c w b w' :
  cruncher_is_alive c w = Ok (b, w') →
  w' = w ∧ ∃ cr, cruncher_heap w !! c = Some cr ∧ b = alive cr.
Proof.
  cbv [cruncher_is_alive get_cruncher bind get ret raise].
  destruct (cruncher_heap w !! c) as [cr|]; [|done]. intros [= <- <-]. eauto.
Qed.

Lemma cruncher_get_type_inv c w ty w' :
  cruncher_get_type c w = Ok (ty, w') →
  w' = w ∧ ∃ cr, cruncher_heap w !! c = Some cr ∧ ty = cruncher_class_of cr.
Proof.
  cbv [cruncher_get_type get_cruncher bind get ret raise].
  destruct (cruncher_heap w !! c) as [cr|]; [|done]. intros [= <- <-]. eauto.
Qed.

Lemma step_profiles_getitem_inv c w sp w' :
  step_profiles_getitem c w = Ok (sp, w') →
  w' = w ∧ step_profiles w !! c = Some sp.
Proof.
  cbv [step_profiles_getitem bind get ret raise].
  destruct (step_profiles w !! c); [|done]. by intros [= <- <-].
Qed.

Lemma cruncher_retire_inv c w u w' :
  cruncher_retire c w = Ok (u, w') →
  ∃ cr, cruncher_heap w !! c = Some cr ∧ w' = after_retire c cr w.
Proof.
  rewrite cruncher_retire_eq.
  destruct (cruncher_heap w !! c) as [cr|]; [|done]. intros [= <-]. eauto.
Qed.

Lemma cruncher_update_crunching_profile_inv c cp w u w' :
  cruncher_update_crunching_profile c cp w = Ok (u, w') →
  ∃ cr, cruncher_heap w !! c = Some cr ∧ w' = after_update c cr cp w.
Proof.
  cbv [cruncher_update_crunching_profile get_cruncher bind get ret raise
       set_cruncher log modify].
  destruct (cruncher_heap w !! c) as [cr|]; [|done]. intros [= <-]. eauto.
Qed.

Lemma jobs_remove_inv j w u w' :
  jobs_remove j w = Ok (u, w') →
  ∃ l, list_remove j (jobs w) = Some l ∧ w' = set_jobs l w.
Proof.
  cbv [jobs_remove bind get modify raise].
  destruct (list_remove j (jobs w)) as [l|]; [|done]. intros [= <-]. eauto.
Qed.

Lemma crunchers_delitem_inv j w u w' :
  crunchers_delitem j w = Ok (u, w') →
  is_Some (crunchers w !! j) ∧ w' = set_crunchers (delete j (crunchers w)) w.
Proof.
  cbv [crunchers_delitem bind get modify raise].
  destruct (crunchers w !! j) eqn:E; [|done]. intros [= <-]. eauto.
Qed.

Lemma change_tracker_check_in_inv cp w b w' :
  change_tracker_check_in cp w = Ok (b, w') → w' = after_check_in cp w.
Proof. cbv [change_tracker_check_in bind get modify ret]. by intros [= <- <-]. Qed.

Lemma maybe_retire_inv (b : bool) c w u w' :
  (if b then cruncher_retire c else ret tt) w = Ok (u, w') →
  w' = w ∨ ∃ cr, cruncher_heap w !! c = Some cr ∧ w' = after_retire c cr w.
Proof.
  destruct b; [|intros [= <-]; by left].
  intros H%cruncher_retire_inv. by right.
Qed.

Lemma is_Some_insert_mono {V} (m : gmap nat V) k v c :
  is_Some (m !! c) → is_Some (<[k:=v]> m !! c).
Proof. rewrite lookup_insert_is_Some. destruct (decide (k = c)); auto. Qed.



(** ** Frames *)

Lemma job_frame_refl j c w : job_frame j c w w.
Proof. repeat split; eauto. Qed.

Lemma job_frame_trans j c w1 w2 w3 :
  job_frame j c w1 w2 → job_frame j c w2 w3 → job_frame j c w1 w3.
Proof.
  intros (A1&A2&A3&A4&A5&A6) (B1&B2&B3&B4&B5&B6). repeat split.
  - intros j' Hj'. by rewrite B1, A1.
  - intros j' Hj'. by rewrite B2, A2.
  - by rewrite B3, A3.
  - auto.
  - auto.
  - intros c' cr H. destruct (A6 c' cr H) as (cr1 & H1 & Hq1).
    destruct (B6 c' cr1 H1) as (cr2 & H2 & Hq2). exists cr2.
    split; [done|congruence].
Qed.

Lemma list_insert_same_queue (heap : list (@Cruncher pyobj)) c new c' cr :
  (∀ old, heap !! c = Some old → work_queue new = work_queue old) →
  heap !! c' = Some cr →
  ∃ cr', <[c:=new]> heap !! c' = Some cr' ∧ work_queue cr' = work_queue cr.
Proof.
  intros Hq H. destruct (decide (c = c')) as [->|Hne].
  - exists new. split; [|by apply Hq].
    apply list_lookup_insert_eq. by eapply lookup_lt_Some.
  - exists cr. by rewrite list_lookup_insert_ne.
Qed.

Lemma job_frame_after_retire j c cr w :
  cruncher_heap w !! c = Some cr → job_frame j c w (after_retire c cr w).
Proof.
  intros Hcr. repeat split; simpl_proj; try done.
  - intros c' cr' H Hne. by rewrite list_lookup_insert_ne.
  - intros c' cr' H. apply list_insert_same_queue; [|done].
    intros old. rewrite Hcr. by intros [= <-].
Qed.

Lemma job_frame_after_update j c cr cp w :
  cruncher_heap w !! c = Some cr → job_frame j c w (after_update c cr cp w).
Proof.
  intros Hcr. repeat split; simpl_proj; try done.
  - intros c' cr' H Hne. by rewrite list_lookup_insert_ne.
  - intros c' cr' H. apply list_insert_same_queue; [|done].
    intros old. rewrite Hcr. by intros [= <-].
Qed.

Lemma job_frame_after_check_in j c cp w :
  job_frame j c w (after_check_in cp w).
Proof. repeat split; eauto. Qed.

Lemma job_frame_set_jobs j c l w : job_frame j c w (set_jobs l w).
Proof. repeat split; eauto. Qed.

Lemma job_frame_delete j c w :
  job_frame j c w (set_crunchers (delete j (crunchers w)) w).
Proof.
  repeat split; simpl_proj; eauto.
  intros j' Hj'. by rewrite lookup_delete_ne.
Qed.

Lemma job_frame_after_create j c w : job_frame j c w (after_create j w).
Proof.
  repeat split; simpl_proj; try done.
  - intros j' Hj'. by rewrite lookup_insert_ne.
  - intros c'. apply is_Some_insert_mono.
  - intros c' cr H _. by apply lookup_app_l_Some.
  - intros c' cr H. exists cr. split; [|done]. by apply lookup_app_l_Some.
Qed.

Lemma job_frame_cond_create j c w :
  job_frame j c w
    (if still_in_editing (node (job_heap w j)) then w else after_create j w).
Proof.
  destruct (still_in_editing _);
    [apply job_frame_refl | apply job_frame_after_create].
Qed.

(** The loop body on a job that has a cruncher: the drain, the move of the
    job to the new leaf, and then a decision that stays within the frame of
    the job and either keeps an unfinished job listed or drops a finished
    one together with its cruncher. *)
Lemma sync_job_assigned_inv j t w c t' w' :
  crunchers w !! j = Some c →
  sync_job j t w = Ok (t', w') →
  ∃ n leaf w1,
    __add_work_to_tree c j false w = Ok ((n, leaf), w1)
    ∧ t' = t + n
    ∧ job_frame j c (after_set_node j leaf w1) w'
    ∧ ((jobs w' = jobs w1
        ∧ is_done (with_node leaf (job_heap w1 j)) = false)
       ∨ (list_remove j (jobs w1) = Some (jobs w')
          ∧ crunchers w' !! j = None
          ∧ is_done (with_node leaf (job_heap w1 j)) = true))
    ∧ (∀ c0, crunchers w' !! j = Some c0 →
         is_Some (step_profiles w' !! c0)
         ∧ (c0 = c ∨ ∃ cr0, cruncher_heap w' !! c0 = Some cr0
                            ∧ work_queue cr0 = [])).
Proof.
  intros Hc H. unfold sync_job in H.
  apply bind_Ok_inv in H as (w0 & w0' & [= <- <-] & H). rewrite Hc in H.
  apply bind_Ok_inv in H as ([n leaf] & w1 & Hd & H).
  exists n, leaf, w1. split; [done|].
  apply bind_Ok_inv in H as ([] & w2 & Hset & H).
  cbv [job_set_node get_job set_job bind get modify ret] in Hset.
  injection Hset as <-.
  apply bind_Ok_inv in H as (jb & w2' & Hg & H).
  cbv [get_job bind get ret] in Hg. injection Hg as <- <-.
  change (set_job_heap _ w1) with (after_set_node j leaf w1) in *.
  set (w2 := after_set_node j leaf w1) in *.
  assert (job_heap w2 j = with_node leaf (job_heap w1 j)) as Hjob
    by apply fn_lookup_insert.
  change (<[j:=_]> (job_heap w1) j) with (job_heap w2 j) in H.
  rewrite Hjob in H.
  destruct (add_work_to_tree_frame _ _ _ _ _ _ _ Hd)
    as (_&Hcrs&_&_&Hspc&_).
  assert (crunchers w2 !! j = Some c) as Hc2 by (by cbn; rewrite Hcrs).
  assert (is_Some (step_profiles w2 !! c)) as Hsp2 by done.
  destruct (is_done (with_node leaf (job_heap w1 j))) eqn:Hdone; cbn [negb] in H.
  - (* the job is done *)
    apply bind_Ok_inv in H as ([] & w3 & Hrm & H).
    apply jobs_remove_inv in Hrm as (l & Hl & ->).
    apply bind_Ok_inv in H as (al & w4 & Ha & H).
    apply cruncher_is_alive_inv in Ha as (-> & cra & Hcra & ->).
    apply bind_Ok_inv in H as ([] & w4 & Hr & H).
    apply bind_Ok_inv in H as ([] & w5 & Hdel & H).
    apply crunchers_delitem_inv in Hdel as (_ & ->).
    injection H as <- <-.
    split; [done|]. split; [|split].
    + eapply job_frame_trans; [apply (job_frame_set_jobs j c l)|].
      eapply job_frame_trans; [|apply job_frame_delete].
      apply maybe_retire_inv in Hr as [->|(cr3 & Hcr3 & ->)];
        [apply job_frame_refl | by apply job_frame_after_retire].
    + right. simpl_proj. rewrite lookup_delete_eq. split; [|done].
      apply maybe_retire_inv in Hr as [->|(cr3 & _ & ->)]; done.
    + simpl_proj. by rewrite lookup_delete_eq.
  - (* the job is not done *)
    apply bind_Ok_inv in H as (al & w3 & Ha & H).
    apply cruncher_is_alive_inv in Ha as (-> & cra & Hcra & ->).
    apply bind_Ok_inv in H as (ty & w3 & Ht & H).
    apply cruncher_get_type_inv in Ht as (-> & crt & Hcrt & ->).
    apply bind_Ok_inv in H as (w3 & w3' & [= <- <-] & H).
    assert (∀ w3, job_frame j c w2 w3 → crunchers w3 = crunchers w2 →
              jobs w3 = jobs w2 →
              let w4 := if still_in_editing (node (job_heap w3 j)) then w3
                        else after_create j w3 in
              job_frame j c w2 w4
              ∧ (jobs w4 = jobs w1 ∧ false = false
                 ∨ list_remove j (jobs w1) = Some (jobs w4)
                   ∧ crunchers w4 !! j = None ∧ false = true)
              ∧ (∀ c0, crunchers w4 !! j = Some c0 →
                   is_Some (step_profiles w4 !! c0)
                   ∧ (c0 = c ∨ ∃ cr0, cruncher_heap w4 !! c0 = Some cr0
                                      ∧ work_queue cr0 = []))) as Hcreate.
    { intros w3 Hf Hcr3 Hj3 w4. subst w4. split; [|split].
      - eapply job_frame_trans; [done|apply job_frame_cond_create].
      - left. by destruct (still_in_editing _).
      - destruct (still_in_editing _).
        + intros c0. rewrite Hcr3, Hc2. intros [= <-].
          split; [by apply Hf|by left].
        + simpl_proj. intros c0. rewrite lookup_insert_eq. intros [= <-].
          rewrite lookup_insert_eq. split; [eauto|]. right.
          exists (started_cruncher j w3). split; [|done].
          rewrite lookup_app_r by done. by rewrite Nat.sub_diag. }
    destruct (alive cra && bool_decide (cruncher_class_of crt = cruncher_type w2)).
    + apply bind_Ok_inv in H as (rec & w3 & Hg & H).
      apply step_profiles_getitem_inv in Hg as (-> & Hrec).
      destruct (StepProfile__ne__ _ _).
      * apply bind_Ok_inv in H as (al2 & w3 & Ha2 & H).
        apply cruncher_is_alive_inv in Ha2 as (-> & _).
        apply bind_Ok_inv in H as ([] & w3 & Hr & H).
        apply bind_Ok_inv in H as ([] & w4 & Hcc & H).
        rewrite conditional_create_cruncher_eq in Hcc.
        injection Hcc as <-. injection H as <- <-. split; [done|].
        apply Hcreate;
          apply maybe_retire_inv in Hr as [->|(cr3 & Hcr3 & ->)];
          first [apply job_frame_refl | by apply job_frame_after_retire | done].
      * apply bind_Ok_inv in H as (ch & w3 & Hci & H).
        apply change_tracker_check_in_inv in Hci as ->.
        destruct ch.
        -- apply bind_Ok_inv in H as ([] & w4 & Hu & H).
           apply cruncher_update_crunching_profile_inv in Hu as (cr4 & Hcr4 & ->).
           injection H as <- <-. split; [done|]. split; [|split].
           ++ eapply job_frame_trans;
                [apply job_frame_after_check_in|by apply job_frame_after_update].
           ++ by left.
           ++ intros c0. simpl_proj. rewrite Hc2. intros [= <-].
              split; [done|by left].
        -- injection H as <- <-. split; [done|]. split; [|split].
           ++ apply job_frame_after_check_in.
           ++ by left.
           ++ intros c0. simpl_proj. rewrite Hc2. intros [= <-].
              split; [done|by left].
    + apply bind_Ok_inv in H as ([] & w3 & Hr & H).
      apply cruncher_retire_inv in Hr as (cr3 & Hcr3 & ->).
      apply bind_Ok_inv in H as ([] & w4 & Hcc & H).
      rewrite conditional_create_cruncher_eq in Hcc.
      injection Hcc as <-. injection H as <- <-. split; [done|].
      apply (Hcreate (after_retire c cr3 w2));
        first [by apply job_frame_after_retire | done].
Qed.

(** The loop body on a job that has no cruncher. *)
Lemma sync_job_unassigned_inv j t w t' w' :
  crunchers w !! j = None →
  sync_job j t w = Ok (t', w') →
  t' = t
  ∧ ((is_done (job_heap w j) = true
      ∧ ∃ l, list_remove j (jobs w) = Some l ∧ w' = set_jobs l w)
     ∨ (is_done (job_heap w j) = false
        ∧ w' = if still_in_editing (node (job_heap w j)) then w
               else after_create j w)).
Proof.
  intros Hc H. unfold sync_job in H.
  apply bind_Ok_inv in H as (w0 & w0' & [= <- <-] & H). rewrite Hc in H.
  cbv [bind get_job get ret] in H.
  destruct (is_done (job_heap w j)) eqn:Hdone; cbn [negb] in H.
  - cbv [jobs_remove bind get modify raise] in H.
    destruct (list_remove j (jobs w)) as [l|] eqn:Hl; [|done].
    injection H as <- <-. split; [done|]. left. eauto.
  - rewrite conditional_create_cruncher_eq in H. injection H as <- <-.
    split; [done|]. by right.
Qed.

(** A drain of an empty queue moves nothing. *)
Lemma add_work_to_tree_empty c j retire w cr n (leaf : @Node pyobj) w1 :
  cruncher_heap w !! c = Some cr →
  work_queue cr = [] →
  __add_work_to_tree c j retire w = Ok ((n, leaf), w1) →
  n = 0 ∧ leaf = node (job_heap w j) ∧ job_heap w1 = job_heap w.
Proof.
  intros Hcr Hq (cr0 & w0 & _ & Hcr0 & Hloop & ->)%add_work_to_tree_Ok_inv.
  assert (cr0 = cr) as -> by congruence.
  rewrite Hq in Hloop. injection Hloop as <- <- <-.
  by destruct (retire || _).
Qed.

Lemma with_node_same (jb : @Job pyobj) : with_node (node jb) jb = jb.
Proof. by destruct jb. Qed.

(** What one pass of the loop body over job [j] may have changed. *)
Lemma sync_job_frame j t w t' w' :
  sync_job j t w = Ok (t', w') →
  (∀ j', j' ≠ j → crunchers w' !! j' = crunchers w !! j'
                  ∧ job_heap w' j' = job_heap w j')
  ∧ (∀ c, is_Some (step_profiles w !! c) → is_Some (step_profiles w' !! c))
  ∧ ((jobs w' = jobs w ∧ is_done (job_heap w' j) = false)
     ∨ (list_remove j (jobs w) = Some (jobs w')
        ∧ is_done (job_heap w' j) = true))
  ∧ (∀ c, crunchers w' !! j = Some c →
       is_Some (step_profiles w' !! c)
       ∧ ∃ cr, cruncher_heap w' !! c = Some cr ∧ work_queue cr = [])
  ∧ (crunchers w !! j = None →
     still_in_editing (node (job_heap w j)) = true →
     crunchers w' !! j = None ∧ job_heap w' j = job_heap w j
     ∧ cruncher_heap w' = cruncher_heap w ∧ calls w' = calls w)
  ∧ (∀ c cr, crunchers w !! j = Some c → cruncher_heap w !! c = Some cr →
     Forall (λ th, expected th = true) (work_queue cr))
  ∧ (∀ c cr, cruncher_heap w !! c = Some cr → crunchers w !! j ≠ Some c →
     cruncher_heap w' !! c = Some cr)
  ∧ (∀ c cr, cruncher_heap w !! c = Some cr → work_queue cr = [] →
     ∃ cr', cruncher_heap w' !! c = Some cr' ∧ work_queue cr' = [])
  ∧ (settled j w → job_heap w' j = job_heap w j).
Proof.
  intros H. destruct (crunchers w !! j) as [c|] eqn:Hc.
  - pose proof (sync_job_assigned_inv _ _ _ c _ _ Hc H)
      as (n & leaf & w1 & Hd & Ht & Hf & Hjobs & Hsp). clear H.
    destruct Hf as (F1&F2&F3&F4&F5&F6).
    destruct (add_work_to_tree_frame _ _ _ _ _ _ _ Hd)
      as (Hj1&Hcrs&_&_&_&Hmono&Hj'&_&_&(cr&cr'&Hcr&Hexp&Hheap&Hq'&_)&_).
    assert (job_heap (after_set_node j leaf w1) j
            = with_node leaf (job_heap w1 j)) as Hjob by apply fn_lookup_insert.
    assert (cruncher_heap w1 !! c = Some cr') as Hcr1.
    { rewrite Hheap. apply list_lookup_insert_eq. by eapply lookup_lt_Some. }
    assert (∀ c0 cr0, cruncher_heap w !! c0 = Some cr0 → work_queue cr0 = [] →
              ∃ cr1, cruncher_heap w' !! c0 = Some cr1 ∧ work_queue cr1 = [])
      as Hempty.
    { intros c0 cr0 Hcr0 Hq0.
      assert (∃ cr1, cruncher_heap w1 !! c0 = Some cr1 ∧ work_queue cr1 = [])
        as (cr1 & Hc1 & Hq1).
      { destruct (decide (c0 = c)) as [->|Hne]; [eauto|].
        exists cr0. by rewrite Hheap, list_lookup_insert_ne. }
      destruct (F6 c0 cr1 Hc1) as (cr2 & Hcr2 & Hq2).
      exists cr2. split; [done|congruence]. }
    split; [|split; [|split; [|split; [|split; [|split; [|split; [|split]]]]]]].
    + intros j' Hne. split.
      * rewrite F1 by done. simpl_proj. by rewrite Hcrs.
      * rewrite F2 by done. simpl_proj. rewrite fn_lookup_insert_ne by done.
        by apply Hj'.
    + intros c0 H0. apply F4. simpl_proj. by apply Hmono.
    + destruct Hjobs as [[Hj Hnd]|(Hl & _ & Hd1)].
      * left. rewrite F3, Hjob, Hj, Hj1. done.
      * right. rewrite F3, Hjob, <- Hj1. done.
    + intros c0 Hc0. destruct (Hsp c0 Hc0) as [Hs [->|Hnew]]; [|done].
      split; [done|]. destruct (F6 c cr' Hcr1) as (cr2 & Hcr2 & Hq2).
      exists cr2. split; [done|congruence].
    + done.
    + intros c0 cr0 [= <-] Hcr0. by assert (cr0 = cr) as -> by congruence.
    + intros c0 cr0 Hcr0 Hne. apply F5; [|congruence]. simpl_proj.
      rewrite Hheap. rewrite list_lookup_insert_ne; [done|congruence].
    + done.
    + unfold settled. rewrite Hc.
      intros [|(c0 & cr0 & [= <-] & Hcr0 & Hq0)]; [done|].
      destruct (add_work_to_tree_empty _ _ _ _ _ _ _ _ Hcr0 Hq0 Hd)
        as (_ & -> & Hsame).
      rewrite F3, Hjob, Hsame. apply with_node_same.
  - pose proof (sync_job_unassigned_inv _ _ _ _ _ Hc H)
      as (Ht & [(Hdone & l & Hl & ->)|(Hdone & ->)]); clear H.
    + simpl_proj. repeat split; try done; eauto; congruence.
    + destruct (still_in_editing (node (job_heap w j))) eqn:Hed.
      * repeat split; try done; eauto; congruence.
      * simpl_proj. repeat split; try done; eauto.
        -- by rewrite lookup_insert_ne.
        -- intros c. apply is_Some_insert_mono.
        -- revert H. rewrite lookup_insert_eq. intros [= <-].
           rewrite lookup_insert_eq. eauto.
        -- revert H. rewrite lookup_insert_eq. intros [= <-].
           exists (started_cruncher j w). split; [|done].
           rewrite lookup_app_r by done. by rewrite Nat.sub_diag.
        -- intros c cr Hcr _. by apply lookup_app_l_Some.
        -- intros c cr Hcr Hq. exists cr. split; [|done].
           by apply lookup_app_l_Some.
Qed.



(** ** The first loop: reaping *)

Lemma reap_inv j c t w t' w' :
  reap j c t w = Ok (t', w') →
  j ∈ jobs w ∧ t' = t ∧ w' = w
  ∨ ((j ∉ jobs w) ∧ ∃ n leaf w1,
       __add_work_to_tree c j true w = Ok ((n, leaf), w1)
       ∧ t' = t + n
       ∧ w' = set_crunchers (delete j (crunchers w1)) w1).
Proof.
  unfold reap. intros H.
  apply bind_Ok_inv in H as (w0 & w0' & [= <- <-] & H).
  case_bool_decide as Hin; cbn [negb] in H.
  - injection H as <- <-. by left.
  - right. split; [done|].
    apply bind_Ok_inv in H as ([n leaf] & w1 & Hd & H).
    apply bind_Ok_inv in H as ([] & w2 & Hdel & H).
    apply crunchers_delitem_inv in Hdel as (_ & ->).
    injection H as <- <-. eauto 10.
Qed.

Lemma reap_frame j c t w t' w' :
  reap j c t w = Ok (t', w') →
  jobs w' = jobs w
  ∧ (∀ j', j' ≠ j → crunchers w' !! j' = crunchers w !! j'
                  ∧ job_heap w' j' = job_heap w j')
  ∧ (j ∈ jobs w → w' = w)
  ∧ (j ∉ jobs w → crunchers w' !! j = None)
  ∧ (∀ c0, is_Some (step_profiles w !! c0) → is_Some (step_profiles w' !! c0))
  ∧ (∀ cr, j ∉ jobs w → cruncher_heap w !! c = Some cr →
       Forall (λ th, expected th = true) (work_queue cr))
  ∧ (∀ c0 cr, cruncher_heap w !! c0 = Some cr → (j ∉ jobs w → c0 ≠ c) →
       cruncher_heap w' !! c0 = Some cr).
Proof.
  intros [(Hin & -> & ->)|(Hin & n & leaf & w1 & Hd & -> & ->)]%reap_inv.
  - by repeat split.
  - destruct (add_work_to_tree_frame _ _ _ _ _ _ _ Hd)
      as (Hj1&Hcrs&_&_&_&Hmono&Hj'&_&_&(cr&cr'&Hcr&Hexp&Hheap&_)&_).
    simpl_proj. repeat split; try done.
    + rewrite lookup_delete_ne by done. by rewrite Hcrs.
    + by apply Hj'.
    + intros _. apply lookup_delete_eq.
    + intros cr0 _ Hcr0. by assert (cr0 = cr) as -> by congruence.
    + intros c0 cr0 Hcr0 Hne. rewrite Hheap.
      rewrite list_lookup_insert_ne; [done|]. intros <-. by apply Hne.
Qed.

Lemma reap_loop_frame items : ∀ t w t' w',
  reap_loop items t w = Ok (t', w') →
  jobs w' = jobs w
  ∧ (∀ j, crunchers w' !! j = None ∨ crunchers w' !! j = crunchers w !! j)
  ∧ (∀ j, j ∈ jobs w → crunchers w' !! j = crunchers w !! j)
  ∧ (∀ j c, (j, c) ∈ items → j ∉ jobs w → crunchers w' !! j = None)
  ∧ (∀ j, (∀ c, (j, c) ∉ items) →
       crunchers w' !! j = crunchers w !! j ∧ job_heap w' j = job_heap w j)
  ∧ (∀ c0, is_Some (step_profiles w !! c0) → is_Some (step_profiles w' !! c0))
  ∧ (∀ c0 cr, cruncher_heap w !! c0 = Some cr →
       ¬ Forall (λ th, expected th = true) (work_queue cr) →
       cruncher_heap w' !! c0 = Some cr
       ∧ ∀ j, (j, c0) ∈ items → j ∈ jobs w).
Proof.
  induction items as [|[j c] items IH]; intros t w t' w' H.
  - injection H as <- <-. repeat split; auto.
    + intros j c Hin. by apply elem_of_nil in Hin.
    + intros j Hin. by apply elem_of_nil in Hin.
  - cbn [reap_loop] in H. apply bind_Ok_inv in H as (t1 & w1 & Hr & H).
    apply reap_frame in Hr as (Rj&Ro&Rin&Rout&Rsp&Rexp&Rheap).
    apply IH in H as (Ij&Ic&Iin&Iout&Ino&Isp&Iheap).
    split; [congruence|]. split; [|split; [|split; [|split; [|split]]]].
    + intros j0. destruct (Ic j0) as [-> | ->]; [by left|].
      destruct (decide (j0 = j)) as [->|Hne]; [|right; by apply Ro].
      destruct (decide (j ∈ jobs w)) as [Hin|Hout].
      * right. by rewrite (Rin Hin).
      * left. by apply Rout.
    + intros j0 Hin. rewrite Iin by (by rewrite Rj).
      destruct (decide (j0 = j)) as [->|Hne]; [by rewrite (Rin Hin)|].
      by apply Ro.
    + intros j0 c0 [[= -> ->]|Hin]%elem_of_cons Hout.
      * destruct (Ic j) as [-> | ->]; [done|]. by apply Rout.
      * apply (Iout j0 c0); [done|]. by rewrite Rj.
    + intros j0 Hno.
      assert (j0 ≠ j) as Hne by (intros ->; apply (Hno c); left).
      destruct (Ino j0) as [-> ->].
      { intros c0 Hin. apply (Hno c0). by right. }
      by apply Ro.
    + auto.
    + intros c0 cr Hcr Hbad.
      assert (j ∉ jobs w → c0 ≠ c) as Hne.
      { intros Hout ->. apply Hbad. by apply Rexp. }
      destruct (Iheap c0 cr) as [Hcr' Hitems]; [by apply Rheap|done|].
      split; [done|]. intros j0 [[= -> ->]|Hin]%elem_of_cons.
      * destruct (decide (j ∈ jobs w)) as [|Hout]; [done|]. by destruct (Hne Hout).
      * rewrite <- Rj. by apply Hitems.
Qed.

(** ** The second loop and [sync_crunchers] *)

Lemma sync_crunchers_inv w t w' :
  sync_crunchers w = Ok (t, w') →
  ∃ t1 w1, reap_loop (map_to_list (crunchers w)) 0 w = Ok (t1, w1)
           ∧ sync_loop (jobs w1) t1 w1 = Ok (t, w').
Proof.
  unfold sync_crunchers. intros H.
  apply bind_Ok_inv in H as (w0 & w0' & [= <- <-] & H).
  apply bind_Ok_inv in H as (t1 & w1 & Hreap & H).
  apply bind_Ok_inv in H as (w2 & w2' & [= <- <-] & H).
  apply bind_Ok_inv in H as (t2 & w3 & Hloop & H).
  injection H as <- <-. eauto.
Qed.

Lemma sync_loop_step_profiles todo : ∀ t w t' w',
  sync_loop todo t w = Ok (t', w') →
  ∀ c, is_Some (step_profiles w !! c) → is_Some (step_profiles w' !! c).
Proof.
  induction todo as [|k todo IH]; intros t w t' w' H c Hc.
  - by injection H as <- <-.
  - cbn [sync_loop] in H. apply bind_Ok_inv in H as (t1 & w1 & Hk & H).
    apply sync_job_frame in Hk as (_&Hsp&_). eapply IH; eauto.
Qed.

Lemma sync_loop_assigned todo : ∀ t w t' w',
  sync_loop todo t w = Ok (t', w') →
  (∀ j c, crunchers w !! j = Some c →
     j ∈ todo ∨ is_Some (step_profiles w !! c)) →
  ∀ j c, crunchers w' !! j = Some c → is_Some (step_profiles w' !! c).
Proof.
  induction todo as [|k todo IH]; intros t w t' w' H Hinv.
  - injection H as <- <-. intros j c Hj.
    destruct (Hinv j c Hj) as [Hin|]; [by apply elem_of_nil in Hin|done].
  - cbn [sync_loop] in H. apply bind_Ok_inv in H as (t1 & w1 & Hk & H).
    apply sync_job_frame in Hk as (Ho&Hsp&_&Hown&_).
    eapply IH; [done|]. intros j c Hj.
    destruct (decide (j = k)) as [->|Hne]; [right; by apply (Hown c)|].
    rewrite (proj1 (Ho j Hne)) in Hj.
    destruct (Hinv j c Hj) as [[->|Hin]%elem_of_cons|Hs]; [done|by left|].
    right. by apply Hsp.
Qed.

Lemma list_remove_count j l l' :
  list_remove j l = Some l' →
  count_occ Nat.eq_dec l j = S (count_occ Nat.eq_dec l' j)
  ∧ ∀ x, x ≠ j → count_occ Nat.eq_dec l' x = count_occ Nat.eq_dec l x.
Proof.
  revert l'. induction l as [|y l IH]; intros l' H; [done|].
  cbn [list_remove] in H. case_bool_decide as Hy.
  - injection H as <-. subst y. split.
    + by rewrite count_occ_cons_eq.
    + intros x Hx. by rewrite count_occ_cons_neq.
  - destruct (list_remove j l) as [l0|]; [|done]. injection H as <-.
    destruct (IH l0 eq_refl) as [Hj Hx]. split.
    + by rewrite !count_occ_cons_neq.
    + intros x Hne. destruct (decide (y = x)) as [->|Hyx].
      * rewrite !count_occ_cons_eq by done. by rewrite Hx.
      * rewrite !count_occ_cons_neq by done. by apply Hx.
Qed.

(** The invariant of the second loop behind C5: a job occurs in the list no
    more often than it is still to be visited, or else it is not done and
    has nothing waiting that could make it so. *)
Lemma sync_loop_done todo : ∀ t w t' w',
  sync_loop todo t w = Ok (t', w') →
  (∀ j, count_occ Nat.eq_dec (jobs w) j ≤ count_occ Nat.eq_dec todo j
        ∨ (is_done (job_heap w j) = false ∧ settled j w)) →
  ∀ j, j ∈ jobs w' → is_done (job_heap w' j) = false.
Proof.
  induction todo as [|k todo IH]; intros t w t' w' H Hinv.
  - injection H as <- <-. intros j Hj.
    destruct (Hinv j) as [Hle|[? _]]; [|done].
    apply list_elem_of_In, (count_occ_In Nat.eq_dec) in Hj. cbn in Hle. lia.
  - cbn [sync_loop] in H. apply bind_Ok_inv in H as (t1 & w1 & Hk & H).
    apply sync_job_frame in Hk as (Ho&_&Hjobs&Hown&_&_&_&Hempty&Hsame).
    eapply IH; [done|]. intros j.
    assert (settled k w1) as Hsettled.
    { unfold settled. destruct (crunchers w1 !! k) as [c|] eqn:Hc; [|by left].
      right. destruct (Hown c eq_refl) as (_ & cr & ? & ?). eauto. }
    destruct (decide (j = k)) as [->|Hne].
    + destruct (Hinv k) as [Hle|[Hnot Hs]].
      * destruct Hjobs as [[Hj Hnot]|[Hrm Hd]]; [by right|]. left.
        apply list_remove_count in Hrm as [Hcount _].
        rewrite count_occ_cons_eq in Hle by done. lia.
      * right. split; [|done]. by rewrite (Hsame Hs).
    + destruct (Ho j Hne) as [Hcj Hjj].
      destruct (Hinv j) as [Hle|[Hnot Hs]].
      * left. rewrite count_occ_cons_neq in Hle by done.
        destruct Hjobs as [[-> _]|[Hrm _]]; [done|].
        apply list_remove_count in Hrm as [_ Hx]. by rewrite Hx.
      * right. rewrite Hjj. split; [done|]. unfold settled. rewrite Hcj.
        destruct Hs as [|(c & cr & Hc & Hcr & Hq)]; [by left|right].
        destruct (Hempty c cr Hcr Hq) as (cr' & ? & ?). eauto.
Qed.

Lemma sync_loop_in_editing todo J : ∀ t w t' w',
  sync_loop todo t w = Ok (t', w') →
  crunchers w !! J = None →
  still_in_editing (node (job_heap w J)) = true →
  crunchers w' !! J = None ∧ job_heap w' J = job_heap w J.
Proof.
  induction todo as [|k todo IH]; intros t w t' w' H Hc Hed.
  - by injection H as <- <-.
  - cbn [sync_loop] in H. apply bind_Ok_inv in H as (t1 & w1 & Hk & H).
    apply sync_job_frame in Hk as (Ho&_&_&_&Hown&_).
    assert (crunchers w1 !! J = None ∧ job_heap w1 J = job_heap w J)
      as [Hc1 Hj1].
    { destruct (decide (J = k)) as [->|Hne].
      - destruct (Hown Hc Hed) as (?&?&_). done.
      - destruct (Ho J Hne) as [-> ->]. done. }
    destruct (IH _ _ _ _ H Hc1) as [? ->]; [by rewrite Hj1|done].
Qed.

(** C3, as the code has it.  After a completed sync, every cruncher that
    [crunchers] assigns to a job has a step profile recorded in
    [step_profiles]; and sync never removes a key from [step_profiles]:
    the entries of crunchers that were retired and dropped stay. *)
Theorem sync_crunchers_step_profiles_kept w t w' :
  sync_crunchers w = Ok (t, w') →
  (∀ j c, crunchers w' !! j = Some c → c ∈ dom (step_profiles w'))
  ∧ dom (step_profiles w) ⊆ dom (step_profiles w').
Proof.
  intros (t1 & w1 & Hreap & Hloop)%sync_crunchers_inv.
  apply reap_loop_frame in Hreap as (Hj&Hc&_&Hout&_&Hsp&_).
  split.
  - intros j c Hjc. apply elem_of_dom.
    eapply sync_loop_assigned; [done| |done].
    intros j0 c0 H0. left.
    destruct (decide (j0 ∈ jobs w1)) as [|Hnot]; [done|exfalso].
    destruct (Hc j0) as [Hn|He]; [congruence|].
    assert ((j0, c0) ∈ map_to_list (crunchers w)) as Hitem
      by (apply elem_of_map_to_list; congruence).
    rewrite Hj in Hnot. rewrite (Hout j0 c0 Hitem Hnot) in H0. congruence.
  - intros c Hc0%elem_of_dom. apply elem_of_dom.
    eapply sync_loop_step_profiles; eauto.
Qed.

(** C5.  After a completed sync, no job that is done is left in the job
    list. *)
Theorem sync_crunchers_done_jobs_removed w t w' :
  sync_crunchers w = Ok (t, w') →
  ∀ j, j ∈ jobs w → is_done (job_heap w' j) = true → j ∉ jobs w'.
Proof.
  intros (t1 & w1 & Hreap & Hloop)%sync_crunchers_inv j _ Hdone Hin.
  assert (is_done (job_heap w' j) = false); [|congruence].
  eapply sync_loop_done; [done| |done]. intros j0. by left.
Qed.

(** C6.  [__conditional_create_cruncher] leaves the world as it is when the
    job's node is still in editing, and only otherwise makes, starts and
    records a cruncher (checking in the crunching profile and recording the
    step profile).  Hence a job without a cruncher whose node is still in
    editing gets none: the loop body on it leaves the crunchers and the log
    of calls alone, and after a completed sync the job still has no
    cruncher. *)
Theorem no_cruncher_while_in_editing :
  (∀ j w, __conditional_create_cruncher j w =
          Ok (tt, if still_in_editing (node (job_heap w j)) then w
                  else after_create j w))
  ∧ (∀ j w t t' w',
       crunchers w !! j = None →
       still_in_editing (node (job_heap w j)) = true →
       sync_job j t w = Ok (t', w') →
       crunchers w' !! j = None
       ∧ cruncher_heap w' = cruncher_heap w ∧ calls w' = calls w)
  ∧ (∀ j w t w',
       crunchers w !! j = None →
       still_in_editing (node (job_heap w j)) = true →
       sync_crunchers w = Ok (t, w') →
       crunchers w' !! j = None
       ∧ still_in_editing (node (job_heap w' j)) = true).
Proof.
  split; [apply conditional_create_cruncher_eq|]. split.
  - intros j w t t' w' Hc Hed H.
    apply sync_job_frame in H as (_&_&_&_&Hown&_).
    destruct (Hown Hc Hed) as (?&?&?&?). done.
  - intros j w t w' Hc Hed (t1 & w1 & Hreap & Hloop)%sync_crunchers_inv.
    apply reap_loop_frame in Hreap as (_&_&_&_&Hno&_).
    destruct (Hno j) as [Hc1 Hj1].
    { intros c Hin%elem_of_map_to_list. congruence. }
    destruct (sync_loop_in_editing _ j _ _ _ _ Hloop) as [Hc' Hj'].
    + congruence.
    + by rewrite Hj1.
    + split; [done|]. by rewrite Hj', Hj1.
Qed.


(** * Further properties of the manager *)

(** ** Rules for [ensures] *)

Lemma ensures_bind {A B} (m : @M pyobj A) (k : A → M B) Q1 Q2 Q :
  ensures m Q1 →
  (∀ a, ensures (k a) (Q2 a)) →
  (∀ w a w1 b w2, Q1 w a w1 → Q2 a w1 b w2 → Q w b w2) →
  ensures (bind m k) Q.
Proof.
  intros Hm Hk HQ w b w2 (a & w1 & H1 & H2)%bind_Ok_inv.
  eapply HQ; [by apply Hm|by apply Hk].
Qed.

Lemma ensures_weaken {A} (m : @M pyobj A) (Q Q' : world → A → world → Prop) :
  ensures m Q → (∀ w a w', Q w a w' → Q' w a w') → ensures m Q'.
Proof. intros Hm HQ w a w' H. eauto. Qed.

(** For a transitive relation on worlds, sequencing needs no bookkeeping. *)
Lemma keeps_bind {A B} (R : @world pyobj → world → Prop)
    (m : M A) (k : A → M B) :
  (∀ w1 w2 w3, R w1 w2 → R w2 w3 → R w1 w3) →
  ensures m (λ w _ w', R w w') →
  (∀ a, ensures (k a) (λ w _ w', R w w')) →
  ensures (bind m k) (λ w _ w', R w w').
Proof.
  intros Htrans Hm Hk. eapply ensures_bind; [exact Hm|exact Hk|].
  cbn. intros w a w1 b w2. apply Htrans.
Qed.

Lemma keeps_ret {A} (R : @world pyobj → world → Prop) (a : A) :
  (∀ w, R w w) → ensures (ret a) (λ w _ w', R w w').
Proof. intros Hrefl w b w' [= <- <-]. apply Hrefl. Qed.

Lemma keeps_get (R : @world pyobj → world → Prop) :
  (∀ w, R w w) → ensures get (λ w _ w', R w w').
Proof. intros Hrefl w b w' [= <- <-]. apply Hrefl. Qed.

Lemma keeps_raise {A} (R : @world pyobj → world → Prop) e :
  ensures (raise (A:=A) e) (λ w _ w', R w w').
Proof. intros w b w' H. discriminate H. Qed.

(** ** [grows] is a preorder, and every step of the manager is in it *)

Lemma cruncher_kept_refl (cr : @Cruncher pyobj) : cruncher_kept cr cr.
Proof. repeat split; auto. Qed.

Lemma cruncher_kept_trans (cr1 cr2 cr3 : @Cruncher pyobj) :
  cruncher_kept cr1 cr2 → cruncher_kept cr2 cr3 → cruncher_kept cr1 cr3.
Proof.
  intros (A1&A2&A3&A4&A5) (B1&B2&B3&B4&B5). repeat split; try congruence.
  - auto.
  - destruct B5 as [B5|B5]; [|by right]. rewrite B5. done.
Qed.

Lemma grows_refl w : grows w w.
Proof.
  repeat split; try done. intros c cr H. exists cr.
  split; [done|apply cruncher_kept_refl].
Qed.

Lemma grows_trans w1 w2 w3 : grows w1 w2 → grows w2 w3 → grows w1 w3.
Proof.
  intros (A1&A2&A3&A4&A5&A6&A7&A8&A9) (B1&B2&B3&B4&B5&B6&B7&B8&B9).
  split; [congruence|]. split; [by etrans|]. split; [by etrans|].
  split; [by etrans|]. split; [by etrans|]. split; [|split; [|split]].
  - intros j. destruct (A6 j) as [Ha Ha'], (B6 j) as [Hb Hb'].
    split; [congruence|auto].
  - intros c cr H. destruct (A7 c cr H) as (cr2 & H2 & K2).
    destruct (B7 c cr2 H2) as (cr3 & H3 & K3). exists cr3.
    split; [done|]. by eapply cruncher_kept_trans.
  - by etrans.
  - by etrans.
Qed.

(** A change to one cruncher that [cruncher_kept] allows. *)
Lemma heap_insert_kept (heap : list (@Cruncher pyobj)) c old new :
  heap !! c = Some old → cruncher_kept old new →
  ∀ c' cr, heap !! c' = Some cr →
    ∃ cr', <[c:=new]> heap !! c' = Some cr' ∧ cruncher_kept cr cr'.
Proof.
  intros Hold Hkept c' cr H. destruct (decide (c = c')) as [->|Hne].
  - exists new. assert (cr = old) as -> by congruence. split; [|done].
    apply list_lookup_insert_eq. by eapply lookup_lt_Some.
  - exists cr. rewrite list_lookup_insert_ne by done.
    split; [done|apply cruncher_kept_refl].
Qed.

Lemma grows_same_but (w w' : @world pyobj) :
  cruncher_type w' = cruncher_type w →
  jobs w' `sublist_of` jobs w →
  nodes (tree w) `prefix_of` nodes (tree w') →
  ends (tree w) `prefix_of` ends (tree w') →
  calls w `prefix_of` calls w' →
  (∀ j, crunching_profile (job_heap w' j) = crunching_profile (job_heap w j)
        ∧ (resulted_in_end (job_heap w j) = true →
           resulted_in_end (job_heap w' j) = true)) →
  (∀ c cr, cruncher_heap w !! c = Some cr →
     ∃ cr', cruncher_heap w' !! c = Some cr' ∧ cruncher_kept cr cr') →
  dom (step_profiles w) ⊆ dom (step_profiles w') →
  dom (crunching_profiles_change_tracker w)
    ⊆ dom (crunching_profiles_change_tracker w') →
  grows w w'.
Proof. unfold grows. auto 10. Qed.

Lemma heap_same_kept (heap : list (@Cruncher pyobj)) :
  ∀ c cr, heap !! c = Some cr →
    ∃ cr', heap !! c = Some cr' ∧ cruncher_kept cr cr'.
Proof. intros c cr H. exists cr. split; [done|apply cruncher_kept_refl]. Qed.

Lemma grows_after_retire c cr w :
  cruncher_heap w !! c = Some cr → grows w (after_retire c cr w).
Proof.
  intros Hcr. apply grows_same_but; simpl_proj; try done.
  - by apply prefix_app_r.
  - apply heap_insert_kept with (old := cr); [done|]. repeat split; auto.
Qed.

Lemma grows_after_update c cr cp w :
  cruncher_heap w !! c = Some cr → grows w (after_update c cr cp w).
Proof.
  intros Hcr. apply grows_same_but; simpl_proj; try done.
  - by apply prefix_app_r.
  - apply heap_insert_kept with (old := cr); [done|]. repeat split; auto.
Qed.

Lemma grows_after_iterate c cr w :
  cruncher_heap w !! c = Some cr → grows w (after_iterate c cr w).
Proof.
  intros Hcr. apply grows_same_but; simpl_proj; try done.
  apply heap_insert_kept with (old := cr); [done|]. repeat split; auto.
Qed.

Lemma grows_after_check_in cp w : grows w (after_check_in cp w).
Proof.
  apply grows_same_but; simpl_proj; try done; try apply heap_same_kept.
  rewrite dom_insert_L. set_solver.
Qed.

Lemma grows_set_jobs l w : l `sublist_of` jobs w → grows w (set_jobs l w).
Proof.
  intros Hl. apply grows_same_but; simpl_proj; try done. apply heap_same_kept.
Qed.

Lemma grows_set_crunchers m w : grows w (set_crunchers m w).
Proof.
  apply grows_same_but; simpl_proj; try done. apply heap_same_kept.
Qed.

Lemma grows_after_set_node j leaf w : grows w (after_set_node j leaf w).
Proof.
  apply grows_same_but; simpl_proj; try done; try apply heap_same_kept.
  intros j'. destruct (decide (j' = j)) as [->|Hne].
  - by rewrite fn_lookup_insert.
  - by rewrite fn_lookup_insert_ne.
Qed.

Lemma grows_after_create j w : grows w (after_create j w).
Proof.
  apply grows_same_but; simpl_proj; try done.
  - by apply prefix_app_r.
  - intros c cr H. exists cr. split; [by apply lookup_app_l_Some|].
    apply cruncher_kept_refl.
  - rewrite dom_insert_L. set_solver.
  - rewrite dom_insert_L. set_solver.
Qed.

Lemma grows_after_cond_create j w : grows w (after_cond_create j w).
Proof.
  unfold after_cond_create.
  destruct (still_in_editing _); [apply grows_refl|apply grows_after_create].
Qed.

Local Abbreviation growing m := (ensures m (λ w _ w', grows w w')).

Lemma list_remove_sublist j l l' : list_remove j l = Some l' → l' `sublist_of` l.
Proof.
  revert l'. induction l as [|x l IH]; intros l' H; [done|].
  cbn [list_remove] in H. case_bool_decide.
  - injection H as <-. by apply sublist_cons.
  - destruct (list_remove j l) as [l0|]; [|done]. injection H as <-.
    apply sublist_skip. by apply IH.
Qed.

Lemma growing_get_job j : growing (get_job (pyobj:=pyobj) j).
Proof. intros w a w' [= <- <-]. apply grows_refl. Qed.

Lemma growing_cruncher_is_alive c : growing (cruncher_is_alive (pyobj:=pyobj) c).
Proof. intros w a w' (-> & _)%cruncher_is_alive_inv. apply grows_refl. Qed.

Lemma growing_cruncher_get_type c : growing (cruncher_get_type (pyobj:=pyobj) c).
Proof. intros w a w' (-> & _)%cruncher_get_type_inv. apply grows_refl. Qed.

Lemma growing_step_profiles_getitem c :
  growing (step_profiles_getitem (pyobj:=pyobj) c).
Proof. intros w a w' (-> & _)%step_profiles_getitem_inv. apply grows_refl. Qed.

Lemma growing_cruncher_retire c : growing (cruncher_retire (pyobj:=pyobj) c).
Proof.
  intros w a w' (cr & Hcr & ->)%cruncher_retire_inv. by apply grows_after_retire.
Qed.

Lemma growing_cruncher_update c cp :
  growing (cruncher_update_crunching_profile (pyobj:=pyobj) c cp).
Proof.
  intros w a w' (cr & Hcr & ->)%cruncher_update_crunching_profile_inv.
  by apply grows_after_update.
Qed.

Lemma growing_check_in cp : growing (change_tracker_check_in (pyobj:=pyobj) cp).
Proof.
  intros w a w' ->%change_tracker_check_in_inv. apply grows_after_check_in.
Qed.

Lemma growing_jobs_remove j : growing (jobs_remove (pyobj:=pyobj) j).
Proof.
  intros w a w' (l & Hl & ->)%jobs_remove_inv. apply grows_set_jobs.
  by eapply list_remove_sublist.
Qed.

Lemma growing_crunchers_delitem j : growing (crunchers_delitem (pyobj:=pyobj) j).
Proof.
  intros w a w' (_ & ->)%crunchers_delitem_inv. apply grows_set_crunchers.
Qed.

Lemma growing_job_set_node j leaf : growing (job_set_node (pyobj:=pyobj) j leaf).
Proof. intros w [] w' [= <-]. apply (grows_after_set_node j leaf w). Qed.

Lemma growing_conditional_create j :
  growing (__conditional_create_cruncher (pyobj:=pyobj) j).
Proof.
  intros w [] w' H. rewrite conditional_create_cruncher_eq in H.
  injection H as <-. apply grows_after_cond_create.
Qed.

Lemma growing_add_work_to_tree c j retire :
  growing (__add_work_to_tree (pyobj:=pyobj) c j retire).
Proof.
  intros w [n leaf] w' (cr & w1 & _ & Hcr & Hloop & ->)%add_work_to_tree_Ok_inv.
  apply add_work_loop_frame in Hloop
    as (Hjobs&_&Htr&Hty&Hheap&Hcalls&Hsp'&Hspc&Hj'&_&Hcp&Hflag&[added Hn]
        &[made He]&_).
  assert (grows w w1) as Hg.
  { apply grows_same_but; try done.
    - by rewrite Hjobs.
    - rewrite Hn. by apply prefix_app_r.
    - rewrite He. by apply prefix_app_r.
    - by rewrite Hcalls.
    - intros j'. destruct (decide (j' = j)) as [->|Hne].
      + split; [done|]. rewrite Hflag. simpl_proj. by intros ->.
      + by rewrite Hj'.
    - rewrite Hheap. simpl_proj.
      apply heap_insert_kept with (old := cr); [done|]. repeat split; auto.
    - intros c' Hc'%elem_of_dom. apply elem_of_dom.
      destruct (decide (c' = c)) as [->|Hne]; [by apply Hspc|].
      by rewrite Hsp'.
    - by rewrite Htr. }
  destruct (retire || _); [|done].
  eapply grows_trans; [done|]. apply grows_after_retire.
  rewrite Hheap. simpl_proj. apply list_lookup_insert_eq. by eapply lookup_lt_Some.
Qed.

Create HintDb growing.

Local Hint Resolve growing_get_job growing_cruncher_is_alive
  growing_cruncher_get_type growing_step_profiles_getitem
  growing_cruncher_retire growing_cruncher_update growing_check_in
  growing_jobs_remove growing_crunchers_delitem growing_job_set_node
  growing_conditional_create growing_add_work_to_tree : growing.

(** Walks through a computation built from steps known to be [growing]. *)
Ltac growing_steps :=
  repeat first
    [ apply keeps_ret; apply grows_refl
    | apply keeps_get; apply grows_refl
    | apply keeps_raise
    | solve [auto with growing]
    | apply keeps_bind; [apply grows_trans| |intros]
    | match goal with
      | |- ensures (match ?x with _ => _ end) _ => destruct x
      | |- ensures (if ?b then _ else _) _ => destruct b
      end ].

Lemma growing_sync_job j t : growing (sync_job (pyobj:=pyobj) j t).
Proof. unfold sync_job. growing_steps. Qed.

Lemma growing_reap j c t : growing (reap (pyobj:=pyobj) j c t).
Proof. unfold reap. growing_steps. Qed.

Lemma growing_reap_loop items : ∀ t, growing (reap_loop (pyobj:=pyobj) items t).
Proof.
  induction items as [|[j c] items IH]; intros t; cbn [reap_loop].
  - apply keeps_ret, grows_refl.
  - apply keeps_bind; [apply grows_trans|apply growing_reap|auto].
Qed.

Lemma growing_sync_loop todo : ∀ t, growing (sync_loop (pyobj:=pyobj) todo t).
Proof.
  induction todo as [|j todo IH]; intros t; cbn [sync_loop].
  - apply keeps_ret, grows_refl.
  - apply keeps_bind; [apply grows_trans|apply growing_sync_job|auto].
Qed.

Lemma growing_sync_crunchers : growing (sync_crunchers (pyobj:=pyobj)).
Proof.
  unfold sync_crunchers.
  apply keeps_bind; [apply grows_trans|apply keeps_get, grows_refl|intros w0].
  apply keeps_bind; [apply grows_trans|apply growing_reap_loop|intros t1].
  apply keeps_bind; [apply grows_trans|apply keeps_get, grows_refl|intros w1].
  apply keeps_bind; [apply grows_trans|apply growing_sync_loop|intros t2].
  apply keeps_ret, grows_refl.
Qed.

(** ** Counting what a drain and a sync add to the tree *)

Lemma add_work_loop_counts c j things : ∀ (cur : @Node pyobj) n w n' cur' w' sp0,
  step_profiles w !! c = Some sp0 →
  add_work_loop c j things cur n w = Ok ((n', cur'), w') →
  ∃ added made,
    nodes (tree w') = nodes (tree w) ++ added
    ∧ ends (tree w') = ends (tree w) ++ made
    ∧ n' = n + length added
    ∧ state <$> added = states_of things
    ∧ length made = count_end_markers things
    ∧ cur' = default cur (last added)
    ∧ step_profiles w' !! c = Some (profile_after sp0 things).
Proof.
  induction things as [|x things IH]; intros cur n w n' cur' w' sp0 Hsp H.
  - injection H as <- <- <-. exists [], [].
    rewrite !app_nil_r, Nat.add_0_r. done.
  - destruct x as [st| |sp|r]; cbn [add_work_loop] in H.
    + apply bind_Ok_inv in H as (sp & w1 & (-> & Hsp1)%step_profiles_getitem_inv & H).
      apply bind_Ok_inv in H as (nn & w2 & H2 & H).
      cbv [tree_add_state bind get modify ret] in H2. injection H2 as <- <-.
      eapply IH in H as (added & made & Hn & He & Hc & Hst & Hm & Hcur & Hp);
        [|exact Hsp].
      simpl_world_in Hn. simpl_world_in He. cbn [tree nodes ends] in Hn, He.
      eexists (_ :: added), made. rewrite Hn, He, <- app_assoc.
      repeat split; try done.
      * cbn [length]. lia.
      * cbn. by rewrite Hst.
      * by rewrite default_last_cons.
    + apply bind_Ok_inv in H as (sp & w1 & (-> & Hsp1)%step_profiles_getitem_inv & H).
      apply bind_Ok_inv in H as ([] & w2 & H2 & H).
      apply bind_Ok_inv in H as ([] & w3 & H3 & H).
      cbv [tree_make_end modify] in H2. injection H2 as <-.
      cbv [job_set_resulted_in_end get_job set_job bind get modify ret] in H3.
      injection H3 as <-.
      eapply IH in H as (added & made & Hn & He & Hc & Hst & Hm & Hcur & Hp);
        [|exact Hsp].
      simpl_world_in Hn. simpl_world_in He. cbn [tree nodes ends] in Hn, He.
      exists added, ((node_ident cur, sp) :: made). rewrite Hn, He, <- app_assoc.
      repeat split; try done.
      unfold count_end_markers. rewrite filter_cons_True by done.
      cbn [length]. by rewrite Hm.
    + apply bind_Ok_inv in H as ([] & w1 & H1 & H).
      cbv [step_profiles_setitem modify] in H1. injection H1 as <-.
      eapply (IH _ _ _ _ _ _ sp) in H
        as (added & made & Hn & He & Hc & Hst & Hm & Hcur & Hp);
        [|simpl_proj; apply lookup_insert_eq].
      exists added, made. repeat split; try done.
    + by destruct (percent_s r).
Qed.

(** A drain that returns [n] has appended [n] nodes. *)
Lemma add_work_to_tree_appends c j retire w n (leaf : @Node pyobj) w' :
  __add_work_to_tree c j retire w = Ok ((n, leaf), w') →
  ∃ added, nodes (tree w') = nodes (tree w) ++ added ∧ n = length added.
Proof.
  intros (cr & w1 & [sp0 Hsp] & Hcr & Hloop & ->)%add_work_to_tree_Ok_inv.
  eapply add_work_loop_counts in Hloop
    as (added & made & Hn & He & Hc & Hst & Hm & Hcur & Hp); [|exact Hsp].
  exists added. destruct (retire || _); simpl_proj; split; try done; lia.
Qed.

(** X1.  Whatever the queue holds, a drain that returns gives the number of
    states in the queue, has appended one node per state, in order, and one
    end per end marker; the leaf returned is the last node added (the job's
    node if none was), and the step profile recorded for the cruncher is the
    last one queued (the old one if none was).  An end marker does not stop
    the drain. *)
Theorem add_work_to_tree_counts c j retire w n (leaf : @Node pyobj) w' :
  __add_work_to_tree c j retire w = Ok ((n, leaf), w') →
  ∃ cr sp0 added made,
    cruncher_heap w !! c = Some cr
    ∧ step_profiles w !! c = Some sp0
    ∧ n = length (states_of (work_queue cr))
    ∧ nodes (tree w') = nodes (tree w) ++ added
    ∧ state <$> added = states_of (work_queue cr)
    ∧ ends (tree w') = ends (tree w) ++ made
    ∧ length made = count_end_markers (work_queue cr)
    ∧ leaf = default (node (job_heap w j)) (last added)
    ∧ step_profiles w' !! c = Some (profile_after sp0 (work_queue cr)).
Proof.
  intros (cr & w1 & [sp0 Hsp] & Hcr & Hloop & ->)%add_work_to_tree_Ok_inv.
  eapply add_work_loop_counts in Hloop
    as (added & made & Hn & He & Hc & Hst & Hm & Hcur & Hp); [|exact Hsp].
  exists cr, sp0, added, made.
  assert (length added = length (states_of (work_queue cr))) as Hlen
    by (by rewrite <- Hst, length_fmap).
  destruct (retire || _); simpl_proj; repeat split; try done; lia.
Qed.

Local Abbreviation quiet m := (ensures m (λ w _ w', tree w' = tree w)).

Lemma quiet_get_job j : quiet (get_job (pyobj:=pyobj) j).
Proof. by intros w a w' [= <- <-]. Qed.

Lemma quiet_cruncher_is_alive c : quiet (cruncher_is_alive (pyobj:=pyobj) c).
Proof. by intros w a w' (-> & _)%cruncher_is_alive_inv. Qed.

Lemma quiet_cruncher_get_type c : quiet (cruncher_get_type (pyobj:=pyobj) c).
Proof. by intros w a w' (-> & _)%cruncher_get_type_inv. Qed.

Lemma quiet_step_profiles_getitem c :
  quiet (step_profiles_getitem (pyobj:=pyobj) c).
Proof. by intros w a w' (-> & _)%step_profiles_getitem_inv. Qed.

Lemma quiet_cruncher_retire c : quiet (cruncher_retire (pyobj:=pyobj) c).
Proof. by intros w a w' (cr & Hcr & ->)%cruncher_retire_inv. Qed.

Lemma quiet_cruncher_update c cp :
  quiet (cruncher_update_crunching_profile (pyobj:=pyobj) c cp).
Proof. by intros w a w' (cr & Hcr & ->)%cruncher_update_crunching_profile_inv. Qed.

Lemma quiet_check_in cp : quiet (change_tracker_check_in (pyobj:=pyobj) cp).
Proof. by intros w a w' ->%change_tracker_check_in_inv. Qed.

Lemma quiet_jobs_remove j : quiet (jobs_remove (pyobj:=pyobj) j).
Proof. by intros w a w' (l & Hl & ->)%jobs_remove_inv. Qed.

Lemma quiet_crunchers_delitem j : quiet (crunchers_delitem (pyobj:=pyobj) j).
Proof. by intros w a w' (_ & ->)%crunchers_delitem_inv. Qed.

Lemma quiet_job_set_node j leaf : quiet (job_set_node (pyobj:=pyobj) j leaf).
Proof. by intros w [] w' [= <-]. Qed.

Lemma quiet_conditional_create j :
  quiet (__conditional_create_cruncher (pyobj:=pyobj) j).
Proof.
  intros w [] w' H. rewrite conditional_create_cruncher_eq in H.
  injection H as <-. by destruct (still_in_editing _).
Qed.

Create HintDb quiet.

Local Hint Resolve quiet_get_job quiet_cruncher_is_alive
  quiet_cruncher_get_type quiet_step_profiles_getitem quiet_cruncher_retire
  quiet_cruncher_update quiet_check_in quiet_jobs_remove
  quiet_crunchers_delitem quiet_job_set_node quiet_conditional_create : quiet.

(** A computation that leaves the tree alone and returns [v]. *)
Local Abbreviation quietly_returns v m :=
  (ensures m (λ w b w', tree w' = tree w ∧ b = v)).

Lemma quietly_returns_bind {A} (v : nat) (m : @M pyobj A) (k : A → M nat) :
  quiet m → (∀ a, quietly_returns v (k a)) → quietly_returns v (bind m k).
Proof.
  intros Hm Hk. eapply ensures_bind; [exact Hm|exact Hk|].
  cbn. intros w a w1 b w2 H1 [H2 ->]. split; [congruence|done].
Qed.

Lemma quietly_returns_ret (v : nat) : quietly_returns v (ret (pyobj:=pyobj) v).
Proof. by intros w a w' [= <- <-]. Qed.

Ltac quiet_steps :=
  repeat first
    [ apply quietly_returns_ret
    | apply keeps_ret; reflexivity
    | apply keeps_get; reflexivity
    | apply keeps_raise
    | solve [auto with quiet]
    | apply quietly_returns_bind; [|intros]
    | match goal with
      | |- ensures (match ?x with _ => _ end) _ => destruct x
      | |- ensures (if ?b then _ else _) _ => destruct b
      end ].

(** The number a computation adds to its counter is the number of nodes it
    appends to the tree. *)
Local Abbreviation counts t m :=
  (ensures m (λ w t' w',
     ∃ added, nodes (tree w') = nodes (tree w) ++ added
              ∧ t' = t + length added)).

Lemma counts_of_quiet (t : nat) (m : @M pyobj nat) :
  quietly_returns t m → counts t m.
Proof.
  intros Hm w t' w' [-> ->]%Hm. exists []. by rewrite app_nil_r, Nat.add_0_r.
Qed.

Lemma counts_after_drain c j retire t (k : nat * @Node pyobj → M nat) :
  (∀ n leaf, quietly_returns (t + n) (k (n, leaf))) →
  counts t (bind (__add_work_to_tree c j retire) k).
Proof.
  intros Hk w t' w' ([n leaf] & w1 & Hd & H)%bind_Ok_inv.
  apply add_work_to_tree_appends in Hd as (added & Hnodes & Hn).
  apply Hk in H as [Htree ->]. exists added. rewrite Htree.
  split; [done|]. by rewrite Hn.
Qed.

Lemma ensures_bind_get {B} (k : @world pyobj → M B) Q :
  (∀ w b w', k w w = Ok (b, w') → Q w b w') → ensures (bind get k) Q.
Proof. intros Hk w b w' (w0 & w0' & [= <- <-] & H)%bind_Ok_inv. auto. Qed.

Lemma counts_sync_job j t : counts t (sync_job (pyobj:=pyobj) j t).
Proof.
  unfold sync_job. apply ensures_bind_get. intros w t' w' H.
  destruct (crunchers w !! j) as [c|].
  - refine (counts_after_drain c j false t _ _ w t' w' H).
    intros n leaf. cbv beta iota. quiet_steps.
  - refine (counts_of_quiet t _ _ w t' w' H). quiet_steps.
Qed.

Lemma counts_reap j c t : counts t (reap (pyobj:=pyobj) j c t).
Proof.
  unfold reap. apply ensures_bind_get. intros w t' w' H.
  destruct (negb _).
  - refine (counts_after_drain c j true t _ _ w t' w' H).
    intros n leaf. cbv beta iota. quiet_steps.
  - refine (counts_of_quiet t _ _ w t' w' H). quiet_steps.
Qed.

Lemma counts_bind (t : nat) (m : @M pyobj nat) (k : nat → M nat) :
  counts t m → (∀ t1, counts t1 (k t1)) → counts t (bind m k).
Proof.
  intros Hm Hk. eapply ensures_bind; [exact Hm|exact Hk|].
  cbn. intros w t1 w1 t2 w2 (added1 & H1 & ->) (added2 & H2 & ->).
  exists (added1 ++ added2). rewrite H2, H1, <- app_assoc, length_app.
  split; [done|lia].
Qed.

Lemma counts_ret (t : nat) : counts t (ret (pyobj:=pyobj) t).
Proof.
  intros w a w' [= <- <-]. exists []. by rewrite app_nil_r, Nat.add_0_r.
Qed.

Lemma counts_reap_loop items : ∀ t, counts t (reap_loop (pyobj:=pyobj) items t).
Proof.
  induction items as [|[j c] items IH]; intros t; cbn [reap_loop].
  - apply counts_ret.
  - apply counts_bind; [apply counts_reap|auto].
Qed.

Lemma counts_sync_loop todo : ∀ t, counts t (sync_loop (pyobj:=pyobj) todo t).
Proof.
  induction todo as [|j todo IH]; intros t; cbn [sync_loop].
  - apply counts_ret.
  - apply counts_bind; [apply counts_sync_job|auto].
Qed.

(** X2.  The number a completed sync returns is the number of nodes it
    appended to the tree, and the nodes that were there are still there,
    unchanged and in place. *)
Theorem sync_crunchers_counts_added_nodes w t w' :
  sync_crunchers w = Ok (t, w') →
  ∃ added, nodes (tree w') = nodes (tree w) ++ added ∧ length added = t.
Proof.
  intros (t1 & w1 & Hreap & Hloop)%sync_crunchers_inv.
  apply counts_reap_loop in Hreap as (added1 & H1 & ->).
  apply counts_sync_loop in Hloop as (added2 & H2 & ->).
  exists (added1 ++ added2). rewrite H2, H1, <- app_assoc, length_app.
  split; [done|lia].
Qed.

(** ** What a sync never undoes *)

(** X3.  A completed sync leaves every job's crunching profile as it was
    and clears no [resulted_in_end] flag; it adds no job to the list (the
    jobs left are in their old order) and does not change [cruncher_type]. *)
Theorem sync_crunchers_keeps_jobs w t w' :
  sync_crunchers w = Ok (t, w') →
  (∀ j, crunching_profile (job_heap w' j) = crunching_profile (job_heap w j)
        ∧ (resulted_in_end (job_heap w j) = true →
           resulted_in_end (job_heap w' j) = true))
  ∧ jobs w' `sublist_of` jobs w
  ∧ cruncher_type w' = cruncher_type w.
Proof.
  intros (Ht&Hj&_&_&_&Hjob&_)%growing_sync_crunchers. auto.
Qed.

(** X4.  A completed sync drops no cruncher object and changes none beyond
    ordering it to retire, handing it an updated crunching profile and
    taking what is in its queue: class, liveness and starting state stay,
    an order to retire is never withdrawn, and a queue is either as it was
    or empty.  Ends made in the tree and calls made on crunchers are only
    added to. *)
Theorem sync_crunchers_keeps_crunchers w t w' :
  sync_crunchers w = Ok (t, w') →
  (∀ c cr, cruncher_heap w !! c = Some cr →
     ∃ cr', cruncher_heap w' !! c = Some cr' ∧ cruncher_kept cr cr')
  ∧ ends (tree w) `prefix_of` ends (tree w')
  ∧ calls w `prefix_of` calls w'.
Proof.
  intros (_&_&_&He&Hc&_&Hheap&_)%growing_sync_crunchers. auto.
Qed.

(** ** Crunchers and the job list *)

Lemma sync_job_removal j t w t' w' :
  sync_job j t w = Ok (t', w') →
  jobs w' = jobs w
  ∨ (list_remove j (jobs w) = Some (jobs w')
     ∧ crunchers w' !! j = None
     ∧ is_done (job_heap w' j) = true).
Proof.
  intros H. destruct (crunchers w !! j) as [c|] eqn:Hc.
  - pose proof (sync_job_assigned_inv _ _ _ c _ _ Hc H)
      as (n & leaf & w1 & Hd & _ & (_&_&F3&_) & Hjobs & _).
    apply add_work_to_tree_frame in Hd as (Hj1&_).
    destruct Hjobs as [[Hj _]|(Hl & Hnone & Hdone)]; [left; congruence|right].
    rewrite <- Hj1. split; [done|]. split; [done|].
    rewrite F3. simpl_proj. by rewrite fn_lookup_insert.
  - pose proof (sync_job_unassigned_inv _ _ _ _ _ Hc H)
      as (_ & [(Hdone & l & Hl & ->)|(Hdone & ->)]).
    + right. simpl_proj. done.
    + left. by destruct (still_in_editing _).
Qed.

Lemma list_remove_other j l l' x :
  list_remove j l = Some l' → x ≠ j → x ∈ l → x ∈ l'.
Proof.
  intros [_ Hx]%list_remove_count Hne Hin.
  apply list_elem_of_In, (count_occ_In Nat.eq_dec).
  rewrite Hx by done. by apply (count_occ_In Nat.eq_dec), list_elem_of_In.
Qed.

Lemma sync_loop_tracked todo : ∀ t w t' w',
  sync_loop todo t w = Ok (t', w') →
  (∀ j c, crunchers w !! j = Some c → j ∈ jobs w) →
  (∀ j, j ∈ todo →
     j ∈ jobs w ∨ (is_done (job_heap w j) = true ∧ crunchers w !! j = None)) →
  ∀ j c, crunchers w' !! j = Some c → j ∈ jobs w'.
Proof.
  induction todo as [|k todo IH]; intros t w t' w' H HA HB.
  - by injection H as <- <-.
  - cbn [sync_loop] in H. apply bind_Ok_inv in H as (t1 & w1 & Hk & H).
    pose proof (sync_job_removal _ _ _ _ _ Hk) as Hrm.
    pose proof (sync_job_frame _ _ _ _ _ Hk) as (Ho&_).
    assert (∀ j, j ≠ k → j ∈ jobs w → j ∈ jobs w1) as Hkeep.
    { intros j Hne Hin. destruct Hrm as [->|(Hl&_)]; [done|].
      by eapply list_remove_other. }
    assert (is_done (job_heap w k) = true → crunchers w !! k = None →
            is_done (job_heap w1 k) = true ∧ crunchers w1 !! k = None)
      as Hgone.
    { intros Hdone Hnone.
      pose proof (sync_job_unassigned_inv _ _ _ _ _ Hnone Hk)
        as (_ & [(_ & l & Hl & ->)|(Hnot & _)]); [done|congruence]. }
    eapply IH; [done| |].
    + intros j c Hj. destruct (decide (j = k)) as [->|Hne].
      * destruct (HB k) as [Hin|[Hdone Hnone]]; [left| |].
        -- destruct Hrm as [->|(_&?&_)]; [done|congruence].
        -- destruct (Hgone Hdone Hnone). congruence.
      * apply Hkeep; [done|]. apply (HA j c).
        by rewrite <- (proj1 (Ho j Hne)).
    + intros j Hj. destruct (decide (j = k)) as [->|Hne].
      * destruct (HB k) as [Hin|[Hdone Hnone]]; [left| |].
        -- destruct Hrm as [->|(_&?&?)]; [by left|by right].
        -- right. by apply Hgone.
      * destruct (Ho j Hne) as [-> ->].
        destruct (HB j) as [Hin|?]; [by right|left; by apply Hkeep|by right].
Qed.

Lemma sync_crunchers_tracked w t w' :
  sync_crunchers w = Ok (t, w') →
  ∀ j c, crunchers w' !! j = Some c → j ∈ jobs w'.
Proof.
  intros (t1 & w1 & Hreap & Hloop)%sync_crunchers_inv.
  apply reap_loop_frame in Hreap as (Hj&Hc&_&Hout&_).
  eapply sync_loop_tracked; [done| |by left].
  intros j c Hjc.
  destruct (decide (j ∈ jobs w1)) as [|Hnot]; [done|exfalso].
  destruct (Hc j) as [Hn|He]; [congruence|].
  assert ((j, c) ∈ map_to_list (crunchers w)) as Hitem
    by (apply elem_of_map_to_list; congruence).
  rewrite Hj in Hnot. rewrite (Hout j c Hitem Hnot) in Hjc. congruence.
Qed.

(** X5.  After a completed sync every cruncher the manager still tracks
    belongs to a job of the job list. *)
Theorem sync_crunchers_tracks_listed_jobs w t w' :
  sync_crunchers w = Ok (t, w') →
  dom (crunchers w') ⊆ list_to_set (jobs w').
Proof.
  intros H j [c Hc]%elem_of_dom. apply elem_of_list_to_set.
  by eapply sync_crunchers_tracked.
Qed.

Lemma reaped_grows c w w' : reaped c w → grows w w' → reaped c w'.
Proof.
  intros [(cr & Hcr & Hr & Hq) Hcall] (_&_&_&_&Hcalls&_&Hheap&_). split.
  - destruct (Hheap c cr Hcr) as (cr' & Hcr' & _&_&_&Hr'&Hq').
    exists cr'. split; [done|]. split; [auto|].
    destruct Hq' as [->|]; done.
  - by eapply elem_of_prefix.
Qed.

Lemma reap_loop_reaps items j c : ∀ t w t' w',
  reap_loop items t w = Ok (t', w') →
  (j, c) ∈ items → j ∉ jobs w → reaped c w'.
Proof.
  induction items as [|[j0 c0] items IH]; intros t w t' w' H Hin Hout.
  - by apply elem_of_nil in Hin.
  - cbn [reap_loop] in H. apply bind_Ok_inv in H as (t1 & w1 & Hr & H).
    apply elem_of_cons in Hin as [[= <- <-]|Hin].
    + eapply reaped_grows; [|by eapply growing_reap_loop].
      apply reap_inv in Hr as [(? & _)|(_ & n & leaf & w2 & Hd & _ & ->)]; [done|].
      apply add_work_to_tree_Ok_inv in Hd as (cr & w3 & _ & Hcr & Hloop & ->).
      apply add_work_loop_frame in Hloop as (_&_&_&_&Hheap&_).
      cbn [orb]. split; simpl_proj.
      * exists (ordered_to_retire (emptied cr)). split; [|done].
        apply list_lookup_insert_eq. rewrite Hheap. simpl_proj.
        rewrite length_insert. by eapply lookup_lt_Some.
      * apply elem_of_app. right. by left.
    + eapply IH; [done|done|].
      apply reap_frame in Hr as (->&_). done.
Qed.

(** X6.  A job taken off the list is reaped by the next completed sync:
    its cruncher has been ordered to retire, its queue has been drained,
    and the manager no longer tracks a cruncher for the job. *)
Theorem sync_crunchers_reaps_cancelled w j c t w' :
  crunchers w !! j = Some c →
  j ∉ jobs w →
  sync_crunchers w = Ok (t, w') →
  crunchers w' !! j = None ∧ reaped c w'.
Proof.
  intros Hc Hout Hsync. split.
  - destruct (crunchers w' !! j) as [c'|] eqn:Hc'; [exfalso|done].
    apply (sync_crunchers_tracked _ _ _ Hsync) in Hc'.
    apply growing_sync_crunchers in Hsync as (_&Hsub&_).
    apply Hout. by eapply elem_of_sublist.
  - apply sync_crunchers_inv in Hsync as (t1 & w1 & Hreap & Hloop).
    eapply reaped_grows; [|by eapply growing_sync_loop].
    eapply reap_loop_reaps; [done| |done]. by apply elem_of_map_to_list.
Qed.

(** ** The loop body on a job that has a cruncher, unfolded *)

Lemma jobs_remove_eq j w :
  jobs_remove j w =
  match list_remove j (jobs w) with
  | Some l => Ok (tt, set_jobs l w)
  | None => Raise ValueError
  end.
Proof.
  cbv [jobs_remove bind get modify raise]. by destruct (list_remove j (jobs w)).
Qed.

Lemma crunchers_delitem_eq j w c :
  crunchers w !! j = Some c →
  crunchers_delitem j w = Ok (tt, set_crunchers (delete j (crunchers w)) w).
Proof. intros H. cbv [crunchers_delitem bind get modify raise]. by rewrite H. Qed.

Lemma cruncher_update_crunching_profile_eq c cp w cr :
  cruncher_heap w !! c = Some cr →
  cruncher_update_crunching_profile c cp w = Ok (tt, after_update c cr cp w).
Proof.
  intros H.
  cbv [cruncher_update_crunching_profile get_cruncher bind get ret raise
       set_cruncher log modify].
  by rewrite H.
Qed.

Lemma change_tracker_check_in_eq cp w :
  change_tracker_check_in cp w =
  Ok (negb (bool_decide (crunching_profiles_change_tracker w !! profile_ident cp
                         = Some (version_of cp))),
      after_check_in cp w).
Proof. reflexivity. Qed.

Lemma sync_job_assigned_eq j t w c n (leaf : @Node pyobj) w1 cr1 recorded :
  crunchers w !! j = Some c →
  __add_work_to_tree c j false w = Ok ((n, leaf), w1) →
  cruncher_heap w1 !! c = Some cr1 →
  step_profiles w1 !! c = Some recorded →
  sync_job j t w =
  let w2 := after_set_node j leaf w1 in
  let jb := with_node leaf (job_heap w1 j) in
  let cp := crunching_profile jb in
  if is_done jb then
    match list_remove j (jobs w1) with
    | Some l =>
        Ok (t + n,
            set_crunchers (delete j (crunchers w1))
              (if alive cr1 then after_retire c cr1 (set_jobs l w2)
               else set_jobs l w2))
    | None => Raise ValueError
    end
  else if alive cr1 && bool_decide (cruncher_class_of cr1 = cruncher_type w1)
  then
    if StepProfile__ne__ (step_profile cp) recorded
    then Ok (t + n, after_cond_create j (after_retire c cr1 w2))
    else if bool_decide (crunching_profiles_change_tracker w1
                           !! profile_ident cp = Some (version_of cp))
    then Ok (t + n, after_check_in cp w2)
    else Ok (t + n, after_update c cr1 cp (after_check_in cp w2))
  else Ok (t + n, after_cond_create j (after_retire c cr1 w2)).
Proof.
  intros Hc Hd Hcr1 Hrec. cbv zeta.
  destruct (add_work_to_tree_frame _ _ _ _ _ _ _ Hd) as (_&Hcrs&_).
  set (w2 := after_set_node j leaf w1).
  assert (job_heap w2 j = with_node leaf (job_heap w1 j)) as Hjob
    by apply fn_lookup_insert.
  unfold sync_job. mstep. rewrite Hc. rewrite (bind_Ok _ _ _ _ _ Hd).
  mstep. mstep. change (set_job_heap _ w1) with w2. rewrite Hjob.
  assert (∀ w3, cruncher_heap w3 = cruncher_heap w1 →
                cruncher_is_alive c w3 = Ok (alive cr1, w3)) as Ha.
  { intros w3 H3. apply cruncher_is_alive_eq. by rewrite H3. }
  assert (∀ w3, cruncher_heap w3 = cruncher_heap w1 →
                cruncher_retire c w3 = Ok (tt, after_retire c cr1 w3)) as Hr.
  { intros w3 H3. by rewrite cruncher_retire_eq, H3, Hcr1. }
  destruct (is_done (with_node leaf (job_heap w1 j))) eqn:Hdone; cbn [negb].
  - change (jobs w1) with (jobs w2).
    destruct (list_remove j (jobs w2)) as [l|] eqn:Hl.
    2:{ apply bind_Raise. by rewrite jobs_remove_eq, Hl. }
    erewrite bind_Ok by (by rewrite jobs_remove_eq, Hl).
    rewrite (bind_Ok _ _ _ _ _ (Ha (set_jobs l w2) eq_refl)).
    destruct (alive cr1).
    + rewrite (bind_Ok _ _ _ _ _ (Hr (set_jobs l w2) eq_refl)).
      erewrite bind_Ok
        by (apply (crunchers_delitem_eq j _ c); unfold w2; simpl_proj;
            by rewrite Hcrs).
      done.
    + mstep.
      erewrite bind_Ok
        by (apply (crunchers_delitem_eq j _ c); unfold w2; simpl_proj;
            by rewrite Hcrs).
      done.
  - rewrite (bind_Ok _ _ _ _ _ (Ha w2 eq_refl)).
    rewrite (bind_Ok _ _ _ _ _ (cruncher_get_type_eq c w2 cr1 Hcr1)). mstep.
    change (cruncher_type w2) with (cruncher_type w1).
    destruct (alive cr1 && bool_decide _) eqn:Hok.
    + rewrite (bind_Ok _ _ _ _ _ (step_profiles_getitem_eq c w2 _ Hrec)).
      destruct (StepProfile__ne__ _ _).
      * apply andb_true_iff in Hok as [Halive _].
        rewrite (bind_Ok _ _ _ _ _ (Ha w2 eq_refl)), Halive.
        rewrite (bind_Ok _ _ _ _ _ (Hr w2 eq_refl)).
        erewrite bind_Ok by apply conditional_create_cruncher_eq. done.
      * rewrite (bind_Ok _ _ _ _ _ (change_tracker_check_in_eq _ w2)).
        change (crunching_profiles_change_tracker w2)
          with (crunching_profiles_change_tracker w1).
        destruct (decide (crunching_profiles_change_tracker w1
                            !! profile_ident
                                 (crunching_profile
                                    (with_node leaf (job_heap w1 j)))
                          = Some (version_of
                                    (crunching_profile
                                       (with_node leaf (job_heap w1 j))))))
          as [Hv|Hv].
        { by rewrite !(bool_decide_eq_true_2 _ Hv). }
        rewrite !(bool_decide_eq_false_2 _ Hv). cbn [negb].
        erewrite bind_Ok
          by (by apply (cruncher_update_crunching_profile_eq c _ _ cr1)).
        done.
    + rewrite (bind_Ok _ _ _ _ _ (Hr w2 eq_refl)).
      erewrite bind_Ok by apply conditional_create_cruncher_eq. done.
Qed.

(** ** The branches of the loop body *)

(** X7.  A job that is not done, whose cruncher is alive, of the current
    type and works with the job's step profile, but whose crunching profile
    is not as last checked in: the loop body makes one call,
    [update_crunching_profile] with the job's profile, on that cruncher;
    it keeps the cruncher, creates none, and checks the profile in. *)
Theorem sync_job_updates_profile w j c cr1 t n new_leaf w1 :
  crunchers w !! j = Some c →
  __add_work_to_tree c j false w = Ok ((n, new_leaf), w1) →
  cruncher_heap w1 !! c = Some cr1 →
  is_done (with_node new_leaf (job_heap w1 j)) = false →
  alive cr1 = true →
  cruncher_class_of cr1 = cruncher_type w1 →
  step_profiles w1 !! c = Some (step_profile (crunching_profile (job_heap w1 j))) →
  crunching_profiles_change_tracker w1
    !! profile_ident (crunching_profile (job_heap w1 j))
  ≠ Some (version_of (crunching_profile (job_heap w1 j))) →
  ∃ w',
    sync_job j t w = Ok (t + n, w')
    ∧ calls w' = calls w1
                 ++ [CallUpdateCrunchingProfile c
                       (crunching_profile (job_heap w1 j))]
    ∧ cruncher_heap w'
      = <[c := with_profile (crunching_profile (job_heap w1 j)) cr1]>
          (cruncher_heap w1)
    ∧ crunchers w' !! j = Some c
    ∧ crunching_profiles_change_tracker w'
        !! profile_ident (crunching_profile (job_heap w1 j))
      = Some (version_of (crunching_profile (job_heap w1 j))).
Proof.
  intros Hc Hd Hcr1 Hdone Halive Hclass Hrec Hver.
  eexists. split.
  - rewrite (sync_job_assigned_eq j t w c n new_leaf w1 cr1 _ Hc Hd Hcr1 Hrec).
    cbv zeta. rewrite Hdone, Halive, bool_decide_eq_true_2 by done. cbn [andb].
    change (crunching_profile (with_node new_leaf (job_heap w1 j)))
      with (crunching_profile (job_heap w1 j)).
    rewrite (proj1 (not_true_iff_false _))
      by (rewrite StepProfile_ne_spec; by intros []).
    rewrite bool_decide_eq_false_2 by done. reflexivity.
  - simpl_proj. repeat split.
    + destruct (add_work_to_tree_frame _ _ _ _ _ _ _ Hd) as (_&->&_). done.
    + apply lookup_insert_eq.
Qed.

(** X8.  A job that is not done, whose cruncher has died or is not of the
    current type, and whose node is not in editing: the loop body retires
    the old cruncher and starts a new one of the current type on the job's
    node, now the job's cruncher. *)
Theorem sync_job_replaces_cruncher w j c cr1 t n new_leaf w1 recorded :
  crunchers w !! j = Some c →
  __add_work_to_tree c j false w = Ok ((n, new_leaf), w1) →
  cruncher_heap w1 !! c = Some cr1 →
  step_profiles w1 !! c = Some recorded →
  is_done (with_node new_leaf (job_heap w1 j)) = false →
  alive cr1 = false ∨ cruncher_class_of cr1 ≠ cruncher_type w1 →
  still_in_editing new_leaf = false →
  ∃ w' c',
    sync_job j t w = Ok (t + n, w')
    ∧ c' = length (cruncher_heap w1)
    ∧ calls w' = calls w1 ++ [CallRetire c; CallStart c']
    ∧ crunchers w' !! j = Some c'
    ∧ cruncher_heap w'
      = <[c := ordered_to_retire cr1]> (cruncher_heap w1)
        ++ [{| cruncher_class_of := cruncher_type w;
               initial_state := state new_leaf;
               cruncher_profile := crunching_profile (job_heap w1 j);
               alive := true;
               retire_ordered := false;
               work_queue := [] |}]
    ∧ step_profiles w' !! c'
      = Some (step_profile (crunching_profile (job_heap w1 j))).
Proof.
  intros Hc Hd Hcr1 Hrec Hdone Hbad Hedit.
  destruct (add_work_to_tree_frame _ _ _ _ _ _ _ Hd) as (_&_&_&Hty&_).
  eexists _, _. split; [|split; [reflexivity|]].
  - rewrite (sync_job_assigned_eq j t w c n new_leaf w1 cr1 _ Hc Hd Hcr1 Hrec).
    cbv zeta. rewrite Hdone.
    assert (alive cr1 && bool_decide (cruncher_class_of cr1 = cruncher_type w1)
            = false) as ->.
    { destruct Hbad as [->|Hne]; [done|].
      by rewrite (bool_decide_eq_false_2 _ Hne), andb_false_r. }
    unfold after_cond_create. simpl_proj. rewrite fn_lookup_insert.
    cbn [with_node node]. rewrite Hedit. reflexivity.
  - simpl_proj. rewrite !length_insert, fn_lookup_insert.
    unfold started_cruncher. simpl_proj. rewrite fn_lookup_insert.
    cbn [with_node node crunching_profile]. rewrite Hty.
    repeat split.
    + by rewrite <- app_assoc.
    + apply lookup_insert_eq.
    + apply lookup_insert_eq.
Qed.

Lemma list_remove_is_Some j l : j ∈ l → is_Some (list_remove j l).
Proof.
  induction l as [|x l IH]; intros Hin; [by apply elem_of_nil in Hin|].
  cbn. case_bool_decide; [eauto|].
  apply elem_of_cons in Hin as [-> | Hin]; [done|].
  destruct (IH Hin) as [l' ->]. eauto.
Qed.

(** The calls a drain makes: one [retire], when it was asked to retire
    the cruncher or the job has resulted in an end, and otherwise none. *)
Lemma add_work_to_tree_calls c j retire w n (leaf : @Node pyobj) w1 :
  __add_work_to_tree c j retire w = Ok ((n, leaf), w1) →
  calls w1
  = calls w ++ (if retire || resulted_in_end (job_heap w1 j)
                then [CallRetire c] else []).
Proof.
  intros (cr & w0 & _ & _ & Hloop & ->)%add_work_to_tree_Ok_inv.
  apply add_work_loop_frame in Hloop as (_&_&_&_&_&Hcalls&_).
  destruct (retire || resulted_in_end (job_heap w0 j)) eqn:Hr; simpl_proj.
  - by rewrite Hr, Hcalls.
  - by rewrite Hr, Hcalls, app_nil_r.
Qed.

(** X9.  A listed job that is done once its cruncher's queue has been
    drained: the loop body takes it off the job list and off [crunchers]
    and leaves it at the new leaf.  The calls made on the way are
    [retire]s of the job's cruncher and nothing else: one by the drain if
    the job has resulted in an end, and one by the loop body if the
    cruncher is alive. *)
Theorem sync_job_finishes_job w j c cr1 t n new_leaf w1 recorded :
  crunchers w !! j = Some c →
  __add_work_to_tree c j false w = Ok ((n, new_leaf), w1) →
  cruncher_heap w1 !! c = Some cr1 →
  step_profiles w1 !! c = Some recorded →
  is_done (with_node new_leaf (job_heap w1 j)) = true →
  j ∈ jobs w →
  ∃ w' l,
    sync_job j t w = Ok (t + n, w')
    ∧ list_remove j (jobs w) = Some l
    ∧ jobs w' = l
    ∧ crunchers w' = delete j (crunchers w)
    ∧ node (job_heap w' j) = new_leaf
    ∧ calls w'
      = calls w
        ++ (if resulted_in_end (job_heap w1 j) then [CallRetire c] else [])
        ++ (if alive cr1 then [CallRetire c] else [])
    ∧ length (cruncher_heap w') = length (cruncher_heap w).
Proof.
  intros Hc Hd Hcr1 Hrec Hdone Hin.
  destruct (add_work_to_tree_frame _ _ _ _ _ _ _ Hd)
    as (Hjobs&Hcrs&_&_&_&_&_&_&_&(cr&cr'&_&_&Hheap&_)&_).
  pose proof (add_work_to_tree_calls _ _ _ _ _ _ _ Hd) as Hcalls.
  cbn [orb] in Hcalls.
  destruct (list_remove_is_Some j (jobs w) Hin) as [l Hl].
  eexists _, l. split; [|split; [done|]].
  - rewrite (sync_job_assigned_eq j t w c n new_leaf w1 cr1 _ Hc Hd Hcr1 Hrec).
    cbv zeta. rewrite Hdone, Hjobs, Hl. reflexivity.
  - rewrite Hcrs, app_assoc, <- Hcalls. destruct (alive cr1); simpl_proj;
      rewrite ?fn_lookup_insert, ?app_nil_r, ?length_insert, Hheap,
        ?length_insert; done.
Qed.

(** ** A sync with nothing to do *)

Lemma same_world_refl w : same_world w w.
Proof. by repeat split. Qed.

Lemma same_world_trans w1 w2 w3 :
  same_world w1 w2 → same_world w2 w3 → same_world w1 w3.
Proof.
  intros (A1&A2&A3&A4&A5&A6&A7&A8&A9) (B1&B2&B3&B4&B5&B6&B7&B8&B9).
  repeat split; [congruence..|intros j; by rewrite B7, A7|congruence|congruence].
Qed.

Lemma idle_same_world j w w' : idle j w → same_world w w' → idle j w'.
Proof.
  intros [Hdone Hcase] (A1&A2&A3&A4&A5&A6&A7&A8&A9). unfold idle.
  rewrite A2, A3, A4, A5, A7, A8. done.
Qed.

Lemma sync_job_idle j t w :
  idle j w → ∃ w', sync_job j t w = Ok (t, w') ∧ same_world w w'.
Proof.
  intros [Hdone [[Hc Hed]|(c & cr & Hc & Hcr & Hq & Halive & Hclass & Hrec & Hver)]].
  - exists w. split; [|apply same_world_refl].
    unfold sync_job. mstep. rewrite Hc. mstep. rewrite Hdone. cbn [negb].
    erewrite bind_Ok by apply conditional_create_cruncher_eq.
    by rewrite Hed.
  - assert (emptied cr = cr) as Hcr_same.
    { destruct cr. cbn in Hq. by subst. }
    assert (__add_work_to_tree c j false w
            = Ok ((0, node (job_heap w j)), w)) as Hd.
    { rewrite add_work_to_tree_eq, Hrec, Hcr, Hq. cbn [add_work_loop ret].
      unfold after_iterate. rewrite Hcr_same, list_insert_id by done.
      assert (set_cruncher_heap (cruncher_heap w) w = w) as -> by by destruct w.
      assert (resulted_in_end (job_heap w j) = false) as ->; [|done].
      unfold is_done in Hdone. by apply orb_false_iff in Hdone as [-> _]. }
    eexists. split.
    + rewrite (sync_job_assigned_eq j t w c 0 _ w cr _ Hc Hd Hcr Hrec).
      cbv zeta. rewrite with_node_same, Hdone, Halive.
      rewrite bool_decide_eq_true_2 by done. cbn [andb].
      rewrite (proj1 (not_true_iff_false _))
        by (rewrite StepProfile_ne_spec; by intros []).
      rewrite bool_decide_eq_true_2 by done. by rewrite Nat.add_0_r.
    + repeat split; simpl_proj; try done.
      * by apply insert_id.
      * intros j'. destruct (decide (j' = j)) as [->|Hne].
        -- by rewrite fn_lookup_insert, with_node_same.
        -- by rewrite fn_lookup_insert_ne.
Qed.

Lemma sync_loop_idle todo : ∀ t w,
  (∀ j, j ∈ todo → idle j w) →
  ∃ w', sync_loop todo t w = Ok (t, w') ∧ same_world w w'.
Proof.
  induction todo as [|k todo IH]; intros t w Hidle.
  - exists w. split; [done|apply same_world_refl].
  - destruct (sync_job_idle k t w) as (w1 & Hk & Hs1); [apply Hidle; left|].
    destruct (IH t w1) as (w' & Hloop & Hs2).
    { intros j Hj. eapply idle_same_world; [|done]. apply Hidle. by right. }
    exists w'. split; [|by eapply same_world_trans].
    cbn [sync_loop]. by rewrite (bind_Ok _ _ _ _ _ Hk).
Qed.

Lemma reap_loop_nothing items : ∀ t w,
  (∀ j c, (j, c) ∈ items → j ∈ jobs w) →
  reap_loop items t w = Ok (t, w).
Proof.
  induction items as [|[j c] items IH]; intros t w Hin; [done|].
  cbn [reap_loop].
  assert (reap j c t w = Ok (t, w)) as Hr.
  { unfold reap. mstep. rewrite bool_decide_eq_true_2; [done|].
    apply (Hin j c). left. }
  rewrite (bind_Ok _ _ _ _ _ Hr). apply IH. intros j' c' H. apply (Hin j' c').
  by right.
Qed.

(** X10.  When every tracked cruncher belongs to a listed job and every
    listed job is idle, a sync returns 0 and leaves everything as it
    was. *)
Theorem sync_crunchers_nothing_to_do w :
  (∀ j c, crunchers w !! j = Some c → j ∈ jobs w) →
  (∀ j, j ∈ jobs w → idle j w) →
  ∃ w', sync_crunchers w = Ok (0, w') ∧ same_world w w'.
Proof.
  intros Htracked Hidle.
  destruct (sync_loop_idle (jobs w) 0 w Hidle) as (w' & Hloop & Hsame).
  exists w'. split; [|done].
  unfold sync_crunchers. mstep.
  rewrite (bind_Ok _ _ _ _ _ (reap_loop_nothing _ 0 w
             (λ j c H, Htracked j c (proj1 (elem_of_map_to_list _ _ _) H)))).
  mstep. rewrite (bind_Ok _ _ _ _ _ Hloop). done.
Qed.

(** ** Every listed job is employed *)

Lemma drained_cruncher c j retire w n (leaf : @Node pyobj) w1 :
  __add_work_to_tree c j retire w = Ok ((n, leaf), w1) →
  ∃ cr1 recorded,
    cruncher_heap w1 !! c = Some cr1 ∧ step_profiles w1 !! c = Some recorded.
Proof.
  intros Hd.
  destruct (add_work_to_tree_frame _ _ _ _ _ _ _ Hd)
    as (_&_&_&_&[recorded Hrec]&_&_&_&_&(cr&cr'&Hcr&_&Hheap&_)&_).
  exists cr', recorded. split; [|done].
  rewrite Hheap. apply list_lookup_insert_eq. by eapply lookup_lt_Some.
Qed.

Lemma after_cond_create_employs j w :
  is_Some (crunchers w !! j) →
  is_Some (crunchers (after_cond_create j w) !! j).
Proof.
  intros H. unfold after_cond_create.
  destruct (still_in_editing _); [done|].
  simpl_proj. rewrite lookup_insert_eq. eauto.
Qed.

Lemma sync_job_employs j t w t' w' :
  sync_job j t w = Ok (t', w') →
  is_done (job_heap w' j) = false →
  is_Some (crunchers w' !! j)
  ∨ still_in_editing (node (job_heap w' j)) = true.
Proof.
  intros H Hnot. destruct (crunchers w !! j) as [c|] eqn:Hc.
  - left.
    pose proof (sync_job_assigned_inv _ _ _ c _ _ Hc H)
      as (n & leaf & w1 & Hd & _).
    destruct (drained_cruncher _ _ _ _ _ _ _ Hd) as (cr1 & recorded & Hcr1 & Hrec).
    destruct (add_work_to_tree_frame _ _ _ _ _ _ _ Hd) as (_&Hcrs&_).
    rewrite (sync_job_assigned_eq j t w c n leaf w1 cr1 _ Hc Hd Hcr1 Hrec) in H.
    cbv zeta in H.
    assert (is_Some (crunchers (after_set_node j leaf w1) !! j)) as Hhas.
    { simpl_proj. rewrite Hcrs, Hc. eauto. }
    destruct (is_done (with_node leaf (job_heap w1 j))) eqn:Hdone.
    { destruct (list_remove j (jobs w1)) as [l|]; [|done].
      injection H as _ <-. revert Hnot.
      destruct (alive cr1); simpl_proj; by rewrite fn_lookup_insert, Hdone. }
    destruct (alive cr1 && _).
    + destruct (StepProfile__ne__ _ _).
      * injection H as _ <-. by apply after_cond_create_employs.
      * destruct (bool_decide _); by injection H as _ <-.
    + injection H as _ <-. by apply after_cond_create_employs.
  - apply sync_job_unassigned_inv in H as [_ [[Hd (l & _ & ->)]|[_ ->]]];
      [| |done].
    + simpl_world_in Hnot. congruence.
    + destruct (still_in_editing (node (job_heap w j))) eqn:He; [by right|left].
      simpl_proj. rewrite lookup_insert_eq. eauto.
Qed.

Lemma sync_loop_employs todo : ∀ t w t' w',
  sync_loop todo t w = Ok (t', w') →
  (∀ j, count_occ Nat.eq_dec (jobs w) j ≤ count_occ Nat.eq_dec todo j
        ∨ (is_done (job_heap w j) = false ∧ settled j w
           ∧ (is_Some (crunchers w !! j)
              ∨ still_in_editing (node (job_heap w j)) = true))) →
  ∀ j, j ∈ jobs w' →
    is_Some (crunchers w' !! j)
    ∨ still_in_editing (node (job_heap w' j)) = true.
Proof.
  induction todo as [|k todo IH]; intros t w t' w' H Hinv.
  - injection H as <- <-. intros j Hj.
    destruct (Hinv j) as [Hle|(_ & _ & ?)]; [|done].
    apply list_elem_of_In, (count_occ_In Nat.eq_dec) in Hj. cbn in Hle. lia.
  - cbn [sync_loop] in H. apply bind_Ok_inv in H as (t1 & w1 & Hk & H).
    pose proof (sync_job_employs _ _ _ _ _ Hk) as Hemp.
    apply sync_job_frame in Hk as (Ho&_&Hjobs&Hown&_&_&_&Hempty&Hsame).
    eapply IH; [done|]. intros j.
    assert (settled k w1) as Hsettled.
    { unfold settled. destruct (crunchers w1 !! k) as [c|] eqn:Hc; [|by left].
      right. destruct (Hown c eq_refl) as (_ & cr & ? & ?). eauto. }
    destruct (decide (j = k)) as [->|Hne].
    + destruct Hjobs as [[Hj Hnot]|[Hrm Hd]]; [right; auto|].
      destruct (Hinv k) as [Hle|(Hnot & Hs & _)].
      * left. apply list_remove_count in Hrm as [Hcount _].
        rewrite count_occ_cons_eq in Hle by done. lia.
      * rewrite (Hsame Hs) in Hd. congruence.
    + destruct (Ho j Hne) as [Hcj Hjj].
      destruct (Hinv j) as [Hle|(Hnot & Hs & Hhas)].
      * left. rewrite count_occ_cons_neq in Hle by done.
        destruct Hjobs as [[-> _]|[Hrm _]]; [done|].
        apply list_remove_count in Hrm as [_ Hx]. by rewrite Hx.
      * right. rewrite Hjj, Hcj. split; [done|]. split; [|done].
        unfold settled. rewrite Hcj.
        destruct Hs as [|(c & cr & Hc & Hcr & Hq)]; [by left|right].
        destruct (Hempty c cr Hcr Hq) as (cr' & ? & ?). eauto.
Qed.

(** X11.  After a completed sync, every job left in the job list has a
    cruncher in [crunchers], unless its node is still in editing. *)
Theorem sync_crunchers_employs_listed_jobs w t w' :
  sync_crunchers w = Ok (t, w') →
  ∀ j, j ∈ jobs w' →
    is_Some (crunchers w' !! j)
    ∨ still_in_editing (node (job_heap w' j)) = true.
Proof.
  intros (t1 & w1 & Hreap & Hloop)%sync_crunchers_inv.
  eapply sync_loop_employs; [done|]. intros j0. by left.
Qed.

(** ** Crunchers made are crunchers started *)

Lemma starts_the_new_refl w : starts_the_new (pyobj:=pyobj) w w.
Proof. exists []. by rewrite app_nil_r, Nat.sub_diag. Qed.

Lemma starts_the_new_trans w1 w2 w3 :
  starts_the_new (pyobj:=pyobj) w1 w2 → starts_the_new w2 w3 →
  starts_the_new w1 w3.
Proof.
  intros (m1 & C1 & S1 & L1) (m2 & C2 & S2 & L2). exists (m1 ++ m2).
  split; [by rewrite C2, C1, app_assoc|]. split; [|lia].
  unfold started in *. rewrite omap_app, S1, S2.
  replace (length (cruncher_heap w3) - length (cruncher_heap w1))
    with ((length (cruncher_heap w2) - length (cruncher_heap w1))
          + (length (cruncher_heap w3) - length (cruncher_heap w2))) by lia.
  rewrite seq_app. do 2 f_equal. lia.
Qed.

(** Steps that make no cruncher and do not call [start]. *)
Lemma starts_the_new_none w w' made :
  calls w' = calls w ++ made →
  Forall (λ x, ∀ c, x ≠ CallStart (pyobj:=pyobj) c) made →
  length (cruncher_heap w') = length (cruncher_heap w) →
  starts_the_new w w'.
Proof.
  intros Hc Hmade Hlen. exists made. rewrite Hlen, Nat.sub_diag.
  split; [done|]. split; [|done]. unfold started. clear Hc.
  induction Hmade as [|x made Hx _ IH]; [done|].
  destruct x; cbn; [by destruct (Hx c)|done..].
Qed.

Lemma starts_the_new_drain c j retire w n (leaf : @Node pyobj) w1 :
  __add_work_to_tree c j retire w = Ok ((n, leaf), w1) →
  starts_the_new w w1.
Proof.
  intros Hd.
  destruct (add_work_to_tree_frame _ _ _ _ _ _ _ Hd)
    as (_&_&_&_&_&_&_&_&_&(cr&cr'&_&_&Hheap&_)&(made&Hcalls&Hmade)).
  apply (starts_the_new_none _ _ made); [done| |by rewrite Hheap, length_insert].
  eapply Forall_impl; [exact Hmade|]. by intros x -> c'.
Qed.

Lemma starts_the_new_retire c cr w :
  starts_the_new (pyobj:=pyobj) w (after_retire c cr w).
Proof.
  apply (starts_the_new_none _ _ [CallRetire c]);
    [done|by repeat constructor|simpl_proj; by rewrite length_insert].
Qed.

Lemma starts_the_new_update c cr cp w :
  starts_the_new (pyobj:=pyobj) w (after_update c cr cp w).
Proof.
  apply (starts_the_new_none _ _ [CallUpdateCrunchingProfile c cp]);
    [done|by repeat constructor|simpl_proj; by rewrite length_insert].
Qed.

Lemma starts_the_new_same w w' :
  calls w' = calls w → cruncher_heap w' = cruncher_heap w →
  starts_the_new (pyobj:=pyobj) w w'.
Proof.
  intros Hc Hh. apply (starts_the_new_none _ _ []);
    [by rewrite app_nil_r|constructor|by rewrite Hh].
Qed.

Lemma starts_the_new_cond_create j w :
  starts_the_new (pyobj:=pyobj) w (after_cond_create j w).
Proof.
  unfold after_cond_create.
  destruct (still_in_editing _); [apply starts_the_new_refl|].
  exists [CallStart (length (cruncher_heap w))]. simpl_proj.
  rewrite length_app. cbn [length].
  replace (length (cruncher_heap w) + 1 - length (cruncher_heap w)) with 1
    by lia.
  repeat split; lia.
Qed.

Lemma starts_the_new_sync_job j t w t' w' :
  sync_job j t w = Ok (t', w') → starts_the_new w w'.
Proof.
  intros H. destruct (crunchers w !! j) as [c|] eqn:Hc.
  - pose proof (sync_job_assigned_inv _ _ _ c _ _ Hc H)
      as (n & leaf & w1 & Hd & _).
    destruct (drained_cruncher _ _ _ _ _ _ _ Hd) as (cr1 & recorded & Hcr1 & Hrec).
    rewrite (sync_job_assigned_eq j t w c n leaf w1 cr1 _ Hc Hd Hcr1 Hrec) in H.
    cbv zeta in H.
    eapply starts_the_new_trans; [by eapply starts_the_new_drain|].
    eapply (starts_the_new_trans _ (after_set_node j leaf w1));
      [by apply starts_the_new_same|].
    destruct (is_done (with_node leaf (job_heap w1 j))).
    { destruct (list_remove j (jobs w1)) as [l|]; [|done].
      injection H as _ <-. destruct (alive cr1).
      - eapply (starts_the_new_trans _ (after_retire c cr1 _));
          [apply starts_the_new_retire|by apply starts_the_new_same].
      - by apply starts_the_new_same. }
    destruct (alive cr1 && _).
    + destruct (StepProfile__ne__ _ _).
      * injection H as _ <-.
        eapply starts_the_new_trans;
          [apply starts_the_new_retire|apply starts_the_new_cond_create].
      * destruct (bool_decide _); injection H as _ <-.
        -- by apply starts_the_new_same.
        -- eapply (starts_the_new_trans _ (after_check_in _ _));
             [by apply starts_the_new_same|apply starts_the_new_update].
    + injection H as _ <-.
      eapply starts_the_new_trans;
        [apply starts_the_new_retire|apply starts_the_new_cond_create].
  - apply sync_job_unassigned_inv in H as [_ [[Hd (l & _ & ->)]|[_ ->]]];
      [| |done].
    + by apply starts_the_new_same.
    + apply starts_the_new_cond_create.
Qed.

Lemma starts_the_new_sync_loop todo : ∀ t w t' w',
  sync_loop todo t w = Ok (t', w') → starts_the_new w w'.
Proof.
  induction todo as [|k todo IH]; intros t w t' w' H.
  - injection H as <- <-. apply starts_the_new_refl.
  - cbn [sync_loop] in H. apply bind_Ok_inv in H as (t1 & w1 & Hk & H).
    eapply starts_the_new_trans;
      [by eapply starts_the_new_sync_job|by eapply IH].
Qed.

Lemma starts_the_new_reap_loop items : ∀ t w t' w',
  reap_loop items t w = Ok (t', w') → starts_the_new w w'.
Proof.
  induction items as [|[j c] items IH]; intros t w t' w' H.
  - injection H as <- <-. apply starts_the_new_refl.
  - cbn [reap_loop] in H. apply bind_Ok_inv in H as (t1 & w1 & Hr & H).
    eapply starts_the_new_trans; [|by eapply IH].
    apply reap_inv in Hr as [(_ & _ & ->)|(_ & n & leaf & w0 & Hd & _ & ->)];
      [apply starts_the_new_refl|].
    eapply starts_the_new_trans; [by eapply starts_the_new_drain|].
    by apply starts_the_new_same.
Qed.

(** X12.  During a completed sync, [start] is called on exactly the
    crunchers made during that sync, once each and in the order they were
    made: no cruncher is made and left unstarted, and no cruncher that
    existed before is started again. *)
Theorem sync_crunchers_starts_the_new w t w' :
  sync_crunchers w = Ok (t, w') →
  ∃ made,
    calls w' = calls w ++ made
    ∧ started made
      = seq (length (cruncher_heap w))
            (length (cruncher_heap w') - length (cruncher_heap w))
    ∧ length (cruncher_heap w) ≤ length (cruncher_heap w').
Proof.
  intros (t1 & w1 & Hreap & Hloop)%sync_crunchers_inv.
  eapply starts_the_new_trans;
    [by eapply starts_the_new_reap_loop|by eapply starts_the_new_sync_loop].
Qed.

(** ** A sync of a well-formed manager returns *)

Lemma grows_drainable c w w' :
  grows (pyobj:=pyobj) w w' → drainable c w → drainable c w'.
Proof.
  intros (_&_&_&_&_&_&Hheap&Hsp&_) [Hc (cr & Hcr & Hq)]. split.
  - apply elem_of_dom, Hsp, elem_of_dom, Hc.
  - destruct (Hheap c cr Hcr) as (cr' & Hcr' & _ & _ & _ & _ & Hq').
    exists cr'. split; [done|]. by destruct Hq' as [-> | ->].
Qed.

Lemma sync_job_returns_tracked j t w :
  (∀ c, crunchers w !! j = Some c → drainable c w) →
  j ∈ jobs w → ∃ t' w', sync_job j t w = Ok (t', w').
Proof.
  intros Hwf Hin. destruct (crunchers w !! j) as [c|] eqn:Hc.
  - destruct (Hwf c eq_refl) as [Hsp (cr & Hcr & Hq)].
    destruct (add_work_to_tree_total c j false w cr Hcr Hsp Hq)
      as (n & leaf & w0 & _ & Hd).
    destruct (drained_cruncher _ _ _ _ _ _ _ Hd) as (cr1 & recorded & Hcr1 & Hrec).
    destruct (add_work_to_tree_frame _ _ _ _ _ _ _ Hd) as (Hjobs&_).
    rewrite (sync_job_assigned_eq j t w c n leaf _ cr1 _ Hc Hd Hcr1 Hrec).
    cbv zeta. rewrite Hjobs.
    destruct (list_remove_is_Some j (jobs w) Hin) as [l ->].
    repeat match goal with |- context [if ?b then _ else _] => destruct b end;
      eauto.
  - unfold sync_job. mstep. rewrite Hc. mstep.
    destruct (is_done (job_heap w j)); cbn [negb].
    + rewrite (bind_Ok _ _ _ tt (set_jobs
                 (default [] (list_remove j (jobs w))) w)); [cbn; eauto|].
      rewrite jobs_remove_eq.
      by destruct (list_remove_is_Some j (jobs w) Hin) as [l ->].
    + erewrite bind_Ok by apply conditional_create_cruncher_eq. cbn. eauto.
Qed.

Lemma sync_job_returns j t w :
  well_formed w → j ∈ jobs w → ∃ t' w', sync_job j t w = Ok (t', w').
Proof.
  intros Hwf Hin. apply sync_job_returns_tracked; [|done].
  intros c Hc. by apply (Hwf j).
Qed.

Lemma sync_job_well_formed j t w t' w' :
  sync_job j t w = Ok (t', w') → well_formed w → well_formed w'.
Proof.
  intros H Hwf j' c' Hc'.
  pose proof (growing_sync_job j t _ _ _ H) as Hgrows.
  apply sync_job_frame in H as (Ho&_&_&Hown&_).
  destruct (decide (j' = j)) as [-> | Hne].
  - destruct (Hown c' Hc') as (Hsp & cr & Hcr & Hq).
    split; [done|]. exists cr. split; [done|]. rewrite Hq. constructor.
  - apply (grows_drainable _ w); [done|]. apply (Hwf j').
    by rewrite <- (proj1 (Ho j' Hne)).
Qed.

Lemma sync_loop_returns todo : ∀ t w,
  well_formed w →
  (∀ j, count_occ Nat.eq_dec todo j ≤ count_occ Nat.eq_dec (jobs w) j) →
  ∃ t' w', sync_loop todo t w = Ok (t', w') ∧ well_formed w'.
Proof.
  induction todo as [|k todo IH]; intros t w Hwf Hcount.
  - exists t, w. done.
  - assert (k ∈ jobs w) as Hin.
    { apply list_elem_of_In, (count_occ_In Nat.eq_dec).
      specialize (Hcount k). rewrite count_occ_cons_eq in Hcount by done. lia. }
    destruct (sync_job_returns k t w Hwf Hin) as (t1 & w1 & Hk).
    destruct (IH t1 w1) as (t' & w' & Hloop & Hwf').
    { by eapply sync_job_well_formed. }
    { intros j. specialize (Hcount j).
      apply sync_job_frame in Hk as (_&_&Hjobs&_).
      destruct (decide (j = k)) as [-> | Hne].
      - rewrite count_occ_cons_eq in Hcount by done.
        destruct Hjobs as [[-> _]|[Hrm _]]; [lia|].
        apply list_remove_count in Hrm as [Hrm _]. lia.
      - rewrite count_occ_cons_neq in Hcount by done.
        destruct Hjobs as [[-> _]|[Hrm _]]; [lia|].
        apply list_remove_count in Hrm as [_ Hrm]. by rewrite Hrm. }
    exists t', w'. split; [|done].
    cbn [sync_loop]. by rewrite (bind_Ok _ _ _ _ _ Hk).
Qed.

Lemma reap_returns j c t w :
  crunchers w !! j = Some c → drainable c w →
  ∃ t' w', reap j c t w = Ok (t', w').
Proof.
  intros Hc [Hsp (cr & Hcr & Hq)]. unfold reap. mstep.
  destruct (bool_decide (j ∈ jobs w)); cbn [negb]; [cbn; eauto|].
  destruct (add_work_to_tree_total c j true w cr Hcr Hsp Hq)
    as (n & leaf & w0 & _ & Hd).
  rewrite (bind_Ok _ _ _ _ _ Hd).
  destruct (add_work_to_tree_frame _ _ _ _ _ _ _ Hd) as (_&Hcrs&_).
  erewrite bind_Ok by (apply (crunchers_delitem_eq j _ c); by rewrite Hcrs).
  cbn. eauto.
Qed.

Lemma reap_loop_returns items : ∀ t w,
  NoDup items.*1 →
  (∀ j c, (j, c) ∈ items → crunchers w !! j = Some c ∧ drainable c w) →
  ∃ t' w', reap_loop items t w = Ok (t', w').
Proof.
  induction items as [|[j c] items IH]; intros t w Hnd Hitems.
  - exists t, w. done.
  - apply NoDup_cons in Hnd as [Hfresh Hnd].
    destruct (Hitems j c) as [Hc Hdr]; [left|].
    destruct (reap_returns j c t w Hc Hdr) as (t1 & w1 & Hr).
    destruct (IH t1 w1 Hnd) as (t' & w' & Hloop).
    { intros j' c' Hin.
      destruct (Hitems j' c') as [Hc' Hdr']; [by right|].
      assert (j' ≠ j) as Hne.
      { intros ->. apply Hfresh. apply list_elem_of_fmap. by exists (j, c'). }
      split.
      - apply reap_frame in Hr as (_ & Ho & _).
        by rewrite (proj1 (Ho j' Hne)).
      - eapply grows_drainable; [|done]. by eapply growing_reap. }
    exists t', w'. cbn [reap_loop]. by rewrite (bind_Ok _ _ _ _ _ Hr).
Qed.

(** X13.  A sync of a manager all of whose tracked crunchers can be
    drained (a recorded step profile, only expected items in the queue)
    returns: it raises nowhere, in particular no [ValueError] from
    [jobs.remove] and no [KeyError] from [del crunchers[job]], whatever the
    job list holds.  The manager it leaves is again one whose tracked
    crunchers can be drained. *)
Theorem sync_crunchers_returns w :
  well_formed w →
  ∃ t w', sync_crunchers w = Ok (t, w') ∧ well_formed w'.
Proof.
  intros Hwf.
  destruct (reap_loop_returns (map_to_list (crunchers w)) 0 w) as (t1 & w1 & Hr).
  { apply NoDup_fst_map_to_list. }
  { intros j c Hin%elem_of_map_to_list. split; [done|]. by apply (Hwf j). }
  destruct (sync_loop_returns (jobs w1) t1 w1) as (t' & w' & Hloop & Hwf');
    [|done|].
  { intros j c Hc.
    eapply grows_drainable; [by eapply growing_reap_loop|].
    apply (Hwf j).
    apply reap_loop_frame in Hr as (_ & Hsub & _).
    destruct (Hsub j) as [Hnone|<-]; [congruence|done]. }
  exists t', w'. split; [|done].
  unfold sync_crunchers. mstep. rewrite (bind_Ok _ _ _ _ _ Hr). mstep.
  by rewrite (bind_Ok _ _ _ _ _ Hloop).
Qed.

(** ** When the drain raises *)

Lemma add_work_loop_Ok_expected c j things : ∀ cur n w r,
  add_work_loop (pyobj:=pyobj) c j things cur n w = Ok r →
  Forall (λ th, expected th = true) things.
Proof.
  induction things as [|x things IH]; intros cur n w [r w'] H; [constructor|].
  destruct x as [st| |sp'|o]; cbn [add_work_loop] in H;
    [| | |by destruct (percent_s o)]; (constructor; [done|]).
  - apply bind_Ok_inv in H as (? & ? & _ & H).
    apply bind_Ok_inv in H as (? & ? & _ & H). eauto.
  - apply bind_Ok_inv in H as (? & ? & _ & H).
    apply bind_Ok_inv in H as (? & ? & _ & H).
    apply bind_Ok_inv in H as (? & ? & _ & H). eauto.
  - apply bind_Ok_inv in H as (? & ? & _ & H). eauto.
Qed.

(** X14.  [__add_work_to_tree] looks the cruncher's step profile up before
    it touches the queue: without an entry in [step_profiles] it raises
    [KeyError], whatever the queue holds.  With an entry it returns exactly
    when everything in the queue is a state, an end marker or a step
    profile. *)
Theorem add_work_to_tree_returns_iff c j retire w cr :
  cruncher_heap w !! c = Some cr →
  (step_profiles w !! c = None →
   __add_work_to_tree c j retire w = Raise KeyError)
  ∧ (is_Some (step_profiles w !! c) →
     (∃ r, __add_work_to_tree c j retire w = Ok r)
     ↔ Forall (λ th, expected th = true) (work_queue cr)).
Proof.
  intros Hcr. split.
  - intros Hnone. by rewrite add_work_to_tree_eq, Hnone.
  - intros Hsp. split.
    + intros [[[n leaf] w1] H].
      apply add_work_to_tree_Ok_inv in H as (cr0 & w0 & _ & Hcr0 & Hloop & _).
      assert (cr0 = cr) as -> by congruence.
      by eapply add_work_loop_Ok_expected.
    + intros Hq.
      destruct (add_work_to_tree_total c j retire w cr Hcr Hsp Hq)
        as (n & cur & w1 & _ & ->).
      eauto.
Qed.

(** ** Jobs by node *)

(** X15.  After a completed sync, [get_jobs_by_node] returns, in the order
    of the job list and changing nothing, the listed jobs whose node is the
    given one: all of them are jobs that were listed before the sync and
    none of them is done. *)
Theorem get_jobs_by_node_after_sync w t w' n :
  sync_crunchers w = Ok (t, w') →
  ∃ l, get_jobs_by_node n w' = Ok (l, w')
       ∧ l `sublist_of` jobs w
       ∧ (∀ j, j ∈ l ↔ j ∈ jobs w' ∧ node (job_heap w' j) = n)
       ∧ (∀ j, j ∈ l → is_done (job_heap w' j) = false).
Proof.
  intros Hsync. eexists. split; [reflexivity|].
  pose proof (growing_sync_crunchers _ _ _ Hsync) as (_ & Hjobs & _).
  apply sync_crunchers_inv in Hsync as (t1 & w1 & Hreap & Hloop).
  split; [|split].
  - etrans; [apply sublist_filter|done].
  - intros j. rewrite list_elem_of_filter. tauto.
  - intros j [_ Hin]%list_elem_of_filter.
    eapply sync_loop_done; [done| |done]. intros j0. by left.
Qed.

(** ** A foreign item in a queue *)

Lemma unexpected_Plain text : unexpected (Plain text) = UnexpectedObject text.
Proof. reflexivity. Qed.

Lemma unexpected_Tuple_one item :
  unexpected (Tuple [item]) = UnexpectedObject item.
Proof. reflexivity. Qed.

Lemma unexpected_Tuple items :
  length items ≠ 1 → unexpected (Tuple items) = TypeError.
Proof. by destruct items as [|? [|? ?]]. Qed.

Lemma add_work_to_tree_unexpected w c j retire cr pre o post :
  cruncher_heap w !! c = Some cr →
  work_queue cr = pre ++ ThingOther o :: post →
  Forall (λ th, expected (pyobj:=pyobj) th = true) pre →
  is_Some (step_profiles w !! c) →
  __add_work_to_tree c j retire w = Raise (unexpected o).
Proof.
  intros Hcr Hq Hpre [sp Hsp].
  rewrite add_work_to_tree_eq, Hsp, Hcr, Hq.
  rewrite add_work_loop_unexpected; [done|done|]. cbn. eauto.
Qed.

Lemma sync_job_surfaces w j c t e :
  crunchers w !! j = Some c →
  __add_work_to_tree (pyobj:=pyobj) c j false w = Raise e →
  sync_job j t w = Raise e.
Proof.
  intros Hc Hd. unfold sync_job. mstep. rewrite Hc. by apply bind_Raise.
Qed.

Lemma reap_surfaces w j c t e :
  j ∉ jobs w →
  __add_work_to_tree (pyobj:=pyobj) c j true w = Raise e →
  reap j c t w = Raise e.
Proof.
  intros Hout Hd. unfold reap. mstep.
  rewrite bool_decide_eq_false_2 by done. cbn [negb]. by apply bind_Raise.
Qed.

(** Both loops stop at the first body that raises, with what it raised. *)
Lemma sync_loop_app xs ys : ∀ t w,
  sync_loop (pyobj:=pyobj) (xs ++ ys) t w
  = match sync_loop xs t w with
    | Ok (t', w') => sync_loop ys t' w'
    | Raise e => Raise e
    end.
Proof.
  induction xs as [|x xs IH]; intros t w; [done|].
  cbn [app sync_loop].
  destruct (sync_job x t w) as [[t1 w1]|e] eqn:Hx.
  - rewrite !(bind_Ok _ _ _ _ _ Hx). apply IH.
  - by rewrite !(bind_Raise _ _ _ _ Hx).
Qed.

Lemma reap_loop_app xs ys : ∀ t w,
  reap_loop (pyobj:=pyobj) (xs ++ ys) t w
  = match reap_loop xs t w with
    | Ok (t', w') => reap_loop ys t' w'
    | Raise e => Raise e
    end.
Proof.
  induction xs as [|[j c] xs IH]; intros t w; [done|].
  cbn [app reap_loop].
  destruct (reap j c t w) as [[t1 w1]|e] eqn:Hx.
  - rewrite !(bind_Ok _ _ _ _ _ Hx). apply IH.
  - by rewrite !(bind_Raise _ _ _ _ Hx).
Qed.

Lemma sync_crunchers_surfaces_reap w visited j c rest t1 w1 e :
  map_to_list (crunchers w) = visited ++ (j, c) :: rest →
  reap_loop visited 0 w = Ok (t1, w1) →
  reap (pyobj:=pyobj) j c t1 w1 = Raise e →
  sync_crunchers w = Raise e.
Proof.
  intros Hitems Hvisited Hraise. unfold sync_crunchers. mstep.
  apply bind_Raise. rewrite Hitems, reap_loop_app, Hvisited.
  cbn [reap_loop]. by apply bind_Raise.
Qed.

Lemma sync_crunchers_surfaces_sync_job w t1 w1 visited k rest t2 w2 e :
  reap_loop (map_to_list (crunchers w)) 0 w = Ok (t1, w1) →
  jobs w1 = visited ++ k :: rest →
  sync_loop visited t1 w1 = Ok (t2, w2) →
  sync_job (pyobj:=pyobj) k t2 w2 = Raise e →
  sync_crunchers w = Raise e.
Proof.
  intros Hreap Hjobs Hvisited Hraise. unfold sync_crunchers. mstep.
  rewrite (bind_Ok _ _ _ _ _ Hreap). mstep.
  apply bind_Raise. rewrite Hjobs, sync_loop_app, Hvisited.
  cbn [sync_loop]. by apply bind_Raise.
Qed.

Section obstacle.

Variables (c : cruncher_id) (cr : @Cruncher pyobj).
Variables (pre post : list (@thing pyobj)) (o : foreign).
Hypothesis Hqueue : work_queue cr = pre ++ ThingOther o :: post.
Hypothesis Hpre : Forall (λ th, expected th = true) pre.

Lemma obstacle_not_expected :
  ¬ Forall (λ th, expected th = true) (work_queue cr).
Proof.
  rewrite Hqueue. intros H. apply Forall_app in H as [_ H].
  apply Forall_cons in H as [H _]. discriminate H.
Qed.

Lemma only_obstacle_grows w w' :
  grows w w' →
  cruncher_heap w' !! c = Some cr →
  (∀ j c', crunchers w' !! j = Some c' → c' ≠ c →
     crunchers w !! j = Some c' ∨ drainable c' w') →
  only_obstacle c cr w → only_obstacle c cr w'.
Proof.
  intros Hgrows Hcr' Hcrs (_ & Hsp & Hothers). split; [done|]. split.
  - destruct Hgrows as (_&_&_&_&_&_&_&Hdom&_).
    apply elem_of_dom, Hdom, elem_of_dom, Hsp.
  - intros j c' Hc' Hne. destruct (Hcrs j c' Hc' Hne) as [Hold|]; [|done].
    eapply grows_drainable; [done|]. by eapply Hothers.
Qed.

(** The loop body either meets the obstacle and raises what its item
    raises, or returns and leaves the obstacle as it was. *)
Lemma sync_job_obstacle k t w :
  only_obstacle c cr w → k ∈ jobs w →
  (crunchers w !! k = Some c ∧ sync_job k t w = Raise (unexpected o))
  ∨ (crunchers w !! k ≠ Some c
     ∧ ∃ t' w', sync_job k t w = Ok (t', w') ∧ only_obstacle c cr w').
Proof.
  intros Hob Hin. pose proof Hob as (Hcr & Hsp & Hothers).
  destruct (decide (crunchers w !! k = Some c)) as [Hc|Hc].
  - left. split; [done|]. apply (sync_job_surfaces _ _ c); [done|].
    by eapply add_work_to_tree_unexpected.
  - right. split; [done|].
    destruct (sync_job_returns_tracked k t w) as (t' & w' & Hk); [|done|].
    { intros c' Hc'. apply (Hothers k); [done|]. congruence. }
    exists t', w'. split; [done|].
    pose proof (growing_sync_job k t _ _ _ Hk) as Hgrows.
    apply sync_job_frame in Hk as (Ho&_&_&Hown&_&_&Hkeep&_).
    apply (only_obstacle_grows w); [done|by apply Hkeep| |done].
    intros j c' Hc' Hne. destruct (decide (j = k)) as [-> | Hjk].
    + right. destruct (Hown c' Hc') as (Hsp' & cr' & Hcr' & Hq').
      split; [done|]. exists cr'. split; [done|]. rewrite Hq'. constructor.
    + left. by rewrite <- (proj1 (Ho j Hjk)).
Qed.

Lemma sync_loop_obstacle todo : ∀ t w j,
  only_obstacle c cr w →
  (∀ k, count_occ Nat.eq_dec todo k ≤ count_occ Nat.eq_dec (jobs w) k) →
  j ∈ todo → crunchers w !! j = Some c →
  sync_loop todo t w = Raise (unexpected o).
Proof.
  induction todo as [|k todo IH]; intros t w j Hob Hcount Hin Hj.
  { by apply elem_of_nil in Hin. }
  assert (k ∈ jobs w) as Hk.
  { apply list_elem_of_In, (count_occ_In Nat.eq_dec).
    specialize (Hcount k). rewrite count_occ_cons_eq in Hcount by done. lia. }
  cbn [sync_loop].
  destruct (sync_job_obstacle k t w Hob Hk)
    as [[_ Hraise]|(Hkc & t' & w' & Hok & Hob')].
  { by apply bind_Raise. }
  rewrite (bind_Ok _ _ _ _ _ Hok).
  assert (j ≠ k) as Hjk by congruence.
  pose proof (sync_job_frame _ _ _ _ _ Hok) as (Ho&_&Hjobs&_).
  apply (IH t' w' j); [done| | |].
  - intros x. specialize (Hcount x).
    destruct (decide (x = k)) as [-> | Hne].
    + rewrite count_occ_cons_eq in Hcount by done.
      destruct Hjobs as [[-> _]|[Hrm _]]; [lia|].
      apply list_remove_count in Hrm as [Hrm _]. lia.
    + rewrite count_occ_cons_neq in Hcount by done.
      destruct Hjobs as [[-> _]|[Hrm _]]; [lia|].
      apply list_remove_count in Hrm as [_ Hrm]. by rewrite Hrm.
  - apply elem_of_cons in Hin as [|]; [done|done].
  - by rewrite (proj1 (Ho j Hjk)).
Qed.

Lemma reap_obstacle j0 c0 t w :
  only_obstacle c cr w → crunchers w !! j0 = Some c0 →
  (c0 = c ∧ (j0 ∉ jobs w) ∧ reap j0 c0 t w = Raise (unexpected o))
  ∨ ((c0 = c → j0 ∈ jobs w)
     ∧ ∃ t' w', reap j0 c0 t w = Ok (t', w') ∧ only_obstacle c cr w').
Proof.
  intros Hob Hc0. pose proof Hob as (Hcr & Hsp & Hothers).
  destruct (decide (c0 = c ∧ j0 ∉ jobs w)) as [[-> Hout]|Hno].
  - left. split; [done|]. split; [done|]. apply reap_surfaces; [done|].
    by eapply add_work_to_tree_unexpected.
  - right.
    assert (c0 = c → j0 ∈ jobs w) as Hlisted.
    { intros ->. destruct (decide (j0 ∈ jobs w)); [done|]. by destruct Hno. }
    split; [done|].
    destruct (decide (j0 ∈ jobs w)) as [Hin|Hout].
    + exists t, w. split; [|done]. unfold reap. mstep.
      by rewrite bool_decide_eq_true_2.
    + assert (c0 ≠ c) as Hne by (intros ->; by apply Hout, Hlisted).
      destruct (reap_returns j0 c0 t w Hc0) as (t' & w' & Hr);
        [by apply (Hothers j0)|].
      exists t', w'. split; [done|].
      pose proof (growing_reap j0 c0 t _ _ _ Hr) as Hgrows.
      apply reap_frame in Hr as (_&Ho&_&Hgone&_&_&Hkeep).
      apply (only_obstacle_grows w); [done| | |done].
      * apply Hkeep; [done|]. intros _. congruence.
      * intros j c' Hc' _. left.
        destruct (decide (j = j0)) as [-> | Hjj];
          [by rewrite (Hgone Hout) in Hc'|].
        by rewrite <- (proj1 (Ho j Hjj)).
Qed.

Lemma reap_loop_obstacle items : ∀ t w,
  only_obstacle c cr w →
  NoDup items.*1 →
  (∀ j0 c0, (j0, c0) ∈ items → crunchers w !! j0 = Some c0) →
  reap_loop items t w = Raise (unexpected o)
  ∨ ∃ t' w', reap_loop items t w = Ok (t', w') ∧ only_obstacle c cr w'.
Proof.
  induction items as [|[j0 c0] items IH]; intros t w Hob Hnd Hitems.
  { right. by exists t, w. }
  apply NoDup_cons in Hnd as [Hfresh Hnd]. cbn [reap_loop].
  destruct (reap_obstacle j0 c0 t w Hob)
    as [(_ & _ & Hraise)|(_ & t1 & w1 & Hr & Hob1)].
  { apply Hitems. left. }
  { left. by apply bind_Raise. }
  rewrite (bind_Ok _ _ _ _ _ Hr). apply IH; [done|done|].
  intros j1 c1 Hin.
  assert (j1 ≠ j0) as Hne.
  { intros ->. apply Hfresh, list_elem_of_fmap. by exists (j0, c1). }
  apply reap_frame in Hr as (_ & Ho & _).
  rewrite (proj1 (Ho j1 Hne)). apply Hitems. by right.
Qed.

Lemma sync_crunchers_obstacle w j :
  only_obstacle c cr w → crunchers w !! j = Some c →
  sync_crunchers w = Raise (unexpected o).
Proof.
  intros Hob Hj. unfold sync_crunchers. mstep.
  destruct (reap_loop_obstacle (map_to_list (crunchers w)) 0 w Hob)
    as [Hraise|(t1 & w1 & Hr & Hob1)].
  { apply NoDup_fst_map_to_list. }
  { by intros j0 c0 Hin%elem_of_map_to_list. }
  { by apply bind_Raise. }
  rewrite (bind_Ok _ _ _ _ _ Hr). mstep.
  pose proof Hob as (Hcr & _).
  apply reap_loop_frame in Hr as (Hjobs&_&Hin&_&_&_&Hheap).
  destruct (Hheap c cr Hcr obstacle_not_expected) as [_ Hlisted].
  assert (j ∈ jobs w) as Hjw.
  { apply Hlisted. by apply elem_of_map_to_list. }
  erewrite bind_Raise; [done|].
  apply (sync_loop_obstacle _ _ _ j); [done|done| |].
  - by rewrite Hjobs.
  - by rewrite (Hin j Hjw).
Qed.

End obstacle.

(** C7, as the code has it.  An item of the queue that is neither a state,
    nor an end marker, nor a step profile makes the drain raise what line
    307 raises for it: the exception whose message holds the item's text
    and, for an item that is a tuple of other than one item, the
    [TypeError] of the [%] operator that builds the message.  Neither loop
    body catches what the drain raises, and neither loop catches what its
    body raises: the first drain that raises during a sync decides what
    the sync raises.  So a sync over a manager with such an item in the
    queue of a tracked cruncher, all of whose other tracked crunchers can
    be drained, raises just what that item raises. *)
Theorem unexpected_object_raises :
  (∀ w c j retire cr pre o post,
     cruncher_heap w !! c = Some cr →
     work_queue cr = pre ++ ThingOther o :: post →
     Forall (λ th, expected th = true) pre →
     is_Some (step_profiles w !! c) →
     __add_work_to_tree c j retire w = Raise (unexpected o))
  ∧ ((∀ text, unexpected (Plain text) = UnexpectedObject text)
     ∧ (∀ item, unexpected (Tuple [item]) = UnexpectedObject item)
     ∧ (∀ items, length items ≠ 1 → unexpected (Tuple items) = TypeError))
  ∧ (∀ w j c t e,
       crunchers w !! j = Some c →
       __add_work_to_tree c j false w = Raise e →
       sync_job j t w = Raise e)
  ∧ (∀ w j c t e,
       j ∉ jobs w →
       __add_work_to_tree c j true w = Raise e →
       reap j c t w = Raise e)
  ∧ (∀ w visited j c rest t1 w1 e,
       map_to_list (crunchers w) = visited ++ (j, c) :: rest →
       reap_loop visited 0 w = Ok (t1, w1) →
       j ∉ jobs w1 →
       __add_work_to_tree c j true w1 = Raise e →
       sync_crunchers w = Raise e)
  ∧ (∀ w t1 w1 visited k c rest t2 w2 e,
       reap_loop (map_to_list (crunchers w)) 0 w = Ok (t1, w1) →
       jobs w1 = visited ++ k :: rest →
       sync_loop visited t1 w1 = Ok (t2, w2) →
       crunchers w2 !! k = Some c →
       __add_work_to_tree c k false w2 = Raise e →
       sync_crunchers w = Raise e)
  ∧ (∀ w j c cr pre o post,
       crunchers w !! j = Some c →
       work_queue cr = pre ++ ThingOther o :: post →
       Forall (λ th, expected th = true) pre →
       only_obstacle c cr w →
       sync_crunchers w = Raise (unexpected o)).
Proof.
  split; [|split; [|split; [|split; [|split; [|split]]]]].
  - intros w c j retire cr pre o post. apply add_work_to_tree_unexpected.
  - split; [|split].
    + apply unexpected_Plain.
    + apply unexpected_Tuple_one.
    + apply unexpected_Tuple.
  - apply sync_job_surfaces.
  - apply reap_surfaces.
  - intros w visited j c rest t1 w1 e Hitems Hvisited Hout Hd.
    eapply sync_crunchers_surfaces_reap; [done|done|].
    by apply reap_surfaces.
  - intros w t1 w1 visited k c rest t2 w2 e Hreap Hjobs Hvisited Hc Hd.
    eapply sync_crunchers_surfaces_sync_job; [done|done|done|].
    by eapply sync_job_surfaces.
  - intros w j c cr pre o post Hc Hq Hpre Hob.
    by eapply sync_crunchers_obstacle.
Qed.

(** ** The argument parser and the dict-list-dict constructor *)

Section parser.

Variable isinstance_StepProfile : pyobj → option (@StepProfile pyobj).
Variable StatePlaceholder : pyobj.
Variable PyNone : pyobj.
Variable isinstance_tuple : pyobj → option nat.
Variable get_step_type : pyobj → result function_ref.
Variable getargspec_args : function_ref → list string.

(** X16.  A step profile handed to the parser comes back as it is,
    whatever else is passed with it: as the keyword argument
    [step_profile], or as the first positional argument when there is no
    such keyword.  (A keyword [step_function] takes precedence over
    both.) *)
Theorem build_parser_returns_given_profile default o sp a kw :
  isinstance_StepProfile o = Some sp →
  o ≠ PyNone →
  kw !! "step_function"%string = None →
  (kw !! "step_profile"%string = Some o →
   build_parser isinstance_StepProfile StatePlaceholder PyNone isinstance_tuple
     get_step_type default a kw = Ok sp)
  ∧ (kw !! "step_profile"%string = None →
     build_parser isinstance_StepProfile StatePlaceholder PyNone
       isinstance_tuple get_step_type default (o :: a) kw = Ok sp).
Proof.
  intros Ho Hnone Hf. unfold build_parser, parse_arguments_to_step_profile.
  rewrite Hf. split; intros ->; [|by rewrite Ho].
  by rewrite (bool_decide_eq_false_2 _ Hnone), Ho.
Qed.

(** X17.  What the parser refuses.  A keyword [step_function] whose value
    [get_step_type] rejects makes the parser raise what [get_step_type]
    raised, even when a step profile is passed as well.  Without that
    keyword, a keyword [step_profile] whose value is neither [None] nor a
    step profile raises, whatever the positional arguments are:
    [GarlicSimException], unless the value is a tuple of other than one
    item, for which building the message of the exception is a
    [TypeError].  A first positional argument that [get_step_type] rejects
    is no error: it stays an argument of the profile built on the default
    step function. *)
Theorem build_parser_refusals default a kw :
  (∀ o e, kw !! "step_function"%string = Some o →
          get_step_type o = Raise e →
          build_parser isinstance_StepProfile StatePlaceholder PyNone
            isinstance_tuple get_step_type default a kw = Raise e)
  ∧ (∀ o, kw !! "step_function"%string = None →
          kw !! "step_profile"%string = Some o →
          o ≠ PyNone →
          isinstance_StepProfile o = None →
          (isinstance_tuple o = None ∨ isinstance_tuple o = Some 1 →
           build_parser isinstance_StepProfile StatePlaceholder PyNone
             isinstance_tuple get_step_type default a kw
           = Raise GarlicSimException)
          ∧ (∀ len, isinstance_tuple o = Some len → len ≠ 1 →
             build_parser isinstance_StepProfile StatePlaceholder PyNone
               isinstance_tuple get_step_type default a kw
             = Raise TypeError))
  ∧ (∀ o rest e, kw !! "step_function"%string = None →
          kw !! "step_profile"%string = None →
          a = o :: rest →
          isinstance_StepProfile o = None →
          get_step_type o = Raise e →
          build_parser isinstance_StepProfile StatePlaceholder PyNone
            isinstance_tuple get_step_type default a kw
          = StepProfile__init__ isinstance_StepProfile StatePlaceholder
              default (o :: rest) kw).
Proof.
  unfold build_parser, parse_arguments_to_step_profile.
  split; [|split].
  - intros o e -> Hg. by rewrite Hg.
  - intros o -> -> Hnone Ho.
    rewrite (bool_decide_eq_false_2 _ Hnone), Ho. split.
    + by intros [-> | ->].
    + intros len -> Hlen. by rewrite (bool_decide_eq_false_2 _ Hlen).
  - intros o rest e -> -> -> Ho Hg. by rewrite Ho, Hg.
Qed.

Lemma mapM_ext_Forall {A B} (f g : A → option B) l :
  Forall (λ x, f x = g x) l → mapM f l = mapM g l.
Proof.
  induction 1 as [|x l Hx _ IH]; [done|]. cbn. by rewrite Hx, IH.
Qed.

(** X18.  [create_from_dld_format] reads from the dict of arguments the
    declared argument names after the first and nothing else: a declared
    name that is missing raises [KeyError], and two dicts that agree on
    those names give the same result. *)
Theorem create_from_dld_format_reads_declared_names f d star kw :
  (∀ name, name ∈ drop 1 (getargspec_args f) → d !! name = None →
     create_from_dld_format isinstance_StepProfile StatePlaceholder
       getargspec_args f d star kw = Raise KeyError)
  ∧ (∀ d', (∀ name, name ∈ drop 1 (getargspec_args f) →
              d' !! name = d !! name) →
     create_from_dld_format isinstance_StepProfile StatePlaceholder
       getargspec_args f d' star kw
     = create_from_dld_format isinstance_StepProfile StatePlaceholder
         getargspec_args f d star kw).
Proof.
  unfold create_from_dld_format. split.
  - intros name Hin Hmiss.
    rewrite (proj2 (mapM_None _ _)); [done|].
    apply Exists_exists. eauto.
  - intros d' Hagree.
    rewrite (mapM_ext_Forall (λ name, d' !! name) (λ name, d !! name)); [done|].
    by apply Forall_forall.
Qed.

End parser.

End properties.

(** * The theorems at work on the sample worlds *)

(** C1 on a queue of two states. *)
Lemma add_work_to_tree_states_witness :
  cruncher_heap world_two_states !! 0
    = Some (sample_cruncher [ThingState (state_at 1); ThingState (state_at 2)])
  ∧ step_profiles world_two_states !! 0 = Some sp_plain
  ∧ ∃ new_leaf w' added,
      __add_work_to_tree 0 0 false world_two_states = Ok ((2, new_leaf), w')
      ∧ nodes (tree w') = nodes (tree world_two_states) ++ added
      ∧ length added = 2
      ∧ new_leaf = default (root_node false) (last added).
Proof.
  split; [reflexivity|]. split; [reflexivity|].
  destruct (add_work_to_tree_states world_two_states 0 0 false
              (sample_cruncher [ThingState (state_at 1); ThingState (state_at 2)])
              [state_at 1; state_at 2] sp_plain eq_refl eq_refl eq_refl)
    as (leaf & w' & added & Hd & Hn & Hlen & Hleaf & _).
  exists leaf, w', added. repeat split; assumption.
Defined.

(** C4 on a queue of one state and the end marker. *)
Lemma add_work_to_tree_end_marker_witness :
  work_queue (sample_cruncher [ThingState (state_at 1); ThingEndMarker])
    = [ThingState (state_at 1)] ++ ThingEndMarker :: []
  ∧ ∃ n new_leaf w',
      __add_work_to_tree 0 0 false world_end_marker = Ok ((n, new_leaf), w')
      ∧ calls w' = calls world_end_marker ++ [CallRetire 0]
      ∧ resulted_in_end (job_heap w' 0) = true.
Proof.
  split; [reflexivity|].
  destruct (add_work_to_tree_end_marker world_end_marker 0 0
              (sample_cruncher [ThingState (state_at 1); ThingEndMarker])
              [ThingState (state_at 1)] [])
    as (n & leaf & w' & Hd & Hcalls & _ & Hflag & _).
  - reflexivity.
  - reflexivity.
  - exists sp_plain. reflexivity.
  - repeat constructor.
  - exists n, leaf, w'. repeat split; assumption.
Defined.

(** C10 on a job that had ended before, with an empty queue. *)
Lemma add_work_to_tree_flag_already_set_witness :
  resulted_in_end (job_heap world_ended_before 0) = true
  ∧ ∃ n new_leaf w',
      __add_work_to_tree 0 0 false world_ended_before = Ok ((n, new_leaf), w')
      ∧ calls w' = calls world_ended_before ++ [CallRetire 0].
Proof.
  split; [reflexivity|].
  destruct (add_work_to_tree_flag_already_set world_ended_before 0 0
              (sample_cruncher []))
    as (n & leaf & w' & Hd & Hcalls & _).
  - reflexivity.
  - reflexivity.
  - exists sp_plain. reflexivity.
  - constructor.
  - exists n, leaf, w'. split; assumption.
Defined.



(** C3 (amended) on the job whose step profile was changed. *)
Lemma sync_crunchers_step_profiles_kept_witness :
  ∃ t w',
    sync_crunchers world_profile_changed = Ok (t, w')
    ∧ (∀ j c, crunchers w' !! j = Some c → c ∈ dom (step_profiles w'))
    ∧ dom (step_profiles world_profile_changed) ⊆ dom (step_profiles w').
Proof.
  eexists _, _. split; [vm_compute; reflexivity|].
  apply (sync_crunchers_step_profiles_kept world_profile_changed 0).
  vm_compute. reflexivity.
Defined.

(** C3 as claimed fails: the job reached its target, its cruncher was
    retired and dropped from [crunchers], and the cruncher is still a key of
    [step_profiles]. *)
Lemma step_profiles_entry_outlives_cruncher :
  ∃ w', sync_crunchers world_target_reached = Ok (0, w')
        ∧ step_profiles w' !! 0 = Some sp_plain
        ∧ ¬ ∃ j, crunchers w' !! j = Some 0.
Proof.
  eexists. split; [vm_compute; reflexivity|]. split; [reflexivity|].
  intros [j Hj]. change (crunchers _) with (∅ : gmap nat nat) in Hj.
  rewrite lookup_empty in Hj. discriminate.
Qed.

(** C5 on the job that reached its target. *)
Lemma sync_crunchers_done_jobs_removed_witness :
  0 ∈ jobs world_target_reached
  ∧ ∃ t w',
      sync_crunchers world_target_reached = Ok (t, w')
      ∧ is_done (job_heap w' 0) = true
      ∧ 0 ∉ jobs w'.
Proof.
  split; [left|].
  eexists _, _. split; [vm_compute; reflexivity|]. split; [reflexivity|].
  apply (sync_crunchers_done_jobs_removed world_target_reached 0).
  - vm_compute. reflexivity.
  - left.
  - reflexivity.
Defined.

(** C6 on the job that waits for its node to leave editing. *)
Lemma no_cruncher_while_in_editing_witness :
  crunchers world_waiting_for_edit !! 0 = None
  ∧ still_in_editing (node (job_heap world_waiting_for_edit 0)) = true
  ∧ ∃ t w',
      sync_crunchers world_waiting_for_edit = Ok (t, w')
      ∧ crunchers w' !! 0 = None
      ∧ still_in_editing (node (job_heap w' 0)) = true.
Proof.
  split; [reflexivity|]. split; [reflexivity|].
  eexists _, _. split; [vm_compute; reflexivity|].
  apply (proj2 (proj2 no_cruncher_while_in_editing) 0 world_waiting_for_edit 0).
  - reflexivity.
  - reflexivity.
  - vm_compute. reflexivity.
Defined.

Lemma sample_world_only_obstacle job queue :
  only_obstacle 0 (sample_cruncher queue) (sample_world true job queue).
Proof.
  split; [reflexivity|]. split; [by exists sp_plain|].
  intros j' c'.
  change (crunchers (sample_world true job queue))
    with ({[0 := 0]} : gmap nat nat).
  by intros [_ <-]%lookup_singleton_Some.
Qed.

(** C7 on the cruncher that queued something foreign, and on the one that
    queued the tuple [(1, 2)]: the first sync raises the exception that
    names the item, the second the [TypeError] of the message's [%]. *)
Lemma unexpected_object_raises_witness :
  __add_work_to_tree 0 0 false world_foreign_item
    = Raise (UnexpectedObject "junk")
  ∧ sync_crunchers world_foreign_item = Raise (UnexpectedObject "junk")
  ∧ __add_work_to_tree 0 0 false world_tuple_item = Raise TypeError
  ∧ sync_crunchers world_tuple_item = Raise TypeError.
Proof.
  destruct (@unexpected_object_raises obj _)
    as (Hdrain & _ & _ & _ & _ & _ & Hsync).
  split; [|split; [|split]].
  - apply (Hdrain world_foreign_item 0 0 false
             (sample_cruncher
                [ThingState (state_at 1); ThingOther (Plain "junk")])
             [ThingState (state_at 1)] (Plain "junk") []).
    + reflexivity.
    + reflexivity.
    + repeat constructor.
    + exists sp_plain. reflexivity.
  - apply (Hsync world_foreign_item 0 0
             (sample_cruncher
                [ThingState (state_at 1); ThingOther (Plain "junk")])
             [ThingState (state_at 1)] (Plain "junk") []).
    + reflexivity.
    + reflexivity.
    + repeat constructor.
    + apply sample_world_only_obstacle.
  - apply (Hdrain world_tuple_item 0 0 false
             (sample_cruncher
                [ThingState (state_at 1);
                 ThingOther (Tuple ["1"; "2"]%string)])
             [ThingState (state_at 1)] (Tuple ["1"; "2"]%string) []).
    + reflexivity.
    + reflexivity.
    + repeat constructor.
    + exists sp_plain. reflexivity.
  - apply (Hsync world_tuple_item 0 0
             (sample_cruncher
                [ThingState (state_at 1);
                 ThingOther (Tuple ["1"; "2"]%string)])
             [ThingState (state_at 1)] (Tuple ["1"; "2"]%string) []).
    + reflexivity.
    + reflexivity.
    + repeat constructor.
    + apply sample_world_only_obstacle.
Defined.

(** C9: equal arguments give equal profiles, and [step_profile=5]
    against [step_profile=6] gives unequal ones. *)
Lemma StepProfile_equality_witness :
  (∃ sp1 sp2,
     StepProfile__init__ obj_isinstance_StepProfile PyStatePlaceholder
       "step" [PyAtom (AInt 1)] kwargs_five = Ok sp1
     ∧ StepProfile__init__ obj_isinstance_StepProfile PyStatePlaceholder
         "step" [PyAtom (AInt 1)] kwargs_five = Ok sp2
     ∧ StepProfile__eq__ sp1 sp2 = true)
  ∧ (∃ sp1 sp2,
       StepProfile__init__ obj_isinstance_StepProfile PyStatePlaceholder
         "step" [] kwargs_five = Ok sp1
       ∧ StepProfile__init__ obj_isinstance_StepProfile PyStatePlaceholder
           "step" [] kwargs_six = Ok sp2
       ∧ StepProfile__ne__ sp1 sp2 = true).
Proof.
  destruct (StepProfile_equality obj_isinstance_StepProfile PyStatePlaceholder)
    as (Hsame & _ & Hdiff).
  split.
  - destruct (Hsame "step"%string [PyAtom (AInt 1)] [PyAtom (AInt 1)]
                kwargs_five kwargs_five eq_refl eq_refl)
      as (sp1 & sp2 & H1 & H2 & Heq & _); [split; reflexivity|].
    exists sp1, sp2. repeat split; assumption.
  - destruct (Hdiff "step"%string [] ∅ "step_profile"%string
                (PyAtom (AInt 5)) (PyAtom (AInt 6)))
      as (sp1 & sp2 & H1 & H2 & _ & Hne);
      [discriminate|split; reflexivity|].
    exists sp1, sp2. split; [exact H1|]. split; [exact H2|].
    apply Hne; reflexivity.
Defined.

(** The constructor's copy form: [StepProfile(step, step_profile=p)], for
    [p] the step profile built from [step_profile=5], is a copy of [p].  It
    holds the keyword argument [step_profile=5], as [p] does, and compares
    equal to it. *)
Lemma StepProfile_copy_compares_equal :
  ∃ sp1 sp2,
    StepProfile__init__ obj_isinstance_StepProfile PyStatePlaceholder
      "step" [] kwargs_profile = Ok sp1
    ∧ StepProfile__init__ obj_isinstance_StepProfile PyStatePlaceholder
        "step" [] kwargs_five = Ok sp2
    ∧ kwargs sp1 = kwargs sp2
    ∧ StepProfile__eq__ sp1 sp2 = true
    ∧ StepProfile__ne__ sp1 sp2 = false.
Proof.
  eexists _, _. split; [vm_compute; reflexivity|].
  split; [vm_compute; reflexivity|]. repeat split; vm_compute; reflexivity.
Qed.

(** ** The further properties on the sample worlds *)

(** X1 on a queue of one state and the end marker. *)
Lemma add_work_to_tree_counts_witness :
  ∃ n leaf w',
    __add_work_to_tree 0 0 false world_end_marker = Ok ((n, leaf), w')
    ∧ ∃ cr sp0 added made,
        cruncher_heap world_end_marker !! 0 = Some cr
        ∧ step_profiles world_end_marker !! 0 = Some sp0
        ∧ n = length (states_of (work_queue cr))
        ∧ nodes (tree w') = nodes (tree world_end_marker) ++ added
        ∧ state <$> added = states_of (work_queue cr)
        ∧ ends (tree w') = ends (tree world_end_marker) ++ made
        ∧ length made = count_end_markers (work_queue cr)
        ∧ leaf = default (node (job_heap world_end_marker 0)) (last added)
        ∧ step_profiles w' !! 0 = Some (profile_after sp0 (work_queue cr)).
Proof.
  eexists _, _, _. split; [vm_compute; reflexivity|].
  apply (add_work_to_tree_counts 0 0 false world_end_marker).
  vm_compute. reflexivity.
Defined.

(** X2 on the job that produced two states. *)
Lemma sync_crunchers_counts_added_nodes_witness :
  ∃ t w',
    sync_crunchers world_two_states = Ok (t, w')
    ∧ ∃ added, nodes (tree w') = nodes (tree world_two_states) ++ added
               ∧ length added = t.
Proof.
  eexists _, _. split; [vm_compute; reflexivity|].
  apply (sync_crunchers_counts_added_nodes world_two_states).
  vm_compute. reflexivity.
Defined.

(** X3 on the job that reached its target. *)
Lemma sync_crunchers_keeps_jobs_witness :
  ∃ t w',
    sync_crunchers world_target_reached = Ok (t, w')
    ∧ (∀ j, crunching_profile (job_heap w' j)
            = crunching_profile (job_heap world_target_reached j)
            ∧ (resulted_in_end (job_heap world_target_reached j) = true →
               resulted_in_end (job_heap w' j) = true))
    ∧ jobs w' `sublist_of` jobs world_target_reached
    ∧ cruncher_type w' = cruncher_type world_target_reached.
Proof.
  eexists _, _. split; [vm_compute; reflexivity|].
  apply (sync_crunchers_keeps_jobs world_target_reached 0).
  vm_compute. reflexivity.
Defined.

(** X4 on the job whose step profile was changed. *)
Lemma sync_crunchers_keeps_crunchers_witness :
  ∃ t w',
    sync_crunchers world_profile_changed = Ok (t, w')
    ∧ (∀ c cr, cruncher_heap world_profile_changed !! c = Some cr →
         ∃ cr', cruncher_heap w' !! c = Some cr' ∧ cruncher_kept cr cr')
    ∧ ends (tree world_profile_changed) `prefix_of` ends (tree w')
    ∧ calls world_profile_changed `prefix_of` calls w'.
Proof.
  eexists _, _. split; [vm_compute; reflexivity|].
  apply (sync_crunchers_keeps_crunchers world_profile_changed 0).
  vm_compute. reflexivity.
Defined.

(** X5 on the job that reached its target. *)
Lemma sync_crunchers_tracks_listed_jobs_witness :
  ∃ t w',
    sync_crunchers world_target_reached = Ok (t, w')
    ∧ dom (crunchers w') ⊆ list_to_set (jobs w').
Proof.
  eexists _, _. split; [vm_compute; reflexivity|].
  apply (sync_crunchers_tracks_listed_jobs world_target_reached 0).
  vm_compute. reflexivity.
Defined.

(** X6 on the job that was taken off the list. *)
Lemma sync_crunchers_reaps_cancelled_witness :
  crunchers world_cancelled !! 0 = Some 0
  ∧ (0 ∉ jobs world_cancelled)
  ∧ ∃ t w',
      sync_crunchers world_cancelled = Ok (t, w')
      ∧ crunchers w' !! 0 = None
      ∧ reaped 0 w'.
Proof.
  split; [reflexivity|]. split; [apply not_elem_of_nil|].
  eexists _, _. split; [vm_compute; reflexivity|].
  apply (sync_crunchers_reaps_cancelled world_cancelled 0 0 2).
  - reflexivity.
  - apply not_elem_of_nil.
  - vm_compute. reflexivity.
Defined.

(** X7 on the running job whose profile has not been checked in. *)
Lemma sync_job_updates_profile_witness :
  crunchers world_running !! 0 = Some 0
  ∧ crunching_profiles_change_tracker world_running !! 0 = None
  ∧ ∃ w',
      sync_job 0 0 world_running = Ok (0, w')
      ∧ calls w'
        = [CallUpdateCrunchingProfile 0 (sample_profile Infinity sp_plain)]
      ∧ crunchers w' !! 0 = Some 0
      ∧ crunching_profiles_change_tracker w' !! 0 = Some (Infinity, sp_plain).
Proof.
  split; [reflexivity|]. split; [reflexivity|].
  destruct (sync_job_updates_profile world_running 0 0 (sample_cruncher [])
              0 0 (root_node false)
              (after_iterate 0 (sample_cruncher []) world_running))
    as (w' & Hs & Hcalls & _ & Hc & Hver).
  - reflexivity.
  - reflexivity.
  - reflexivity.
  - reflexivity.
  - reflexivity.
  - reflexivity.
  - reflexivity.
  - discriminate.
  - exists w'. repeat split; assumption.
Defined.

(** X8 on the job whose cruncher has died. *)
Lemma sync_job_replaces_cruncher_witness :
  crunchers world_cruncher_died !! 0 = Some 0
  ∧ ∃ w' c',
      sync_job 0 0 world_cruncher_died = Ok (0, w')
      ∧ c' = 1
      ∧ calls w' = [CallRetire 0; CallStart c']
      ∧ crunchers w' !! 0 = Some c'
      ∧ step_profiles w' !! c' = Some sp_plain.
Proof.
  split; [reflexivity|].
  destruct (sync_job_replaces_cruncher world_cruncher_died 0 0
              dead_cruncher 0 0 (root_node false)
              (after_iterate 0 dead_cruncher world_cruncher_died)
              sp_plain)
    as (w' & c' & Hs & Hc' & Hcalls & Hc & _ & Hsp).
  - reflexivity.
  - reflexivity.
  - reflexivity.
  - reflexivity.
  - reflexivity.
  - left. reflexivity.
  - reflexivity.
  - exists w', c'. repeat split; assumption.
Defined.

(** X9 on the job that reached its target. *)
Lemma sync_job_finishes_job_witness :
  crunchers world_target_reached !! 0 = Some 0
  ∧ 0 ∈ jobs world_target_reached
  ∧ ∃ w',
      sync_job 0 0 world_target_reached = Ok (0, w')
      ∧ jobs w' = []
      ∧ crunchers w' = delete 0 (crunchers world_target_reached)
      ∧ calls w' = [CallRetire 0].
Proof.
  split; [reflexivity|]. split; [left|].
  destruct (sync_job_finishes_job world_target_reached 0 0 (sample_cruncher [])
              0 0 (root_node false)
              (after_iterate 0 (sample_cruncher []) world_target_reached)
              sp_plain)
    as (w' & l & Hs & Hl & Hjobs & Hcrs & _ & Hcalls & _).
  - reflexivity.
  - reflexivity.
  - reflexivity.
  - reflexivity.
  - reflexivity.
  - left.
  - exists w'. split; [exact Hs|]. split; [|split; assumption].
    rewrite Hjobs. injection Hl as <-. reflexivity.
Defined.

Lemma world_idle_tracked j c :
  crunchers world_idle !! j = Some c → j ∈ jobs world_idle.
Proof.
  change (crunchers world_idle) with ({[0 := 0]} : gmap nat nat).
  intros [<- _]%lookup_singleton_Some. left.
Qed.

Lemma world_idle_idle j : j ∈ jobs world_idle → idle j world_idle.
Proof.
  intros ->%list_elem_of_singleton. split; [reflexivity|]. right.
  exists 0, (sample_cruncher []). repeat split; reflexivity.
Qed.

(** X10 on the running job whose profile has been checked in. *)
Lemma sync_crunchers_nothing_to_do_witness :
  ∃ w', sync_crunchers world_idle = Ok (0, w') ∧ same_world world_idle w'.
Proof.
  apply (sync_crunchers_nothing_to_do world_idle).
  - exact world_idle_tracked.
  - exact world_idle_idle.
Defined.

(** X11 on the job that waits for its node to leave editing. *)
Lemma sync_crunchers_employs_listed_jobs_witness :
  ∃ t w',
    sync_crunchers world_waiting_for_edit = Ok (t, w')
    ∧ ∀ j, j ∈ jobs w' →
        is_Some (crunchers w' !! j)
        ∨ still_in_editing (node (job_heap w' j)) = true.
Proof.
  eexists _, _. split; [vm_compute; reflexivity|].
  apply (sync_crunchers_employs_listed_jobs world_waiting_for_edit 0).
  vm_compute. reflexivity.
Defined.

(** X12 on the job whose step profile was changed. *)
Lemma sync_crunchers_starts_the_new_witness :
  ∃ t w',
    sync_crunchers world_profile_changed = Ok (t, w')
    ∧ ∃ made,
        calls w' = calls world_profile_changed ++ made
        ∧ started made
          = seq (length (cruncher_heap world_profile_changed))
                (length (cruncher_heap w')
                 - length (cruncher_heap world_profile_changed))
        ∧ length (cruncher_heap world_profile_changed)
          ≤ length (cruncher_heap w').
Proof.
  eexists _, _. split; [vm_compute; reflexivity|].
  apply (sync_crunchers_starts_the_new world_profile_changed 0).
  vm_compute. reflexivity.
Defined.

Lemma world_two_states_well_formed : well_formed world_two_states.
Proof.
  intros j c.
  change (crunchers world_two_states) with ({[0 := 0]} : gmap nat nat).
  intros [<- <-]%lookup_singleton_Some. split; [by exists sp_plain|].
  eexists. split; [reflexivity|]. repeat constructor.
Qed.

(** X13 on the job that produced two states. *)
Lemma sync_crunchers_returns_witness :
  ∃ t w', sync_crunchers world_two_states = Ok (t, w') ∧ well_formed w'.
Proof.
  apply (sync_crunchers_returns world_two_states).
  exact world_two_states_well_formed.
Defined.

(** X14 on the queues of two states and of a state and something
    foreign. *)
Lemma add_work_to_tree_returns_iff_witness :
  (∃ r, __add_work_to_tree 0 0 false world_two_states = Ok r)
  ∧ ¬ (∃ r, __add_work_to_tree 0 0 false world_foreign_item = Ok r).
Proof.
  split.
  - apply (add_work_to_tree_returns_iff 0 0 false world_two_states
             (sample_cruncher [ThingState (state_at 1); ThingState (state_at 2)])
             eq_refl).
    + exists sp_plain. reflexivity.
    + repeat constructor.
  - intros Hr.
    apply (add_work_to_tree_returns_iff 0 0 false world_foreign_item
             (sample_cruncher [ThingState (state_at 1); ThingOther (Plain "junk")])
             eq_refl) in Hr.
    + apply Forall_cons in Hr as [_ Hr]. apply Forall_cons in Hr as [Hr _].
      discriminate Hr.
    + exists sp_plain. reflexivity.
Defined.

(** X15 on the job that produced two states, asked for the jobs at the
    root. *)
Lemma get_jobs_by_node_after_sync_witness :
  ∃ t w',
    sync_crunchers world_two_states = Ok (t, w')
    ∧ ∃ l, get_jobs_by_node (root_node false) w' = Ok (l, w')
           ∧ l `sublist_of` jobs world_two_states
           ∧ (∀ j, j ∈ l
                   ↔ j ∈ jobs w' ∧ node (job_heap w' j) = root_node false)
           ∧ (∀ j, j ∈ l → is_done (job_heap w' j) = false).
Proof.
  eexists _, _. split; [vm_compute; reflexivity|].
  apply (get_jobs_by_node_after_sync world_two_states 2).
  vm_compute. reflexivity.
Defined.

(** X16: the profile [StepProfile(step, 2)] passed by keyword and
    passed first. *)
Lemma build_parser_returns_given_profile_witness :
  sample_parser [ArgNone] {["step_profile"%string := profile_object_fast]}
  = Ok sp_fast_arg
  ∧ sample_parser [profile_object_fast; ArgNone] ∅ = Ok sp_fast_arg.
Proof.
  destruct (build_parser_returns_given_profile arg_isinstance_StepProfile
              (ArgObject PyStatePlaceholder) ArgNone arg_isinstance_tuple
              arg_get_step_type "step"%string profile_object_fast
              sp_fast_arg)
    with (a := [ArgNone])
         (kw := {["step_profile"%string := profile_object_fast]}
                : gmap string arg)
    as [Hkw _]; [vm_compute; reflexivity|discriminate|reflexivity|].
  destruct (build_parser_returns_given_profile arg_isinstance_StepProfile
              (ArgObject PyStatePlaceholder) ArgNone arg_isinstance_tuple
              arg_get_step_type "step"%string profile_object_fast
              sp_fast_arg)
    with (a := [ArgNone]) (kw := ∅ : gmap string arg)
    as [_ Hpos]; [vm_compute; reflexivity|discriminate|reflexivity|].
  split; [apply Hkw|apply Hpos]; reflexivity.
Defined.

(** X17: [step_function=None], [step_profile=2], [step_profile=(1, 2)],
    and a first argument that is not a step function. *)
Lemma build_parser_refusals_witness :
  sample_parser [] {["step_function"%string := ArgNone]}
  = Raise GarlicSimException
  ∧ sample_parser [] {["step_profile"%string := ArgObject (PyAtom (AInt 2))]}
    = Raise GarlicSimException
  ∧ sample_parser []
      {["step_profile"%string := ArgTuple [PyAtom (AInt 1); PyAtom (AInt 2)]]}
    = Raise TypeError
  ∧ sample_parser [ArgObject (PyAtom (AInt 2))] ∅ = Ok sp_fast_arg.
Proof.
  split; [|split; [|split]].
  - apply (proj1 (build_parser_refusals arg_isinstance_StepProfile
                    (ArgObject PyStatePlaceholder) ArgNone
                    arg_isinstance_tuple arg_get_step_type
                    "step"%string [] _) ArgNone GarlicSimException);
      reflexivity.
  - apply (proj1 (proj2 (build_parser_refusals
                    arg_isinstance_StepProfile
                    (ArgObject PyStatePlaceholder) ArgNone
                    arg_isinstance_tuple arg_get_step_type
                    "step"%string []
                    ({["step_profile"%string := ArgObject (PyAtom (AInt 2))]}
                     : gmap string arg)))
             (ArgObject (PyAtom (AInt 2))));
      [reflexivity|reflexivity|discriminate|reflexivity|].
    left. reflexivity.
  - apply (proj1 (proj2 (build_parser_refusals
                    arg_isinstance_StepProfile
                    (ArgObject PyStatePlaceholder) ArgNone
                    arg_isinstance_tuple arg_get_step_type
                    "step"%string []
                    ({["step_profile"%string
                       := ArgTuple [PyAtom (AInt 1); PyAtom (AInt 2)]]}
                     : gmap string arg)))
             (ArgTuple [PyAtom (AInt 1); PyAtom (AInt 2)]))
      with (len := 2);
      [reflexivity|reflexivity|discriminate|reflexivity|reflexivity
      |discriminate].
  - unfold sample_parser.
    rewrite (proj2 (proj2 (build_parser_refusals arg_isinstance_StepProfile
                    (ArgObject PyStatePlaceholder) ArgNone
                    arg_isinstance_tuple arg_get_step_type
                    "step"%string [ArgObject (PyAtom (AInt 2))] ∅))
               (ArgObject (PyAtom (AInt 2))) [] GarlicSimException)
      by reflexivity.
    vm_compute. reflexivity.
Defined.

(** X18: [step(state, t, dt)] with [dt] missing, and with an entry more
    than is declared. *)
Lemma create_from_dld_format_reads_declared_names_witness :
  create_from_dld_format arg_isinstance_StepProfile
    (ArgObject PyStatePlaceholder) sample_getargspec_args "step"
    {["t"%string := ArgObject (PyAtom (AInt 1))]} [] ∅
  = Raise KeyError
  ∧ create_from_dld_format arg_isinstance_StepProfile
      (ArgObject PyStatePlaceholder) sample_getargspec_args "step"
      (<["state"%string := ArgNone]>
         (<["dt"%string := ArgObject (PyAtom (AInt 2))]>
            {["t"%string := ArgObject (PyAtom (AInt 1))]})) [] ∅
    = create_from_dld_format arg_isinstance_StepProfile
        (ArgObject PyStatePlaceholder) sample_getargspec_args "step"
        (<["dt"%string := ArgObject (PyAtom (AInt 2))]>
           {["t"%string := ArgObject (PyAtom (AInt 1))]}) [] ∅.
Proof.
  split.
  - apply (proj1 (create_from_dld_format_reads_declared_names
                    arg_isinstance_StepProfile (ArgObject PyStatePlaceholder)
                    sample_getargspec_args "step"%string _ [] ∅)
             "dt"%string).
    + right. left.
    + reflexivity.
  - apply (proj2 (create_from_dld_format_reads_declared_names
                    arg_isinstance_StepProfile (ArgObject PyStatePlaceholder)
                    sample_getargspec_args "step"%string _ [] ∅)).
    intros name Hin. apply lookup_insert_ne. intros <-.
    apply elem_of_cons in Hin as [Hin|Hin]; [discriminate|].
    apply elem_of_cons in Hin as [Hin|Hin]; [discriminate|].
    by apply elem_of_nil in Hin.
Defined.

(** End of the development. *)
